(** * BlockyTalky music blocks: the block-graph-to-Elixir code generator

    A shallow embedding of [web/static/vendor/elixir/music.js] (the
    per-kind generator functions registered on [Blockly.Elixir]) together
    with the traversal they are run by: value-input resolution, statement
    chain compilation and the top-level driver.  The generators are
    translated from the JavaScript source one by one; the traversal is not
    part of that file and is modelled from the specification. *)

From Stdlib Require Import ZArith String Ascii DecimalString Lia.
From Stdlib Require DecimalFacts DecimalPos DecimalZ.
From stdpp Require Import base strings list gmap.

Local Open Scope string_scope.
Local Open Scope list_scope.

(** ** Text helpers *)

(** The line feed written [\n] in the JavaScript source. *)
Definition nl : string := String (ascii_of_nat 10) EmptyString.

(** The double-quote character. *)
Definition dq : string := String (ascii_of_nat 34) EmptyString.

(** JavaScript number-to-string conversion, on the integers. *)
Definition js_of_Z (z : Z) : string := NilZero.string_of_int (Z.to_int z).

(** JavaScript number-to-string conversion of a loop counter. *)
Definition js_of_nat (n : nat) : string := NilZero.string_of_uint (Nat.to_uint n).

(** [string_drop n s] is [s.substring(n)]. *)
Fixpoint string_drop (n : nat) (s : string) : string :=
  match n, s with
  | O, _ => s
  | S n', String _ s' => string_drop n' s'
  | S _, EmptyString => EmptyString
  end.

(** [js_replace s pat rep] is [s.replace(pat, rep)] for a string pattern:
    the first occurrence of [pat] in [s], if any, is replaced by [rep].
    The [$]-patterns that JavaScript interprets inside [rep] are not
    modelled; the embedding is exact for replacement texts without [$]. *)
Fixpoint js_replace (s pat rep : string) : string :=
  if String.prefix pat s then rep +:+ string_drop (String.length pat) s
  else match s with
       | EmptyString => EmptyString
       | String c s' => String c (js_replace s' pat rep)
       end.

(** [occurs_at pat s n]: [pat] occurs in [s] at offset [n]. *)
Definition occurs_at (pat s : string) (n : nat) : Prop :=
  exists pre post, s = pre +:+ pat +:+ post /\ String.length pre = n.

(** ** Data model *)

(** A decimal digit. *)
Inductive digit : Type :=
| digit0 | digit1 | digit2 | digit3 | digit4
| digit5 | digit6 | digit7 | digit8 | digit9.

(** Modelled from the spec: a numeric literal that is a float, which the
    sources do not declare: a sign, the digits before the decimal point and
    the digits after it.  Zeros in front of the first and behind the second
    do not change the number it denotes. *)
Record float_literal : Type := mkFloat {
  negative : bool;
  whole : list digit;
  fraction : list digit
}.

(** Modelled from the spec: a literal field value bound directly to a
    value-input slot, which the sources do not declare.  A numeric literal
    is an integer or a float. *)
Inductive literal : Type :=
| LString (s : string)
| LNumber (z : Z)
| LFloat (f : float_literal)
| LAtom (token : string).

(** Modelled from the spec: what a value-input slot is bound to, a literal
    or a reference to another node's output. *)
Inductive binding : Type :=
| Lit (l : literal)
| Ref (id : nat).

(** Modelled from the spec: a node, the [block] that a generator receives.
    It has a kind tag ([block.type]), named value-input slots, named
    statement-input slots holding the first node of a nested chain, an
    optional [next] reference, and named field values.  Its identity is
    its key in the graph. *)
Record Node : Type := mkNode {
  kind : string;
  values : gmap string binding;
  statements : gmap string nat;
  next : option nat;
  fields : gmap string string
}.

(** Modelled from the spec: [Blockly.Elixir.ORDER_ATOMIC], which is
    declared outside the sources: the tier of atomic text, the tightest
    one. *)
Definition ORDER_ATOMIC : Z := 0.

(** The mutable generation context: [Blockly.Elixir.context] and
    [Blockly.Elixir.macros_]. *)
Record GenCtx : Type := mkCtx {
  context : option string;
  macros_ : list string
}.

(** What aborts a run.  The first three are modelled from the spec: the
    fatal errors of its error taxonomy, each naming the offending node.
    The last is the JavaScript exception that a strict-mode script raises
    when it assigns to a variable that is declared nowhere; it names the
    variable. *)
Inductive error : Type :=
| UnknownKind (id : nat) (k : string)
| DanglingReference (id : nat)
| CyclicValueInput (id : nat)
| ReferenceError (name : string).

(** The result of running a piece of the generator from a context:
    it returns a value and the new context, aborts with a fatal error, or
    the budget that bounds the depth of the traversal is exhausted. *)
Inductive outcome (A : Type) : Type :=
| Done (a : A) (st : GenCtx)
| Fail (e : error)
| Exhausted.

Arguments Done {A} a st.
Arguments Fail {A} e.
Arguments Exhausted {A}.

(** ** The generation monad: context passing with fatal errors *)

Definition M (A : Type) : Type := GenCtx -> outcome A.

Definition ret {A : Type} (a : A) : M A := fun st => Done a st.

Definition bind {A B : Type} (m : M A) (f : A -> M B) : M B :=
  fun st =>
    match m st with
    | Done a st' => f a st'
    | Fail e => Fail e
    | Exhausted => Exhausted
    end.

Definition throw {A : Type} (e : error) : M A := fun _ => Fail e.

Definition exhaust {A : Type} : M A := fun _ => Exhausted.

(** [Blockly.Elixir.context = tag]. *)
Definition set_context (tag : option string) : M unit :=
  fun st => Done tt {| context := tag; macros_ := macros_ st |}.

(** [Blockly.Elixir.macros_.push(code)]. *)
Definition push_macro (code : string) : M unit :=
  fun st => Done tt {| context := context st; macros_ := macros_ st ++ [code] |}.

Notation "x <- m ;; k" := (bind m (fun x => k))
  (at level 100, m at next level, right associativity).
Notation "m ;;; k" := (bind m (fun _ => k))
  (at level 100, right associativity).

(** [block.getFieldValue(name)].  A block carries every field its [init]
    declares; for a name it does not carry JavaScript yields [null], which
    string concatenation prints as the text null. *)
Definition getFieldValue (block : Node) (name : string) : string :=
  default "null" (fields block !! name).

(** ** The generators of music.js *)

Section Generators.

(** [Blockly.Elixir.valueToCode(block, name, order)]. *)
Variable valueToCode : Node -> string -> Z -> M string.

(** [Blockly.Elixir.statementToCode(block, name)]. *)
Variable statementToCode : Node -> string -> M string.

Definition defmotif (block : Node) : M string :=
  set_context (Some ":music") ;;;
  value_name <- valueToCode block "NAME" ORDER_ATOMIC ;;
  statements_do <- statementToCode block "DO" ;;
  let code := "defmotif " +:+ value_name +:+ " do" +:+ nl +:+ statements_do +:+ nl +:+ "end" +:+ nl in
  set_context None ;;;
  push_macro code ;;;
  ret code.

Definition play_synth (block : Node) : M string :=
  value_notes <- valueToCode block "NOTES" ORDER_ATOMIC ;;
  value_beats <- valueToCode block "BEATS" ORDER_ATOMIC ;;
  let code := "play_synth(" +:+ value_notes +:+ "," +:+ value_beats +:+ ")" +:+ nl in
  ret code.

(** The block carries SAMPLE and STYLE, its two dropdowns. *)
Definition trigger_drum (block : Node) : M string :=
  let dropdown_sample := getFieldValue block "SAMPLE" in
  let dropdown_style := getFieldValue block "STYLE" in
  let dropdown_sample := js_replace dropdown_sample "soft" dropdown_style in
  let code := "trigger_sample(" +:+ dropdown_sample +:+ ")" +:+ nl in
  ret code.

Definition rest (block : Node) : M string :=
  value_amount <- valueToCode block "AMOUNT" ORDER_ATOMIC ;;
  let dropdown_units := getFieldValue block "UNITS" in
  let code := "rest(" +:+ value_amount +:+ "," +:+ dropdown_units +:+ ")" +:+ nl in
  ret code.

Definition wait_for (block : Node) : M string :=
  let dropdown_units := getFieldValue block "UNITS" in
  let code := "wait_for(" +:+ dropdown_units +:+ ")" +:+ nl in
  ret code.

Definition set_volume (block : Node) : M string :=
  value_volume <- valueToCode block "VOLUME" ORDER_ATOMIC ;;
  let code := "set_volume(" +:+ value_volume +:+ ")" +:+ nl in
  ret code.

Definition set_tempo (block : Node) : M string :=
  value_tempo <- valueToCode block "TEMPO" ORDER_ATOMIC ;;
  let code := "set_tempo(" +:+ value_tempo +:+ ")" +:+ nl in
  ret code.

Definition stop_sound (block : Node) : M string :=
  let code := "stop_sound()" +:+ nl in
  ret code.

Definition cue (block : Node) : M string :=
  value_motif <- valueToCode block "MOTIF" ORDER_ATOMIC ;;
  let code := "cue(" +:+ value_motif +:+ ")" +:+ nl in
  ret code.

Definition loop (block : Node) : M string :=
  value_motif <- valueToCode block "MOTIF" ORDER_ATOMIC ;;
  let code := "loop(" +:+ value_motif +:+ ")" +:+ nl in
  ret code.

Definition sync_to_parent (block : Node) : M string :=
  value_parent <- valueToCode block "PARENT" ORDER_ATOMIC ;;
  let code := "sync_to(" +:+ value_parent +:+ ")" +:+ nl in
  ret code.

(** One turn of the [for] loop of [chord] and [premade_chord]: [code] is
    the text built so far and [i] the loop counter. *)
Definition chord_note (block : Node) (code : string) (i : nat) : M string :=
  note <- valueToCode block ("Note" +:+ js_of_nat i) ORDER_ATOMIC ;;
  if negb (String.eqb note EmptyString) && (1 <? i)%nat then
    ret (code +:+ "," +:+ note)
  else if negb (String.eqb note EmptyString) then
    ret (code +:+ note)
  else
    ret code.

(** [for (var i = 1; i < 5; i++)] over the body [chord_note]. *)
Fixpoint chord_loop (block : Node) (code : string) (counters : list nat) : M string :=
  match counters with
  | [] => ret code
  | i :: rest => code' <- chord_note block code i ;; chord_loop block code' rest
  end.

Definition chord (block : Node) : M (string * Z) :=
  let code := "[" in
  code <- chord_loop block code [1; 2; 3; 4]%nat ;;
  let code := code +:+ "]" in
  ret (code, ORDER_ATOMIC).

Definition premade_chord (block : Node) : M (string * Z) :=
  let code := "[" in
  code <- chord_loop block code [1; 2; 3; 4]%nat ;;
  let code := code +:+ "]" in
  ret (code, ORDER_ATOMIC).

Definition play_chord_progression (block : Node) : M string :=
  set_context (Some ":music") ;;;
  value_name <- valueToCode block "NAME" ORDER_ATOMIC ;;
  statements_do <- statementToCode block "DO" ;;
  let code := statements_do in
  set_context None ;;;
  ret code.

Definition play_in_key (block : Node) : M string :=
  set_context (Some ":music") ;;;
  let key := getFieldValue block "KEY" in
  let mode := getFieldValue block "MODE" in
  statements_do <- statementToCode block "DO" ;;
  let code := "play_in_key(" +:+ dq +:+ key +:+ dq +:+ "," +:+ dq +:+ mode +:+ dq +:+ ")" +:+ " do" +:+ nl +:+ statements_do +:+ nl +:+ "end" +:+ nl in
  set_context None ;;;
  ret code.

Definition set_synth (block : Node) : M string :=
  let dropdown_synth := getFieldValue block "SYNTH" in
  let code := "set_synth(" +:+ dropdown_synth +:+ ")" +:+ nl in
  ret code.

Definition with_fx (block : Node) : M string :=
  let dropdown_effect := getFieldValue block "EFFECT" in
  statements_commands <- statementToCode block "COMMANDS" ;;
  let code := "with_fx(" +:+ dropdown_effect +:+ ")" +:+ nl +:+ "do" +:+ nl +:+ statements_commands +:+ nl +:+ "end" +:+ nl in
  ret code.

(** The text that the last generator of the file builds, the right-hand
    side of its assignment. *)
Definition trigger_sample_text (block : Node) : string :=
  "trigger_sample(" +:+ dq +:+ getFieldValue block "NAME" +:+ dq +:+ ")" +:+ nl.

(** The file starts with ['use strict'], and [code], the variable that
    this generator assigns the text to, is declared nowhere: the
    assignment raises a [ReferenceError], after the two writes of the
    scope tag, and the [return] is never reached. *)
Definition trigger_sample (block : Node) : M string :=
  set_context (Some ":music") ;;;
  set_context None ;;;
  let text := trigger_sample_text block in
  throw (ReferenceError "code").

End Generators.

(** The shape of a generator that returns statement text. *)
Definition statement_generator : Type :=
  (Node -> string -> Z -> M string) -> (Node -> string -> M string) -> Node -> M string.

(** The shape of a generator that returns value text and its tier. *)
Definition value_generator : Type :=
  (Node -> string -> Z -> M string) -> Node -> M (string * Z).

(** The entries of [Blockly.Elixir] that return a string. *)
Definition statement_kinds : list (string * statement_generator) :=
  [ ("defmotif", defmotif);
    ("play_synth", fun v _ => play_synth v);
    ("trigger_drum", fun _ _ => trigger_drum);
    ("rest", fun v _ => rest v);
    ("wait_for", fun _ _ => wait_for);
    ("set_volume", fun v _ => set_volume v);
    ("set_tempo", fun v _ => set_tempo v);
    ("stop_sound", fun _ _ => stop_sound);
    ("cue", fun v _ => cue v);
    ("loop", fun v _ => loop v);
    ("sync_to_parent", fun v _ => sync_to_parent v);
    ("play_chord_progression", play_chord_progression);
    ("play_in_key", fun _ s => play_in_key s);
    ("set_synth", fun _ _ => set_synth);
    ("with_fx", fun _ s => with_fx s);
    ("trigger_sample", fun _ _ => trigger_sample) ].

(** The entries of [Blockly.Elixir] that return a pair of text and tier. *)
Definition value_kinds : list (string * value_generator) :=
  [ ("chord", chord); ("premade_chord", premade_chord) ].

(** Lookup in a table keyed by kind, as in [Blockly.Elixir[block.type]]. *)
Fixpoint assoc {A : Type} (k : string) (table : list (string * A)) : option A :=
  match table with
  | [] => None
  | (k', a) :: table' => if String.eqb k k' then Some a else assoc k table'
  end.

(** ** The traversal *)

(** Modelled from the spec: the registry lookup of a kind that is to stand
    in a statement chain; [None] is the spec's [UnknownKind]. *)
Definition lookup_statement_kind (k : string) : option statement_generator :=
  assoc k statement_kinds.

(** Modelled from the spec: the registry lookup of a kind that is to
    produce a value; [None] is the spec's [UnknownKind]. *)
Definition lookup_value_kind (k : string) : option value_generator :=
  assoc k value_kinds.

(** Modelled from the spec: the declared default of an unbound value-input
    slot, which the node registry would hold.  No kind of music.js declares
    one. *)
Definition slot_default (k slotName : string) : option literal := None.

(** Modelled from the spec: the escaping of the field literal rendering
    table, which is missing from the sources: quote and backslash
    characters of a string literal are preceded by a backslash. *)
Fixpoint escape (s : string) : string :=
  match s with
  | EmptyString => EmptyString
  | String c s' =>
      if (Ascii.eqb c (ascii_of_nat 34) || Ascii.eqb c (ascii_of_nat 92))%bool
      then String (ascii_of_nat 92) (String c (escape s'))
      else String c (escape s')
  end.

Definition digit_value (d : digit) : nat :=
  match d with
  | digit0 => 0 | digit1 => 1 | digit2 => 2 | digit3 => 3 | digit4 => 4
  | digit5 => 5 | digit6 => 6 | digit7 => 7 | digit8 => 8 | digit9 => 9
  end.

Definition digit_char (d : digit) : ascii :=
  match d with
  | digit0 => "0" | digit1 => "1" | digit2 => "2" | digit3 => "3" | digit4 => "4"
  | digit5 => "5" | digit6 => "6" | digit7 => "7" | digit8 => "8" | digit9 => "9"
  end%char.

Definition char_digit (c : ascii) : option digit :=
  (if Ascii.eqb c "0" then Some digit0 else
   if Ascii.eqb c "1" then Some digit1 else
   if Ascii.eqb c "2" then Some digit2 else
   if Ascii.eqb c "3" then Some digit3 else
   if Ascii.eqb c "4" then Some digit4 else
   if Ascii.eqb c "5" then Some digit5 else
   if Ascii.eqb c "6" then Some digit6 else
   if Ascii.eqb c "7" then Some digit7 else
   if Ascii.eqb c "8" then Some digit8 else
   if Ascii.eqb c "9" then Some digit9 else None)%char.

Definition is_digit0 (d : digit) : bool :=
  match d with
  | digit0 => true
  | _ => false
  end.

(** The natural number that a sequence of digits denotes. *)
Fixpoint number_of (ds : list digit) : nat :=
  match ds with
  | [] => 0
  | d :: ds' => digit_value d * 10 ^ length ds' + number_of ds'
  end.

(** The magnitude of the number that a float literal denotes is
    [magnitude f] divided by ten to the number of its fraction digits. *)
Definition magnitude (f : float_literal) : nat :=
  number_of (whole f ++ fraction f).

(** Two float literals denote the same number: the same magnitude, and
    the same sign unless the number is zero. *)
Definition same_value (f f' : float_literal) : Prop :=
  magnitude f * 10 ^ length (fraction f') = magnitude f' * 10 ^ length (fraction f) /\
  (magnitude f <> 0 -> negative f = negative f').

(** [ds] without the zeros in front. *)
Fixpoint strip_leading (ds : list digit) : list digit :=
  match ds with
  | digit0 :: ds' => strip_leading ds'
  | _ => ds
  end.

(** [ds] without the zeros at the end. *)
Definition strip_trailing (ds : list digit) : list digit :=
  rev (strip_leading (rev ds)).

Fixpoint digits_text (ds : list digit) : string :=
  match ds with
  | [] => EmptyString
  | d :: ds' => String (digit_char d) (digits_text ds')
  end.

(** A part of a number is never printed empty. *)
Definition at_least_zero (ds : list digit) : list digit :=
  match ds with
  | [] => [digit0]
  | _ => ds
  end.

Definition is_zero (f : float_literal) : bool :=
  forallb is_digit0 (whole f ++ fraction f).

(** [c] occurs in [s]. *)
Fixpoint contains_char (c : ascii) (s : string) : bool :=
  match s with
  | EmptyString => false
  | String c' s' => Ascii.eqb c' c || contains_char c s'
  end.

(** Modelled from the spec: the rendering of a float, which is missing
    from the sources: the shortest decimal text that reads back as the
    same number and contains a decimal point, with a digit on either side
    of it.  Zero has no sign. *)
Definition render_float (f : float_literal) : string :=
  (if negative f && negb (is_zero f) then "-" else EmptyString)
    +:+ digits_text (at_least_zero (strip_leading (whole f)))
    +:+ "." +:+ digits_text (at_least_zero (strip_trailing (fraction f))).

(** The longest sequence of digits that [s] starts with, and what follows
    it. *)
Fixpoint read_digits (s : string) : list digit * string :=
  match s with
  | EmptyString => ([], EmptyString)
  | String c s' =>
      match char_digit c with
      | Some d => let (ds, tail) := read_digits s' in (d :: ds, tail)
      | None => ([], s)
      end
  end.

(** The sign that [s] starts with, and what follows it. *)
Definition read_sign (s : string) : bool * string :=
  match s with
  | String c s' => if Ascii.eqb c "-" then (true, s') else (false, s)
  | EmptyString => (false, s)
  end.

(** Digits, a decimal point and digits, at least one on either side. *)
Definition read_unsigned (sign : bool) (body : string) : option float_literal :=
  let (before, tail) := read_digits body in
  match tail with
  | String c tail' =>
      if Ascii.eqb c "." then
        let (after, rest) := read_digits tail' in
        match before, after, rest with
        | _ :: _, _ :: _, EmptyString => Some (mkFloat sign before after)
        | _, _, _ => None
        end
      else None
  | EmptyString => None
  end.

(** Modelled from the spec: the reading of a float from its text, against
    which a rendering round-trips: an optional minus sign, digits, a
    decimal point and digits, at least one on either side. *)
Definition read_float (s : string) : option float_literal :=
  let (sign, body) := read_sign s in read_unsigned sign body.

(** Modelled from the spec: the reading of an integer from its text. *)
Definition read_integer (s : string) : option Z :=
  option_map Z.of_int (NilZero.int_of_string s).

(** The float literal [2.0]. *)
Definition two_point_zero : float_literal := mkFloat false [digit2] [digit0].

(** Modelled from the spec: the field literal rendering table, which is
    missing from the sources.  Strings are quoted and escaped, integers are
    printed in decimal without a fractional point, floats are printed with
    one, and atom-like selector values are printed as the token they are. *)
Definition render_literal (l : literal) : string :=
  match l with
  | LString s => dq +:+ escape s +:+ dq
  | LNumber z => js_of_Z z
  | LFloat f => render_float f
  | LAtom token => token
  end.

(** Modelled from the spec: one level of indentation.  The spec leaves the
    unit open; two spaces are used. *)
Definition INDENT : string := "  ".

(** Modelled from the spec: the indentation of nested statement text,
    which is missing from the sources.  [prefix] is put after every line
    feed that is followed by more text. *)
Fixpoint prefixRest (prefix text : string) : string :=
  match text with
  | EmptyString => EmptyString
  | String c rest =>
      if Ascii.eqb c (ascii_of_nat 10) then
        match rest with
        | EmptyString => String c EmptyString
        | _ => String c (prefix +:+ prefixRest prefix rest)
        end
      else String c (prefixRest prefix rest)
  end.

(** Modelled from the spec: the indentation of nested statement text,
    which is missing from the sources.  Every line of a non-empty [text]
    starts with [prefix]. *)
Definition prefixLines (text prefix : string) : string :=
  match text with
  | EmptyString => EmptyString
  | _ => prefix +:+ prefixRest prefix text
  end.

(** Modelled from the spec: the text of a resolved value input, without
    its tier, which is what [Blockly.Elixir.valueToCode], missing from the
    sources, hands to a generator. *)
Definition text_of (m : M (string * Z)) : M string :=
  r <- m ;; ret r.1.

Section Resolver.

(** Modelled from the spec: the lookup of the node registry for the kinds
    that produce a value; [None] is the spec's [UnknownKind]. *)
Variable registry : string -> option value_generator.

(** Modelled from the spec: [resolveValue(node, slotName, consumerTier)],
    the expression resolver behind [Blockly.Elixir.valueToCode], which is
    missing from the sources.  It returns text and tier.  [stack] holds the
    nodes whose value inputs are being resolved, the consuming node
    included.  An unbound slot resolves to its declared default or to
    empty text, at the tightest tier; a literal is rendered, at the
    tightest tier; a bound node is generated and its text is wrapped in
    parentheses when its tier is greater than the consumer's.  A reference
    to a node on [stack] is a [CyclicValueInput], a reference to no node is
    a [DanglingReference], and a node whose kind has no value generator
    is an [UnknownKind]. *)
Fixpoint resolveValueIn (fuel : nat) (g : gmap nat Node) (stack : list nat)
    (node : Node) (slotName : string) (consumerTier : Z) {struct fuel} : M (string * Z) :=
  match values node !! slotName with
  | None =>
      match slot_default (kind node) slotName with
      | Some l => ret (render_literal l, ORDER_ATOMIC)
      | None => ret (EmptyString, ORDER_ATOMIC)
      end
  | Some (Lit l) => ret (render_literal l, ORDER_ATOMIC)
  | Some (Ref c) =>
      if bool_decide (c ∈ stack) then throw (CyclicValueInput c)
      else
        match g !! c with
        | None => throw (DanglingReference c)
        | Some child =>
            match registry (kind child) with
            | None => throw (UnknownKind c (kind child))
            | Some generate =>
                match fuel with
                | O => exhaust
                | S fuel' =>
                    r <- generate
                           (fun block name order =>
                              text_of (resolveValueIn fuel' g (c :: stack) block name order))
                           child ;;
                    if (consumerTier <? r.2)%Z
                    then ret ("(" +:+ r.1 +:+ ")", r.2)
                    else ret r
                end
            end
        end
  end.

End Resolver.

(** Modelled from the spec: the expression resolver over the registry of
    music.js. *)
Definition resolveValue : nat -> gmap nat Node -> list nat -> Node -> string -> Z
                          -> M (string * Z) :=
  resolveValueIn lookup_value_kind.

(** Modelled from the spec: [Blockly.Elixir.valueToCode(block, name,
    order)] as a generator of statement node [id] sees it: the text of the
    resolved slot. *)
Definition valueToCode (fuel : nat) (g : gmap nat Node) (id : nat)
    (block : Node) (name : string) (order : Z) : M string :=
  text_of (resolveValue fuel g [id] block name order).

(** Modelled from the spec: the text of a statement-input slot, behind
    [Blockly.Elixir.statementToCode], which is missing from the sources:
    the text of the nested chain, compiled by [chain] and indented one
    level, or empty text for an empty slot. *)
Definition nested (chain : nat -> M string) (block : Node) (name : string) : M string :=
  match statements block !! name with
  | None => ret EmptyString
  | Some first => code <- chain first ;; ret (prefixLines code INDENT)
  end.

(** Modelled from the spec: what the scope/macro hoisting controller does
    around the generator of a node of kind [k], as far as it is missing
    from the sources.  The generators of music.js write and clear the scope
    tag and push the definition of a motif on the accumulator themselves;
    left to the controller is the return path: the text that the generator
    of a named motif definition returns does not flow into the caller's
    chain text, the chain compiler receives empty text for that node. *)
Definition hoistingController (k : string) (generated : M string) : M string :=
  if String.eqb k "defmotif" then generated ;;; ret EmptyString else generated.

(** Modelled from the spec: [compileChain(firstNodeId)], the statement
    chain compiler, which is missing from the sources.  It looks the node
    up, runs the generator of its kind, wrapped by the hoisting
    controller, with the resolver for its value inputs and [nested] for
    its statement inputs, appends the text it receives, which carries its
    own line feed, and goes on to the node's [next]. *)
Fixpoint compileChain (fuel : nat) (g : gmap nat Node) (firstNodeId : nat)
    {struct fuel} : M string :=
  match fuel with
  | O => exhaust
  | S fuel' =>
      match g !! firstNodeId with
      | None => throw (DanglingReference firstNodeId)
      | Some node =>
          match lookup_statement_kind (kind node) with
          | None => throw (UnknownKind firstNodeId (kind node))
          | Some generate =>
              text <- hoistingController (kind node)
                        (generate (valueToCode fuel' g firstNodeId)
                                  (nested (compileChain fuel' g)) node) ;;
              match next node with
              | None => ret text
              | Some following =>
                  rest <- compileChain fuel' g following ;;
                  ret (text +:+ rest)
              end
          end
      end
  end.

(** Modelled from the spec: the fresh generation context that a
    compilation starts from, with the scope tag null and the macro
    accumulator empty. *)
Definition fresh_context : GenCtx := {| context := None; macros_ := [] |}.

(** Modelled from the spec: the macro section of the output, which the
    missing driver builds: the hoisted macro texts in the order they were
    pushed. *)
Definition macro_section (macros : list string) : string :=
  foldr String.append EmptyString macros.

(** Modelled from the spec: the final assembly of the top-level driver,
    which is missing from the sources: the macro section, a blank line, and
    the body; the body alone when nothing was hoisted. *)
Definition assemble (macros : list string) (body : string) : string :=
  match macros with
  | [] => body
  | _ => macro_section macros +:+ nl +:+ body
  end.

(** Modelled from the spec: [compile(rootNodeId)], the top-level driver,
    which is missing from the sources.  Whatever context the previous run
    left behind is replaced by a fresh one before the root chain is
    compiled. *)
Definition compile (fuel : nat) (g : gmap nat Node) (rootNodeId : nat) : M string :=
  fun _ =>
    match compileChain fuel g rootNodeId fresh_context with
    | Done body st => Done (assemble (macros_ st) body) st
    | Fail e => Fail e
    | Exhausted => Exhausted
    end.

(** ** Example graphs *)

(** A node with no inputs, no fields and no successor. *)
Definition bare (k : string) : Node :=
  {| kind := k; values := ∅; statements := ∅; next := None; fields := ∅ |}.

(** The chord with the notes C4 and E4. *)
Definition tempo_chord : Node :=
  {| kind := "chord";
     values := <[ "Note1" := Lit (LString "C4") ]> {[ "Note2" := Lit (LString "E4") ]};
     statements := ∅; next := None; fields := ∅ |}.

(** A [play_synth] of the chord at node 3, for two beats. *)
Definition tempo_synth : Node :=
  {| kind := "play_synth";
     values := <[ "NOTES" := Ref 3%nat ]> {[ "BEATS" := Lit (LNumber 2) ]};
     statements := ∅; next := Some 2%nat; fields := ∅ |}.

(** The chain [set_tempo(120)] -> [play_synth] of a chord of C4 and E4 for
    2 beats -> [stop_sound()]. *)
Definition tempo_graph : gmap nat Node :=
  <[ 0%nat := {| kind := "set_tempo"; values := {[ "TEMPO" := Lit (LNumber 120) ]};
                 statements := ∅; next := Some 1%nat; fields := ∅ |} ]>
  (<[ 1%nat := tempo_synth ]>
  (<[ 2%nat := bare "stop_sound" ]>
  (<[ 3%nat := tempo_chord ]> ∅))).

(** The text of [tempo_chord]. *)
Definition tempo_chord_text : string :=
  "[" +:+ dq +:+ "C4" +:+ dq +:+ "," +:+ dq +:+ "E4" +:+ dq +:+ "]".

(** A [wait_for] the first beat, with no successor. *)
Definition wait_beat : Node :=
  {| kind := "wait_for"; values := ∅; statements := ∅; next := None;
     fields := {[ "UNITS" := ":beat1" ]} |}.

(** A motif definition whose body starts at node 1.  As its block
    declares no previous and no next statement, it is a chain of its own. *)
Definition motif_head : Node :=
  {| kind := "defmotif"; values := {[ "NAME" := Lit (LString "riff") ]};
     statements := {[ "DO" := 1%nat ]}; next := None; fields := ∅ |}.

(** The motif riff, which waits for the first beat. *)
Definition motif_graph : gmap nat Node :=
  <[ 0%nat := motif_head ]> (<[ 1%nat := wait_beat ]> ∅).

(** The definition text of the motif of [motif_graph]. *)
Definition riff_definition : string :=
  "defmotif " +:+ dq +:+ "riff" +:+ dq +:+ " do" +:+ nl +:+ "  wait_for(:beat1)" +:+ nl +:+ nl
    +:+ "end" +:+ nl.

(** A motif definition three levels deep: a [with_fx] holds a
    [play_in_key], which holds a [with_fx], whose body is the definition
    of the motif riff followed by a [stop_sound]. *)
Definition deep_motif : Node :=
  {| kind := "defmotif"; values := {[ "NAME" := Lit (LString "riff") ]};
     statements := {[ "DO" := 4%nat ]}; next := Some 5%nat; fields := ∅ |}.

Definition deep_motif_graph : gmap nat Node :=
  <[ 0%nat := {| kind := "with_fx"; values := ∅; statements := {[ "COMMANDS" := 1%nat ]};
                 next := None; fields := {[ "EFFECT" := ":echo" ]} |} ]>
  (<[ 1%nat := {| kind := "play_in_key"; values := ∅; statements := {[ "DO" := 2%nat ]};
                  next := None; fields := <[ "KEY" := "C" ]> {[ "MODE" := "Major" ]} |} ]>
  (<[ 2%nat := {| kind := "with_fx"; values := ∅; statements := {[ "COMMANDS" := 3%nat ]};
                  next := None; fields := {[ "EFFECT" := ":reverb" ]} |} ]>
  (<[ 3%nat := deep_motif ]>
  (<[ 4%nat := wait_beat ]>
  (<[ 5%nat := bare "stop_sound" ]> ∅))))).

(** A [play_in_key] whose body starts at node 1. *)
Definition scope_outer : Node :=
  {| kind := "play_in_key"; values := ∅; statements := {[ "DO" := 1%nat ]};
     next := None; fields := <[ "KEY" := "C" ]> {[ "MODE" := "Major" ]} |}.

(** An empty [play_in_key], followed by node 2. *)
Definition scope_inner : Node :=
  {| kind := "play_in_key"; values := ∅; statements := ∅;
     next := Some 2%nat; fields := <[ "KEY" := "D" ]> {[ "MODE" := "Minor" ]} |}.

(** A [play_in_key] whose body is another, empty [play_in_key] followed by
    a [wait_for]. *)
Definition nested_scope_graph : gmap nat Node :=
  <[ 0%nat := scope_outer ]> (<[ 1%nat := scope_inner ]> (<[ 2%nat := wait_beat ]> ∅)).

(** The context in which a scope-defining generator compiles its body
    when nothing was hoisted before. *)
Definition in_music_scope : GenCtx := {| context := Some ":music"; macros_ := [] |}.

(** A [play_synth] whose NOTES slot is unbound. *)
Definition incomplete_synth : Node :=
  {| kind := "play_synth"; values := {[ "BEATS" := Lit (LNumber 2) ]};
     statements := ∅; next := Some 1%nat; fields := ∅ |}.

(** [incomplete_synth] followed by a [wait_for]. *)
Definition incomplete_graph : gmap nat Node :=
  <[ 0%nat := incomplete_synth ]> (<[ 1%nat := wait_beat ]> ∅).

(** A [play_synth] whose notes are a chord that holds itself. *)
Definition self_cycle_graph : gmap nat Node :=
  <[ 0%nat := {| kind := "play_synth";
                 values := <[ "NOTES" := Ref 1%nat ]> {[ "BEATS" := Lit (LNumber 1) ]};
                 statements := ∅; next := None; fields := ∅ |} ]>
  (<[ 1%nat := {| kind := "chord"; values := {[ "Note1" := Ref 1%nat ]};
                  statements := ∅; next := None; fields := ∅ |} ]> ∅).

(** A [stop_sound] followed by a [set_tempo] whose tempo is a chord that
    holds a second chord, which holds the first. *)
Definition mutual_cycle_graph : gmap nat Node :=
  <[ 0%nat := {| kind := "stop_sound"; values := ∅; statements := ∅;
                 next := Some 1%nat; fields := ∅ |} ]>
  (<[ 1%nat := {| kind := "set_tempo"; values := {[ "TEMPO" := Ref 2%nat ]};
                  statements := ∅; next := None; fields := ∅ |} ]>
  (<[ 2%nat := {| kind := "chord"; values := {[ "Note1" := Ref 3%nat ]};
                  statements := ∅; next := None; fields := ∅ |} ]>
  (<[ 3%nat := {| kind := "premade_chord"; values := {[ "Note2" := Ref 2%nat ]};
                  statements := ∅; next := None; fields := ∅ |} ]> ∅))).

(** A value generator of a looser tier than any of music.js, whose value
    generators all return the tightest tier: the text of a sum. *)
Definition sum_generator : value_generator :=
  fun _ _ => ret ("1 + 2", 6%Z).

(** The registry of music.js with a kind for [sum_generator] added. *)
Definition sum_registry (k : string) : option value_generator :=
  if String.eqb k "sum" then Some sum_generator else lookup_value_kind k.

(** A [play_synth] whose notes are the node 1. *)
Definition sum_synth : Node :=
  {| kind := "play_synth";
     values := <[ "NOTES" := Ref 1%nat ]> {[ "BEATS" := Lit (LNumber 2) ]};
     statements := ∅; next := None; fields := ∅ |}.

(** [sum_synth] over a node of the kind of [sum_generator]. *)
Definition sum_graph : gmap nat Node :=
  <[ 0%nat := sum_synth ]> (<[ 1%nat := bare "sum" ]> ∅).

(** ** Properties of computations *)

(** [m] never exhausts the traversal budget. *)
Definition live {A : Type} (m : M A) : Prop :=
  forall st, m st <> Exhausted.

(** [m] never returns. *)
Definition doomed {A : Type} (m : M A) : Prop :=
  forall st a st', m st <> Done a st'.

(** Every fatal error of [m] satisfies [E]. *)
Definition fails_within {A : Type} (E : error -> Prop) (m : M A) : Prop :=
  forall st e, m st = Fail e -> E e.

(** [m] leaves the generation context as it found it. *)
Definition keeps_context {A : Type} (m : M A) : Prop :=
  forall st a st', m st = Done a st' -> st' = st.

(** [m] only appends to the macro accumulator. *)
Definition extends_macros {A : Type} (m : M A) : Prop :=
  forall st a st', m st = Done a st' -> exists pushed, macros_ st' = macros_ st ++ pushed.

(** [m'] behaves as [m] wherever [m] does not exhaust its budget. *)
Definition refines {A : Type} (m m' : M A) : Prop :=
  forall st, m st = Exhausted \/ m' st = m st.

(** [m] leaves the scope tag as it found it. *)
Definition keeps_tag {A : Type} (m : M A) : Prop :=
  forall st a st', m st = Done a st' -> context st' = context st.

(** [m] and [m'] do the same from every context whose scope tag is
    [tag]. *)
Definition agree_when_tagged {A : Type} (tag : string) (m m' : M A) : Prop :=
  forall st, context st = Some tag -> m st = m' st.

(** Two computations that return the same from every context. *)
Definition same {A : Type} (m m' : M A) : Prop :=
  forall st, m st = m' st.

(** Two outcomes, of runs from [s1] and from [s2], are alike: the same
    error, or the same value with the same macros pushed on what each run
    found. *)
Definition alike {A : Type} (s1 s2 : GenCtx) (o1 o2 : outcome A) : Prop :=
  match o1, o2 with
  | Done a1 t1, Done a2 t2 =>
      a1 = a2 /\
      exists pushed,
        macros_ t1 = macros_ s1 ++ pushed /\ macros_ t2 = macros_ s2 ++ pushed
  | Fail e1, Fail e2 => e1 = e2
  | Exhausted, Exhausted => True
  | _, _ => False
  end.

(** [m] reads nothing of the generation context: its runs from any two
    contexts are alike. *)
Definition oblivious {A : Type} (m : M A) : Prop :=
  forall s1 s2, alike s1 s2 (m s1) (m s2).

(** The resolver that returns [text] for the slot [slot] and is [v]
    everywhere else. *)
Definition substitute (v : Node -> string -> Z -> M string) (slot text : string)
  : Node -> string -> Z -> M string :=
  fun block name order => if String.eqb name slot then ret text else v block name order.

(** ** Shape of a graph *)

(** The slot names a kind's generator passes to [valueToCode]. *)
Definition resolved_slots (k : string) : list string :=
  default []
    (assoc k
       [ ("defmotif", ["NAME"]);
         ("play_synth", ["NOTES"; "BEATS"]);
         ("rest", ["AMOUNT"]);
         ("set_volume", ["VOLUME"]);
         ("set_tempo", ["TEMPO"]);
         ("cue", ["MOTIF"]);
         ("loop", ["MOTIF"]);
         ("sync_to_parent", ["PARENT"]);
         ("chord", ["Note1"; "Note2"; "Note3"; "Note4"]);
         ("premade_chord", ["Note1"; "Note2"; "Note3"; "Note4"]);
         ("play_chord_progression", ["NAME"]) ]).

(** The slot names a kind's generator passes to [statementToCode]. *)
Definition compiled_slots (k : string) : list string :=
  default []
    (assoc k
       [ ("defmotif", ["DO"]);
         ("play_chord_progression", ["DO"]);
         ("play_in_key", ["DO"]);
         ("with_fx", ["COMMANDS"]) ]).

(** [a] has a value-input slot bound to node [c]. *)
Definition value_ref (g : gmap nat Node) (a c : nat) : Prop :=
  exists n slot, g !! a = Some n /\ values n !! slot = Some (Ref c).

(** [a] has a value-input slot, one that its generator resolves, bound to
    node [c]. *)
Definition value_edge (g : gmap nat Node) (a c : nat) : Prop :=
  exists n slot, g !! a = Some n /\ slot ∈ resolved_slots (kind n) /\
                 values n !! slot = Some (Ref c).

(** The traversal goes from statement node [a] to statement node [b]: [b]
    is the [next] of [a] or the head of a nested chain that the generator
    of [a] compiles. *)
Definition statement_edge (g : gmap nat Node) (a b : nat) : Prop :=
  exists n, g !! a = Some n /\
            (next n = Some b \/
             exists slot, slot ∈ compiled_slots (kind n) /\ statements n !! slot = Some b).

(** Node [id] exists and its kind has a value generator. *)
Definition is_value_node (g : gmap nat Node) (id : nat) : Prop :=
  match g !! id with
  | Some n => is_Some (lookup_value_kind (kind n))
  | None => False
  end.

(** Node [id] exists and its kind has a statement generator. *)
Definition is_statement_node (g : gmap nat Node) (id : nat) : Prop :=
  match g !! id with
  | Some n => is_Some (lookup_statement_kind (kind n))
  | None => False
  end.

Definition binding_closed (g : gmap nat Node) (b : binding) : Prop :=
  match b with
  | Lit _ => True
  | Ref c => is_value_node g c
  end.

(** Every reference of [n] leads to a node of the kind of generator that
    the reference asks for. *)
Definition node_closed (g : gmap nat Node) (n : Node) : Prop :=
  map_Forall (fun _ b => binding_closed g b) (values n) /\
  map_Forall (fun _ b => is_statement_node g b) (statements n) /\
  from_option (is_statement_node g) True (next n).

(** No dangling reference and no unknown kind anywhere in [g]. *)
Definition closed (g : gmap nat Node) : Prop :=
  map_Forall (fun _ n => node_closed g n) g.

Definition binding_ranked (rank : nat -> nat) (a : nat) (b : binding) : Prop :=
  match b with
  | Lit _ => True
  | Ref c => rank c < rank a
  end.

(** [rank] decreases along every statement reference of [g]: the statement
    chains are cycle-free. *)
Definition statements_ranked (g : gmap nat Node) (rank : nat -> nat) : Prop :=
  map_Forall (fun a n =>
                map_Forall (fun _ b => rank b < rank a) (statements n) /\
                from_option (fun b => rank b < rank a) True (next n)) g.

(** [rank] decreases along every value-input reference of [g]: the value
    inputs are cycle-free. *)
Definition values_ranked (g : gmap nat Node) (rank : nat -> nat) : Prop :=
  map_Forall (fun a n => map_Forall (fun _ b => binding_ranked rank a b) (values n)) g.

(** No node of [g] is a [trigger_sample], whose generator raises. *)
Definition sample_free (g : gmap nat Node) : Prop :=
  map_Forall (fun _ n => kind n <> "trigger_sample") g.

(** The errors that name a node on a value-input cycle. *)
Definition on_cycle (g : gmap nat Node) (e : error) : Prop :=
  exists x, e = CyclicValueInput x /\ tc (value_ref g) x x.

(** The shape predicates are decidable, by evaluation. *)

#[global] Instance is_value_node_dec g id : Decision (is_value_node g id).
Proof. unfold is_value_node. destruct (g !! id); apply _. Defined.

#[global] Instance is_statement_node_dec g id : Decision (is_statement_node g id).
Proof. unfold is_statement_node. destruct (g !! id); apply _. Defined.

#[global] Instance binding_closed_dec g b : Decision (binding_closed g b).
Proof. destruct b; simpl; apply _. Defined.

#[global] Instance node_closed_dec g n : Decision (node_closed g n).
Proof. unfold node_closed. destruct (next n); simpl; apply _. Defined.

#[global] Instance closed_dec g : Decision (closed g).
Proof. unfold closed. apply _. Defined.

#[global] Instance sample_free_dec g : Decision (sample_free g).
Proof. unfold sample_free. apply _. Defined.

#[global] Instance binding_ranked_dec rank a b : Decision (binding_ranked rank a b).
Proof. destruct b; simpl; apply _. Defined.

#[global] Instance statements_ranked_dec g rank : Decision (statements_ranked g rank).
Proof.
  unfold statements_ranked. apply map_Forall_dec. intros a n.
  destruct (next n); simpl; apply _.
Defined.

#[global] Instance values_ranked_dec g rank : Decision (values_ranked g rank).
Proof. unfold values_ranked. apply _. Defined.

(** ** The claims in the words of the specification *)

(** What the [i]-th note adds to the text of a chord: nothing when its
    text is empty, else its text, after a comma when [i > 1]. *)
Definition chord_piece (i : nat) (note : string) : string :=
  if String.eqb note EmptyString then EmptyString
  else if (1 <? i)%nat then "," +:+ note
  else note.

(** The text of a chord whose four notes resolved to [n1] .. [n4]. *)
Definition chord_text (n1 n2 n3 n4 : string) : string :=
  "[" +:+ chord_piece 1 n1 +:+ chord_piece 2 n2 +:+ chord_piece 3 n3 +:+ chord_piece 4 n4 +:+ "]".

(** [pat] occurs in [s] at offset [n] and at no smaller offset. *)
Definition first_occurrence (pat s : string) (n : nat) : Prop :=
  occurs_at pat s n /\ forall m, occurs_at pat s m -> n <= m.

(** The scope-defining kinds whose generator returns to its caller. *)
Definition returning_scopes : list string :=
  [ "defmotif"; "play_chord_progression"; "play_in_key" ].

(** The values of the SAMPLE dropdown of [trigger_drum]. *)
Definition drum_samples : list string :=
  [ ":drum_bass_soft"; ":drum_snare_soft"; ":drum_tom_lo_soft"; ":drum_tom_hi_soft";
    ":drum_splash_soft"; ":drum_cymbal_soft"; ":drum_cymbal_open"; ":drum_cymbal_closed" ].

(** The values of the STYLE dropdown of [trigger_drum]. *)
Definition drum_styles : list string := [ "hard"; "soft" ].

(** The kinds whose generator sets the scope tag. *)
Definition scope_defining : list string :=
  [ "defmotif"; "play_chord_progression"; "play_in_key"; "trigger_sample" ].

(** * Further definitions: what the generators write and print *)

(** Every run of [m] from a context that satisfies [P] ends in a context
    that satisfies [P]. *)
Definition preserves {A : Type} (P : GenCtx -> Prop) (m : M A) : Prop :=
  forall st a st', P st -> m st = Done a st' -> P st'.

(** [s] ends with a line feed. *)
Definition ends_with_nl (s : string) : Prop :=
  exists line, s = line +:+ nl.

(** Every text that [m] returns ends with a line feed. *)
Definition returns_line (m : M string) : Prop :=
  forall st text st', m st = Done text st' -> ends_with_nl text.

(** [l.join(sep)] on an array of strings. *)
Fixpoint js_join (sep : string) (l : list string) : string :=
  match l with
  | [] => EmptyString
  | [x] => x
  | x :: rest => x +:+ sep +:+ js_join sep rest
  end.

(** The texts of [l] that are not empty, in order. *)
Definition non_empty (l : list string) : list string :=
  List.filter (fun s => negb (String.eqb s EmptyString)) l.

(** * Further definitions: the image field of field_image.js *)

(** [s.split(sep)] for a separator that is not empty: the pieces of [s]
    between the occurrences of [sep], found from left to right.  [piece]
    is the piece being read; [fuel] bounds the number of steps, and the
    length of [s] is enough. *)
Fixpoint js_split_from (fuel : nat) (sep s piece : string) : list string :=
  match fuel with
  | O => [piece +:+ s]
  | S fuel' =>
      match s with
      | EmptyString => [piece]
      | String c s' =>
          if String.prefix sep s
          then piece :: js_split_from fuel' sep (string_drop (String.length sep) s) EmptyString
          else js_split_from fuel' sep s' (piece +:+ String c EmptyString)
      end
  end.

(** The offset of the first occurrence of [pat] in [s], if there is one. *)
Fixpoint find_first (pat s : string) : option nat :=
  if String.prefix pat s then Some 0%nat
  else match s with
       | EmptyString => None
       | String _ s' => option_map S (find_first pat s')
       end.

Definition js_split (s sep : string) : list string :=
  js_split_from (String.length s) sep s EmptyString.

Module FieldImage.

(** The JavaScript values that reach the setters of a field: [null],
    [undefined] or a string. *)
Inductive jsval : Type :=
| JNull
| JUndefined
| JString (s : string).

(** [goog.isString(v)]. *)
Definition isString (v : jsval) : bool :=
  match v with
  | JString _ => true
  | _ => false
  end.

(** [v || ''] for such a value. *)
Definition or_empty (v : jsval) : jsval :=
  match v with
  | JString s => JString s
  | _ => JString EmptyString
  end.

(** What the [tooltip] property of an element is set to: the source block
    or a text. *)
Inductive tip : Type :=
| TipBlock (block : nat)
| TipText (text : string).

(** An SVG element, as far as the file touches it: its attributes, its
    [style.display] and its [tooltip] property. *)
Record Element : Type := mkElement {
  tag : string;
  attributes : gmap string string;
  display : option string;
  tooltip : option tip
}.

(** What the methods do to objects other than the field, in order. *)
Inductive event : Type :=
| AppendedToBlock (block : nat)
| MouseEventsBound
| ClickListenerAdded (pBlock : option nat)
| NodeRemoved.

(** The properties of an image field. *)
Record Field : Type := mkField {
  sourceBlock_ : option nat;
  height_ : Z;
  width_ : Z;
  size_ : Z * Z;
  text_ : jsval;
  src_ : jsval;
  fieldGroup_ : option Element;
  imageElement_ : option Element;
  rectElement_ : option Element;
  clickEventListener : bool;
  parentBlock : option nat
}.

Definition with_src (f : Field) (v : jsval) : Field :=
  mkField (sourceBlock_ f) (height_ f) (width_ f) (size_ f) (text_ f) v
          (fieldGroup_ f) (imageElement_ f) (rectElement_ f)
          (clickEventListener f) (parentBlock f).

Definition with_text (f : Field) (v : jsval) : Field :=
  mkField (sourceBlock_ f) (height_ f) (width_ f) (size_ f) v (src_ f)
          (fieldGroup_ f) (imageElement_ f) (rectElement_ f)
          (clickEventListener f) (parentBlock f).

Definition with_sourceBlock (f : Field) (b : option nat) : Field :=
  mkField b (height_ f) (width_ f) (size_ f) (text_ f) (src_ f)
          (fieldGroup_ f) (imageElement_ f) (rectElement_ f)
          (clickEventListener f) (parentBlock f).

Definition with_elements (f : Field) (group image rect : option Element) : Field :=
  mkField (sourceBlock_ f) (height_ f) (width_ f) (size_ f) (text_ f) (src_ f)
          group image rect (clickEventListener f) (parentBlock f).

(** [e.setAttributeNS(ns, name, value)]. *)
Definition setAttribute (e : Element) (name value : string) : Element :=
  mkElement (tag e) (<[ name := value ]> (attributes e)) (display e) (tooltip e).

(** [e.style.display = value]. *)
Definition setDisplay (e : Element) (value : string) : Element :=
  mkElement (tag e) (attributes e) (Some value) (tooltip e).

(** [e.tooltip = t]. *)
Definition setTip (e : Element) (t : tip) : Element :=
  mkElement (tag e) (attributes e) (display e) (Some t).

(** The text that [setValue] writes into the link of the image. *)
Definition href_of (src : jsval) : string :=
  match src with
  | JString s => s
  | _ => EmptyString
  end.

Section Environment.

(** [Blockly.createSvgElement(name, attrs, parent)], which is outside the
    sources; nothing is assumed of the element it returns. *)
Variable createSvgElement : string -> gmap string string -> Element.

(** [goog.userAgent.GECKO]. *)
Variable GECKO : bool.

(** [Blockly.BlockSvg.INLINE_PADDING_Y]. *)
Variable INLINE_PADDING_Y : Z.

(** The [visible_] property that the field inherits from [Blockly.Field];
    the file never writes it. *)
Variable visible_ : bool.

(** [Blockly.FieldImage.prototype.getValue]. *)
Definition getValue (f : Field) : jsval := src_ f.

(** [Blockly.FieldImage.prototype.setValue]. *)
Definition setValue (src : jsval) (f : Field) : Field :=
  match src with
  | JNull => f
  | _ =>
      let f := with_src f src in
      match imageElement_ f with
      | Some image =>
          with_elements f (fieldGroup_ f)
            (Some (setAttribute image "xlink:href" (if isString src then href_of src else EmptyString)))
            (rectElement_ f)
      | None => f
      end
  end.

(** [Blockly.FieldImage.prototype.setText]. *)
Definition setText (alt : jsval) (f : Field) : Field :=
  match alt with
  | JNull => f
  | _ => with_text f alt
  end.

(** [Blockly.FieldImage.prototype.render_]. *)
Definition render_ (f : Field) : Field := f.

(** [new Blockly.FieldImage(src, width, height, opt_alt)]. *)
Definition FieldImage (src : jsval) (width height : Z) (opt_alt : jsval) : Field :=
  setValue src
    (mkField None height width (width, height + 2 * INLINE_PADDING_Y)%Z (or_empty opt_alt)
             JUndefined None None None false None).

(** [new MyFieldImage(src, width, height, opt_alt, isClickListener, parent)]. *)
Definition MyFieldImage (src : jsval) (width height : Z) (opt_alt : jsval)
    (isClickListener : bool) (parent : option nat) : Field :=
  let f := setValue src
             (mkField None height width (width, height + 2 * INLINE_PADDING_Y)%Z
                      (or_empty opt_alt) JUndefined None None None isClickListener None) in
  mkField (sourceBlock_ f) (height_ f) (width_ f) (size_ f) (text_ f) (src_ f)
          (fieldGroup_ f) (imageElement_ f) (rectElement_ f) (clickEventListener f) parent.

(** The [height] and [width] attributes of the image and of the mask. *)
Definition size_attributes (f : Field) : gmap string string :=
  <[ "height" := js_of_Z (height_ f) +:+ "px" ]> {[ "width" := js_of_Z (width_ f) +:+ "px" ]}.

(** [Blockly.FieldImage.prototype.init]: the field and the events so far
    go in, the field and the events come out. *)
Definition init (block : nat) (w : Field * list event) : Field * list event :=
  let (f, events) := w in
  match sourceBlock_ f with
  | Some _ => w
  | None =>
      let f := with_sourceBlock f (Some block) in
      let group := createSvgElement "g" ∅ in
      let group := if negb visible_ then setDisplay group "none" else group in
      let f := with_elements f (Some group)
                 (Some (createSvgElement "image" (size_attributes f))) (rectElement_ f) in
      let f := setValue (src_ f) f in
      let f := if GECKO
               then with_elements f (fieldGroup_ f) (imageElement_ f)
                      (Some (createSvgElement "rect"
                               (<[ "fill-opacity" := "0" ]> (size_attributes f))))
               else f in
      let events := events ++ [AppendedToBlock block] in
      let f := match rectElement_ f with
               | Some rect =>
                   with_elements f (fieldGroup_ f) (imageElement_ f)
                     (Some (setTip rect (TipBlock block)))
               | None =>
                   with_elements f (fieldGroup_ f)
                     (option_map (fun image => setTip image (TipBlock block)) (imageElement_ f))
                     (rectElement_ f)
               end in
      (f, events ++ [MouseEventsBound])
  end.

(** [MyFieldImage.prototype.init]: the same steps, and then the click
    listener when the field was built with one. *)
Definition my_init (block : nat) (w : Field * list event) : Field * list event :=
  match sourceBlock_ w.1 with
  | Some _ => w
  | None =>
      let (f, events) := init block w in
      if clickEventListener f
      then (f, events ++ [ClickListenerAdded (parentBlock f)])
      else (f, events)
  end.

(** [Blockly.FieldImage.prototype.dispose]. *)
Definition dispose (w : Field * list event) : Field * list event :=
  let (f, events) := w in
  (with_elements f None None None, events ++ [NodeRemoved]).

(** [Blockly.FieldImage.prototype.setTooltip]; [None] is the [TypeError]
    of setting a property of [null] or [undefined]. *)
Definition setTooltip (newTip : tip) (f : Field) : option Field :=
  match rectElement_ f with
  | Some rect =>
      Some (with_elements f (fieldGroup_ f) (imageElement_ f) (Some (setTip rect newTip)))
  | None =>
      match imageElement_ f with
      | Some image =>
          Some (with_elements f (fieldGroup_ f) (Some (setTip image newTip)) (rectElement_ f))
      | None => None
      end
  end.

(** A call of one of the methods of a [MyFieldImage]. *)
Inductive call : Type :=
| CallInit (block : nat)
| CallDispose
| CallSetValue (src : jsval)
| CallSetText (alt : jsval)
| CallSetTooltip (newTip : tip)
| CallRender.

(** The effect of one call; a [setTooltip] that throws leaves everything
    as it was. *)
Definition step (w : Field * list event) (c : call) : Field * list event :=
  match c with
  | CallInit block => my_init block w
  | CallDispose => dispose w
  | CallSetValue src => (setValue src w.1, w.2)
  | CallSetText alt => (setText alt w.1, w.2)
  | CallSetTooltip newTip => (default w.1 (setTooltip newTip w.1), w.2)
  | CallRender => (render_ w.1, w.2)
  end.

(** The effect of a sequence of calls. *)
Definition run (calls : list call) (w : Field * list event) : Field * list event :=
  foldl step w calls.

End Environment.

(** The value that the last effective [setValue] of [calls] stores,
    [current] if there is none. *)
Fixpoint last_value (current : jsval) (calls : list call) : jsval :=
  match calls with
  | [] => current
  | CallSetValue JNull :: calls' => last_value current calls'
  | CallSetValue src :: calls' => last_value src calls'
  | _ :: calls' => last_value current calls'
  end.

(** The block of the first [init] of [calls], if any. *)
Fixpoint first_init (calls : list call) : option nat :=
  match calls with
  | [] => None
  | CallInit block :: _ => Some block
  | _ :: calls' => first_init calls'
  end.

(** The calls that follow the first [init] of [calls], if there is one. *)
Fixpoint after_first_init (calls : list call) : option (list call) :=
  match calls with
  | [] => None
  | CallInit _ :: calls' => Some calls'
  | _ :: calls' => after_first_init calls'
  end.

Definition is_dispose (c : call) : bool :=
  match c with
  | CallDispose => true
  | _ => false
  end.

(** [init] has been called, and [dispose] has not been called since the
    first [init]. *)
Definition shown (calls : list call) : bool :=
  match after_first_init calls with
  | Some later => negb (existsb is_dispose later)
  | None => false
  end.

Definition is_append (e : event) : bool :=
  match e with
  | AppendedToBlock _ => true
  | _ => false
  end.

Definition is_click_listener (e : event) : bool :=
  match e with
  | ClickListenerAdded _ => true
  | _ => false
  end.

(** The source is never [null], and the link of the image, when there is
    an image, is the source if that is a string and empty otherwise. *)
Definition synced (f : Field) : Prop :=
  src_ f <> JNull /\
  forall image, imageElement_ f = Some image ->
                attributes image !! "xlink:href" = Some (href_of (src_ f)).

(** The field has neither an image nor a mask. *)
Definition absent (f : Field) : Prop :=
  imageElement_ f = None /\ rectElement_ f = None.

(** The page around the sample block: the workspace, [selectedBlock], the
    [display] of the modal and the value of the file picker. *)
Record Page : Type := mkPage {
  workspace : gmap nat Node;
  selectedBlock : option nat;
  modal_display : string;
  picker_value : string
}.

(** [playSampleClicked(parent)], for the block with the id [parent]. *)
Definition playSampleClicked (parent : nat) (p : Page) : Page :=
  mkPage (workspace p)
         (match workspace p !! parent with Some _ => Some parent | None => None end)
         "block" (picker_value p).

(** [hideModal()]. *)
Definition hideModal (p : Page) : Page :=
  mkPage (workspace p) (selectedBlock p) "none" (picker_value p).

(** The separator of [updateSampleBlock]. *)
Definition fakepath : string := "C:\fakepath\".

(** [filePicker.value.split('C:\\fakepath\\')[1]]; [None] is [undefined]. *)
Definition picked_file_name (value : string) : option string :=
  js_split value fakepath !! 1%nat.

Section Blocks.

(** [block.setFieldValue(newValue, name)], which is outside the sources;
    [None] as the new value is [undefined]. *)
Variable setFieldValue : Node -> option string -> string -> Node.

(** [updateSampleBlock()]; [None] is the [TypeError] of calling a method
    of [null], when no block was selected. *)
Definition updateSampleBlock (p : Page) : option Page :=
  let fileName := picked_file_name (picker_value p) in
  match selectedBlock p with
  | None => None
  | Some id =>
      Some (hideModal
              (mkPage (alter (fun block => setFieldValue block fileName "NAME") id (workspace p))
                      (selectedBlock p) (modal_display p) (picker_value p)))
  end.

End Blocks.

End FieldImage.

(** ** Sending OSC messages (the Elixir module [Blockytalky.Processing]) *)

Module Processing.

(** The Elixir terms that the preparation of the arguments tells apart:
    lists, binaries, and terms that are neither. *)
#[warnings="-register-all"]
Inductive term : Type :=
| TInteger (z : Z)
| TAtom (name : string)
| TBinary (bytes : string)
| TList (items : list term).

Definition is_list (x : term) : bool :=
  match x with
  | TList _ => true
  | _ => false
  end.

(** [is_bitstring(x)]. *)
Definition is_bitstring (x : term) : bool :=
  match x with
  | TBinary _ => true
  | _ => false
  end.

(** What one element of a list contributes to [List.flatten]. *)
Fixpoint flatten_term (x : term) : list term :=
  match x with
  | TList items => flat_map flatten_term items
  | _ => [x]
  end.

(** [List.flatten(list)]. *)
Definition flatten (items : list term) : list term :=
  flat_map flatten_term items.

(** A list of integers, which is how Elixir holds a character list. *)
Definition char_list (codes : list Z) : term :=
  TList (map TInteger codes).

(** What the socket and the console see, in order. *)
Inductive effect {packet : Type} : Type :=
| Opened (port : Z) (broadcast : bool)
| Inspected (x : term)
| Sent (message : packet) (ip : string) (to_port : Z)
| Closed.
Arguments effect : clear implicits.

Section Library.

(** [String.to_char_list(x)], which is outside the sources: the code
    points of a binary, [None] where it raises. *)
Variable to_char_list : string -> option (list Z).

(** The packets of [:osc_lib] and its [encode] on [{:message, name, args}],
    which is outside the sources; [None] where it raises. *)
Variable packet : Type.
Variable encode : string -> list term -> option packet.

(** Whether [Socket.UDP.open!], which is outside the sources, returns a
    socket for the port; it raises where it does not. *)
Variable opens : Z -> bool.

(** Whether [Socket.Datagram.send], which is outside the sources, returns
    for the packet and the address, be it with an error tuple, rather than
    raise. *)
Variable send_returns : packet -> string -> Z -> bool.

(** The function that [send_osc_message] maps over the arguments. *)
Definition convert (x : term) : option term :=
  match x with
  | TBinary bytes =>
      match to_char_list bytes with
      | Some codes => Some (char_list codes)
      | None => None
      end
  | _ => Some x
  end.

(** The two bindings of [args]; [None] where [List.flatten] or
    [String.to_char_list] raises. *)
Definition prepare (params : term) : option (list term) :=
  match params with
  | TList items => mapM convert (flatten items)
  | _ => None
  end.

(** The second binding of [blah]. *)
Definition blah : term :=
  TList [ char_list [104; 105]%Z; char_list [104; 105]%Z; char_list [104; 105]%Z ].

(** [send_osc_message(ip, to_port, name, params)]: the effects up to the
    return or the exception, and whether the call returned.  Nothing
    catches an exception, so whatever raises ends the call there.
    [IO.inspect] and [Socket.close] are taken to return. *)
Definition send_osc_message (ip : string) (to_port : Z) (name : string) (params : term)
  : list (effect packet) * bool :=
  if negb (opens 9999) then ([], false)
  else
    match prepare params with
    | None => ([ Opened 9999 true ], false)
    | Some args =>
        let inspected := [ Opened 9999 true; Inspected (TList args); Inspected blah ] in
        match encode name args with
        | None => (inspected, false)
        | Some message =>
            if send_returns message ip to_port
            then (inspected ++ [ Sent message ip to_port; Closed ], true)
            else (inspected, false)
        end
    end.

End Library.

Arguments send_osc_message to_char_list {packet} encode opens send_returns
  ip to_port name params.

Definition is_sent {packet : Type} (e : effect packet) : bool :=
  match e with
  | Sent _ _ _ => true
  | _ => false
  end.

Definition is_closed {packet : Type} (e : effect packet) : bool :=
  match e with
  | Closed => true
  | _ => false
  end.

Definition is_opened {packet : Type} (e : effect packet) : bool :=
  match e with
  | Opened _ _ => true
  | _ => false
  end.

End Processing.

(** ** The blocks of music.js *)

(** What the [init] of a block declares: the names of its value inputs, of
    its statement inputs and of its fields, and which of the three
    connections it has. *)
Record BlockDefinition : Type := mkBlock {
  value_inputs : list string;
  statement_inputs : list string;
  field_names : list string;
  has_output : bool;
  has_previous : bool;
  has_next : bool
}.

(** The entries of [Blockly.Blocks], in the order of the file. *)
Definition Blocks : list (string * BlockDefinition) :=
  [ ("defmotif", mkBlock ["NAME"] ["DO"] [] false false false);
    ("play_synth", mkBlock ["NOTES"; "BEATS"] [] [] false true true);
    ("trigger_drum", mkBlock [] [] ["SAMPLE"; "STYLE"] false true true);
    ("rest", mkBlock ["AMOUNT"] [] ["UNITS"] false true true);
    ("wait_for", mkBlock [] [] ["UNITS"] false true true);
    ("set_volume", mkBlock ["VOLUME"] [] [] false true true);
    ("set_tempo", mkBlock ["TEMPO"] [] [] false true true);
    ("stop_sound", mkBlock [] [] [] false true true);
    ("cue", mkBlock ["MOTIF"] [] [] false true true);
    ("loop", mkBlock ["MOTIF"] [] [] false true true);
    ("sync_to_parent", mkBlock ["PARENT"] [] [] false true true);
    ("chord", mkBlock ["Note1"; "Note2"; "Note3"; "Note4"] [] [] true false false);
    ("premade_chord", mkBlock ["Note1"; "Note2"; "Note3"; "Note4"] [] ["NAME"] true false false);
    ("play_chord_progression", mkBlock [] ["DO"] ["NAME"] false true true);
    ("play_in_key", mkBlock [] ["DO"] ["KEY"; "MODE"] false true true);
    ("set_synth", mkBlock [] [] ["SYNTH"] false true true);
    ("with_fx", mkBlock [] ["COMMANDS"] ["EFFECT"] false true true);
    ("trigger_sample", mkBlock [] [] ["NAME"; "FILE"] false true true) ].

(** The value inputs that [def] declares resolve alike for [b] under [v]
    and for [b'] under [v']. *)
Definition agree_values (def : BlockDefinition)
    (v v' : Node -> string -> Z -> M string) (b b' : Node) : Prop :=
  forall name tier, name ∈ value_inputs def -> same (v b name tier) (v' b' name tier).

(** The same for the statement inputs that [def] declares. *)
Definition agree_statements (def : BlockDefinition)
    (s s' : Node -> string -> M string) (b b' : Node) : Prop :=
  forall name, name ∈ statement_inputs def -> same (s b name) (s' b' name).

(** [b] and [b'] hold the same value in every field that [def] declares. *)
Definition agree_fields (def : BlockDefinition) (b b' : Node) : Prop :=
  forall name, name ∈ field_names def -> getFieldValue b name = getFieldValue b' name.

(** ** Text *)

Lemma append_cons (c : ascii) (s1 s2 : string) :
  String c s1 +:+ s2 = String c (s1 +:+ s2).
Proof. reflexivity. Qed.

Lemma append_assoc (s1 s2 s3 : string) : (s1 +:+ s2) +:+ s3 = s1 +:+ s2 +:+ s3.
Proof.
  induction s1 as [| c s1 IH]; [reflexivity |].
  rewrite !append_cons, IH. reflexivity.
Qed.

Lemma append_empty_r (s : string) : s +:+ EmptyString = s.
Proof.
  induction s as [| c s IH]; [reflexivity |].
  rewrite append_cons, IH. reflexivity.
Qed.

Lemma append_empty_l (s : string) : EmptyString +:+ s = s.
Proof. reflexivity. Qed.

Lemma length_append (s1 s2 : string) :
  String.length (s1 +:+ s2) = String.length s1 + String.length s2.
Proof.
  induction s1 as [| c s1 IH]; [reflexivity |].
  rewrite append_cons. simpl. rewrite IH. reflexivity.
Qed.

Lemma prefix_empty (s : string) : String.prefix EmptyString s = true.
Proof. destruct s; reflexivity. Qed.

Lemma prefix_append (p s : string) : String.prefix p (p +:+ s) = true.
Proof.
  induction p as [| c p IH]; [apply prefix_empty |].
  rewrite append_cons. simpl. destruct (ascii_dec c c); [exact IH | contradiction].
Qed.

(** ** Closure of the properties under the monad operations *)

Section Closure.

Context {A B : Type}.

Lemma bind_Done (m : M A) (f : A -> M B) st b st' :
  bind m f st = Done b st' <-> exists a st1, m st = Done a st1 /\ f a st1 = Done b st'.
Proof.
  unfold bind. split.
  - destruct (m st) as [a st1| |]; try discriminate. intros H. exists a, st1. auto.
  - intros (a & st1 & -> & H). exact H.
Qed.

Lemma live_ret (a : A) : live (ret a).
Proof. intros st. discriminate. Qed.

Lemma live_throw (e : error) : live (@throw A e).
Proof. intros st. discriminate. Qed.

Lemma live_bind (m : M A) (f : A -> M B) :
  live m -> (forall a, live (f a)) -> live (bind m f).
Proof.
  intros Hm Hf st. unfold bind. specialize (Hm st).
  destruct (m st) as [a st1| |]; [apply Hf | discriminate | contradiction].
Qed.

Lemma live_if (b : bool) (m1 m2 : M A) : live m1 -> live m2 -> live (if b then m1 else m2).
Proof. destruct b; auto. Qed.

Lemma doomed_throw (e : error) : doomed (@throw A e).
Proof. intros st a st'. discriminate. Qed.

Lemma doomed_timeout : doomed (@exhaust A).
Proof. intros st a st'. discriminate. Qed.

Lemma doomed_bind_l (m : M A) (f : A -> M B) : doomed m -> doomed (bind m f).
Proof.
  intros Hm st b st' H. apply bind_Done in H as (a & st1 & H & _). exact (Hm _ _ _ H).
Qed.

Lemma doomed_bind_r (m : M A) (f : A -> M B) : (forall a, doomed (f a)) -> doomed (bind m f).
Proof.
  intros Hf st b st' H. apply bind_Done in H as (a & st1 & _ & H). exact (Hf _ _ _ _ H).
Qed.

Lemma fails_within_ret (E : error -> Prop) (a : A) : fails_within E (ret a).
Proof. intros st e. discriminate. Qed.

Lemma fails_within_bind (E : error -> Prop) (m : M A) (f : A -> M B) :
  fails_within E m -> (forall a, fails_within E (f a)) -> fails_within E (bind m f).
Proof.
  intros Hm Hf st e. unfold bind. specialize (Hm st).
  destruct (m st) as [a st1| e' |]; [apply Hf | | discriminate].
  intros [= <-]. auto.
Qed.

Lemma fails_within_if (E : error -> Prop) (b : bool) (m1 m2 : M A) :
  fails_within E m1 -> fails_within E m2 -> fails_within E (if b then m1 else m2).
Proof. destruct b; auto. Qed.

Lemma fails_within_weaken (E E' : error -> Prop) (m : M A) :
  (forall e, E e -> E' e) -> fails_within E m -> fails_within E' m.
Proof. intros HE Hm st e H. eauto. Qed.

Lemma keeps_context_ret (a : A) : keeps_context (ret a).
Proof. intros st a' st' [= _ <-]. reflexivity. Qed.

Lemma keeps_context_bind (m : M A) (f : A -> M B) :
  keeps_context m -> (forall a, keeps_context (f a)) -> keeps_context (bind m f).
Proof.
  intros Hm Hf st b st' H. apply bind_Done in H as (a & st1 & H1 & H2).
  apply Hm in H1 as ->. exact (Hf _ _ _ _ H2).
Qed.

Lemma keeps_context_if (b : bool) (m1 m2 : M A) :
  keeps_context m1 -> keeps_context m2 -> keeps_context (if b then m1 else m2).
Proof. destruct b; auto. Qed.

Lemma extends_macros_ret (a : A) : extends_macros (ret a).
Proof. intros st a' st' [= _ <-]. exists []. symmetry. apply app_nil_r. Qed.

Lemma extends_macros_throw (e : error) : extends_macros (@throw A e).
Proof. intros st a st'. discriminate. Qed.

Lemma extends_macros_bind (m : M A) (f : A -> M B) :
  extends_macros m -> (forall a, extends_macros (f a)) -> extends_macros (bind m f).
Proof.
  intros Hm Hf st b st' H. apply bind_Done in H as (a & st1 & H1 & H2).
  apply Hm in H1 as (p1 & E1). apply Hf in H2 as (p2 & E2).
  exists (p1 ++ p2). rewrite E2, E1. symmetry. apply app_assoc.
Qed.

Lemma extends_macros_if (b : bool) (m1 m2 : M A) :
  extends_macros m1 -> extends_macros m2 -> extends_macros (if b then m1 else m2).
Proof. destruct b; auto. Qed.

Lemma refines_refl (m : M A) : refines m m.
Proof. intros st. right. reflexivity. Qed.

Lemma refines_timeout (m : M A) : refines exhaust m.
Proof. intros st. left. reflexivity. Qed.

Lemma refines_bind (m m' : M A) (f f' : A -> M B) :
  refines m m' -> (forall a, refines (f a) (f' a)) -> refines (bind m f) (bind m' f').
Proof.
  intros Hm Hf st. unfold bind. destruct (Hm st) as [-> | ->]; [left; reflexivity |].
  destruct (m st) as [a st1| |]; [apply Hf | right; reflexivity | right; reflexivity].
Qed.

Lemma refines_if (b : bool) (m1 m1' m2 m2' : M A) :
  refines m1 m1' -> refines m2 m2' ->
  refines (if b then m1 else m2) (if b then m1' else m2').
Proof. destruct b; auto. Qed.

End Closure.

Lemma live_set_context tag : live (set_context tag).
Proof. intros st. discriminate. Qed.

Lemma live_push_macro code : live (push_macro code).
Proof. intros st. discriminate. Qed.

Lemma fails_within_set_context E tag : fails_within E (set_context tag).
Proof. intros st e. discriminate. Qed.

Lemma fails_within_push_macro E code : fails_within E (push_macro code).
Proof. intros st e. discriminate. Qed.

Lemma extends_macros_set_context tag : extends_macros (set_context tag).
Proof. intros st a st' [= _ <-]. exists []. symmetry. apply app_nil_r. Qed.

Lemma extends_macros_push_macro code : extends_macros (push_macro code).
Proof. intros st a st' [= _ <-]. exists [code]. reflexivity. Qed.

Lemma keeps_context_extends {A : Type} (m : M A) : keeps_context m -> extends_macros m.
Proof. intros H st a st' E. apply H in E as ->. exists []. symmetry. apply app_nil_r. Qed.

Lemma refines_trans {A : Type} (m1 m2 m3 : M A) :
  refines m1 m2 -> refines m2 m3 -> refines m1 m3.
Proof.
  intros H12 H23 st. destruct (H12 st) as [H | H]; [left; exact H |].
  destruct (H23 st) as [H' | H']; [left; congruence | right; congruence].
Qed.

Lemma refines_Done {A : Type} (m m' : M A) st a st' :
  refines m m' -> m st = Done a st' -> m' st = Done a st'.
Proof. intros H Hm. destruct (H st) as [H' | H']; congruence. Qed.

Lemma refines_Fail {A : Type} (m m' : M A) st e :
  refines m m' -> m st = Fail e -> m' st = Fail e.
Proof. intros H Hm. destruct (H st) as [H' | H']; congruence. Qed.

Lemma live_text_of m : live m -> live (text_of m).
Proof. intros H. apply live_bind; [exact H | intros; apply live_ret]. Qed.

Lemma fails_within_text_of E m : fails_within E m -> fails_within E (text_of m).
Proof. intros H. apply fails_within_bind; [exact H | intros; apply fails_within_ret]. Qed.

Lemma keeps_context_text_of m : keeps_context m -> keeps_context (text_of m).
Proof. intros H. apply keeps_context_bind; [exact H | intros; apply keeps_context_ret]. Qed.

Lemma refines_text_of m m' : refines m m' -> refines (text_of m) (text_of m').
Proof. intros H. apply refines_bind; [exact H | intros; apply refines_refl]. Qed.

Lemma doomed_text_of m : doomed m -> doomed (text_of m).
Proof. apply doomed_bind_l. Qed.

(** ** The generators respect the properties of their callbacks *)

Lemma assoc_In {A : Type} (k : string) (table : list (string * A)) (a : A) :
  assoc k table = Some a -> In (k, a) table.
Proof.
  induction table as [| [k' a'] table IH]; simpl; [discriminate |].
  destruct (String.eqb k k') eqn:E.
  - apply String.eqb_eq in E. intros [= ->]. left. congruence.
  - intros H. right. auto.
Qed.

Ltac unfold_generators :=
  cbv beta iota zeta delta
    [defmotif play_synth trigger_drum rest wait_for set_volume set_tempo stop_sound cue
     loop sync_to_parent chord_note chord_loop chord premade_chord play_chord_progression
     play_in_key set_synth with_fx trigger_sample fst snd];
  change ("Note" +:+ js_of_nat 1) with "Note1";
  change ("Note" +:+ js_of_nat 2) with "Note2";
  change ("Note" +:+ js_of_nat 3) with "Note3";
  change ("Note" +:+ js_of_nat 4) with "Note4".

Ltac unfold_generators_in H :=
  cbv beta iota zeta delta
    [defmotif play_synth trigger_drum rest wait_for set_volume set_tempo stop_sound cue
     loop sync_to_parent chord_note chord_loop chord premade_chord play_chord_progression
     play_in_key set_synth with_fx trigger_sample fst snd] in H;
  change ("Note" +:+ js_of_nat 1) with "Note1" in H;
  change ("Note" +:+ js_of_nat 2) with "Note2" in H;
  change ("Note" +:+ js_of_nat 3) with "Note3" in H;
  change ("Note" +:+ js_of_nat 4) with "Note4" in H.

Ltac table_cases :=
  unfold statement_kinds, value_kinds;
  repeat (apply Forall_cons; split); [.. | apply Forall_nil; exact I];
  cbv beta iota zeta delta [fst snd].

Ltac slot_cases H :=
  vm_compute in H;
  repeat (apply elem_of_cons in H; destruct H as [-> | H]);
  try (apply elem_of_nil in H; destruct H).

Create HintDb gen_live.
Create HintDb gen_fails.
Create HintDb gen_keeps.
Create HintDb gen_refines.
Create HintDb gen_extends.

#[export] Hint Resolve live_ret live_throw live_set_context live_push_macro : gen_live.
#[export] Hint Resolve fails_within_ret fails_within_set_context fails_within_push_macro : gen_fails.
#[export] Hint Resolve keeps_context_ret : gen_keeps.
#[export] Hint Resolve refines_refl : gen_refines.
#[export] Hint Resolve extends_macros_ret extends_macros_throw extends_macros_set_context
  extends_macros_push_macro : gen_extends.

Ltac solve_live :=
  repeat first [ apply live_bind; [| intro] | apply live_if | solve [auto with gen_live] ].

Ltac solve_fails :=
  repeat first [ apply fails_within_bind; [| intro] | apply fails_within_if
               | solve [auto with gen_fails] ].

Ltac solve_keeps :=
  repeat first [ apply keeps_context_bind; [| intro] | apply keeps_context_if
               | solve [auto with gen_keeps] ].

Ltac solve_refines :=
  repeat first [ apply refines_bind; [| intro] | apply refines_if
               | solve [auto with gen_refines] ].

Ltac solve_extends :=
  repeat first [ apply extends_macros_bind; [| intro] | apply extends_macros_if
               | solve [auto with gen_extends] ].

Ltac solve_doomed H :=
  first [ solve [apply H]
        | solve [apply doomed_bind_l; solve_doomed H]
        | solve [apply doomed_bind_r; intro; solve_doomed H] ].

Lemma statement_kinds_live :
  Forall (fun e : string * statement_generator =>
            forall vtc stc n,
              (forall slot tier, live (vtc n slot tier)) ->
              (forall slot, live (stc n slot)) ->
              live (e.2 vtc stc n)) statement_kinds.
Proof. table_cases; intros vtc stc n Hv Hs; unfold_generators; solve_live. Qed.

Lemma value_kinds_live :
  Forall (fun e : string * value_generator =>
            forall vtc n,
              (forall slot tier, live (vtc n slot tier)) ->
              live (e.2 vtc n)) value_kinds.
Proof. table_cases; intros vtc n Hv; unfold_generators; solve_live. Qed.

(** [trigger_sample] apart, a generator raises nothing of its own. *)
Lemma statement_kinds_fails :
  Forall (fun e : string * statement_generator =>
            e.1 <> "trigger_sample" ->
            forall E vtc stc n,
              (forall slot tier, fails_within E (vtc n slot tier)) ->
              (forall slot, fails_within E (stc n slot)) ->
              fails_within E (e.2 vtc stc n)) statement_kinds.
Proof.
  table_cases; intros Hk E vtc stc n Hv Hs; unfold_generators;
    try (destruct Hk; reflexivity); solve_fails.
Qed.

Lemma value_kinds_fails :
  Forall (fun e : string * value_generator =>
            forall E vtc n,
              (forall slot tier, fails_within E (vtc n slot tier)) ->
              fails_within E (e.2 vtc n)) value_kinds.
Proof. table_cases; intros E vtc n Hv; unfold_generators; solve_fails. Qed.

Lemma value_kinds_keep_context :
  Forall (fun e : string * value_generator =>
            forall vtc n,
              (forall slot tier, keeps_context (vtc n slot tier)) ->
              keeps_context (e.2 vtc n)) value_kinds.
Proof. table_cases; intros vtc n Hv; unfold_generators; solve_keeps. Qed.

Lemma statement_kinds_extend_macros :
  Forall (fun e : string * statement_generator =>
            forall vtc stc n,
              (forall slot tier, extends_macros (vtc n slot tier)) ->
              (forall slot, extends_macros (stc n slot)) ->
              extends_macros (e.2 vtc stc n)) statement_kinds.
Proof. table_cases; intros vtc stc n Hv Hs; unfold_generators; solve_extends. Qed.

Lemma statement_kinds_refine :
  Forall (fun e : string * statement_generator =>
            forall vtc vtc' stc stc' n,
              (forall slot tier, refines (vtc n slot tier) (vtc' n slot tier)) ->
              (forall slot, refines (stc n slot) (stc' n slot)) ->
              refines (e.2 vtc stc n) (e.2 vtc' stc' n)) statement_kinds.
Proof. table_cases; intros vtc vtc' stc stc' n Hv Hs; unfold_generators; solve_refines. Qed.

Lemma value_kinds_refine :
  Forall (fun e : string * value_generator =>
            forall vtc vtc' n,
              (forall slot tier, refines (vtc n slot tier) (vtc' n slot tier)) ->
              refines (e.2 vtc n) (e.2 vtc' n)) value_kinds.
Proof. table_cases; intros vtc vtc' n Hv; unfold_generators; solve_refines. Qed.

Lemma statement_kinds_doomed_value :
  Forall (fun e : string * statement_generator =>
            forall slot, slot ∈ resolved_slots e.1 ->
            forall vtc stc n,
              (forall tier, doomed (vtc n slot tier)) ->
              doomed (e.2 vtc stc n)) statement_kinds.
Proof.
  table_cases; intros slot Hin vtc stc n Hv; slot_cases Hin; unfold_generators;
    solve_doomed Hv.
Qed.

Lemma statement_kinds_doomed_statement :
  Forall (fun e : string * statement_generator =>
            forall slot, slot ∈ compiled_slots e.1 ->
            forall vtc stc n,
              doomed (stc n slot) ->
              doomed (e.2 vtc stc n)) statement_kinds.
Proof.
  table_cases; intros slot Hin vtc stc n Hs; slot_cases Hin; unfold_generators;
    solve_doomed Hs.
Qed.

Lemma value_kinds_doomed_value :
  Forall (fun e : string * value_generator =>
            forall slot, slot ∈ resolved_slots e.1 ->
            forall vtc n,
              (forall tier, doomed (vtc n slot tier)) ->
              doomed (e.2 vtc n)) value_kinds.
Proof.
  table_cases; intros slot Hin vtc n Hv; slot_cases Hin; unfold_generators;
    solve_doomed Hv.
Qed.

(** Use of a table lemma at a kind that was looked up. *)
Lemma table_lookup {A : Type} (P : string * A -> Prop) (table : list (string * A)) k a :
  Forall P table -> assoc k table = Some a -> P (k, a).
Proof.
  intros HF Hk. apply assoc_In in Hk. rewrite Forall_forall in HF. apply HF.
  apply list_elem_of_In. exact Hk.
Qed.

(** ** The hoisting controller respects the properties of the generator *)

Lemma hoistingController_live k m : live m -> live (hoistingController k m).
Proof.
  intros H. unfold hoistingController. destruct (String.eqb k "defmotif"); [| exact H].
  apply live_bind; [exact H | intros; apply live_ret].
Qed.

Lemma hoistingController_fails E k m :
  fails_within E m -> fails_within E (hoistingController k m).
Proof.
  intros H. unfold hoistingController. destruct (String.eqb k "defmotif"); [| exact H].
  apply fails_within_bind; [exact H | intros; apply fails_within_ret].
Qed.

Lemma hoistingController_extends k m :
  extends_macros m -> extends_macros (hoistingController k m).
Proof.
  intros H. unfold hoistingController. destruct (String.eqb k "defmotif"); [| exact H].
  apply extends_macros_bind; [exact H | intros; apply extends_macros_ret].
Qed.

Lemma hoistingController_refines k m m' :
  refines m m' -> refines (hoistingController k m) (hoistingController k m').
Proof.
  intros H. unfold hoistingController. destruct (String.eqb k "defmotif"); [| exact H].
  apply refines_bind; [exact H | intros; apply refines_refl].
Qed.

Lemma hoistingController_doomed k m : doomed m -> doomed (hoistingController k m).
Proof.
  intros H. unfold hoistingController. destruct (String.eqb k "defmotif"); [| exact H].
  apply doomed_bind_l. exact H.
Qed.

(** What the chain compiler receives when the controller returns. *)
Lemma hoistingController_Done k m st text st' :
  hoistingController k m st = Done text st' <->
  exists generated,
    m st = Done generated st' /\
    text = (if String.eqb k "defmotif" then EmptyString else generated).
Proof.
  unfold hoistingController. destruct (String.eqb k "defmotif").
  - unfold bind, ret. split.
    + destruct (m st) as [generated s | |]; try discriminate.
      intros [= <- <-]. eauto.
    + intros (generated & -> & ->). reflexivity.
  - split; [eauto | intros (generated & -> & ->); reflexivity].
Qed.

(** ** The traversal, one step at a time *)

Lemma resolveValue_unfold fuel g stack node slotName consumerTier :
  resolveValue fuel g stack node slotName consumerTier =
  match values node !! slotName with
  | None =>
      match slot_default (kind node) slotName with
      | Some l => ret (render_literal l, ORDER_ATOMIC)
      | None => ret (EmptyString, ORDER_ATOMIC)
      end
  | Some (Lit l) => ret (render_literal l, ORDER_ATOMIC)
  | Some (Ref c) =>
      if bool_decide (c ∈ stack) then throw (CyclicValueInput c)
      else
        match g !! c with
        | None => throw (DanglingReference c)
        | Some child =>
            match lookup_value_kind (kind child) with
            | None => throw (UnknownKind c (kind child))
            | Some generate =>
                match fuel with
                | O => exhaust
                | S fuel' =>
                    r <- generate
                           (fun block name order =>
                              text_of (resolveValue fuel' g (c :: stack) block name order))
                           child ;;
                    if (consumerTier <? r.2)%Z
                    then ret ("(" +:+ r.1 +:+ ")", r.2)
                    else ret r
                end
            end
        end
  end.
Proof. unfold resolveValue. destruct fuel; reflexivity. Qed.

Lemma compileChain_unfold fuel g firstNodeId :
  compileChain (S fuel) g firstNodeId =
  match g !! firstNodeId with
  | None => throw (DanglingReference firstNodeId)
  | Some node =>
      match lookup_statement_kind (kind node) with
      | None => throw (UnknownKind firstNodeId (kind node))
      | Some generate =>
          text <- hoistingController (kind node)
                    (generate (valueToCode fuel g firstNodeId)
                              (nested (compileChain fuel g)) node) ;;
          match next node with
          | None => ret text
          | Some following => rest <- compileChain fuel g following ;; ret (text +:+ rest)
          end
      end
  end.
Proof. reflexivity. Qed.

(** Value-input resolution never changes the generation context. *)
Lemma resolveValue_keeps_context g fuel :
  forall stack node slotName consumerTier,
    keeps_context (resolveValue fuel g stack node slotName consumerTier).
Proof.
  induction fuel as [| fuel IH]; intros stack node slotName consumerTier;
    rewrite resolveValue_unfold;
    destruct (values node !! slotName) as [[l | c] |]; simpl;
    try apply keeps_context_ret.
  all: destruct (bool_decide (c ∈ stack)); [intros st a st'; discriminate |].
  all: destruct (g !! c) as [child |]; [| intros st a st'; discriminate].
  all: destruct (lookup_value_kind (kind child)) as [generate |] eqn:Hk;
    [| intros st a st'; discriminate].
  - intros st a st'; discriminate.
  - apply keeps_context_bind.
    + apply (table_lookup _ _ _ _ value_kinds_keep_context Hk).
      intros; apply keeps_context_text_of, IH.
    + intros r. apply keeps_context_if; apply keeps_context_ret.
Qed.

(** ** More budget never changes a result *)

Lemma resolveValue_refines_S g fuel :
  forall stack node slotName consumerTier,
    refines (resolveValue fuel g stack node slotName consumerTier)
            (resolveValue (S fuel) g stack node slotName consumerTier).
Proof.
  induction fuel as [| fuel IH]; intros stack node slotName consumerTier;
    rewrite (resolveValue_unfold (S _)); rewrite (resolveValue_unfold _);
    destruct (values node !! slotName) as [[l | c] |]; try apply refines_refl.
  all: destruct (bool_decide (c ∈ stack)); [apply refines_refl |].
  all: destruct (g !! c) as [child |]; [| apply refines_refl].
  all: destruct (lookup_value_kind (kind child)) as [generate |] eqn:Hk;
    [| apply refines_refl].
  - apply refines_timeout.
  - apply refines_bind; [| intros r; apply refines_refl].
    apply (table_lookup _ _ _ _ value_kinds_refine Hk).
    intros; apply refines_text_of, IH.
Qed.

Lemma nested_refines (chain chain' : nat -> M string) block name :
  (forall id, refines (chain id) (chain' id)) ->
  refines (nested chain block name) (nested chain' block name).
Proof.
  intros H. unfold nested. destruct (statements block !! name); [| apply refines_refl].
  apply refines_bind; [apply H | intros; apply refines_refl].
Qed.

Lemma compileChain_refines_S g fuel :
  forall id, refines (compileChain fuel g id) (compileChain (S fuel) g id).
Proof.
  induction fuel as [| fuel IH]; intros id; [apply refines_timeout |].
  rewrite (compileChain_unfold (S fuel)), (compileChain_unfold fuel).
  destruct (g !! id) as [node |]; [| apply refines_refl].
  destruct (lookup_statement_kind (kind node)) as [generate |] eqn:Hk; [| apply refines_refl].
  apply refines_bind.
  - apply hoistingController_refines, (table_lookup _ _ _ _ statement_kinds_refine Hk).
    + intros; apply refines_text_of, resolveValue_refines_S.
    + intros; apply nested_refines, IH.
  - intros text. destruct (next node); [| apply refines_refl].
    apply refines_bind; [apply IH | intros; apply refines_refl].
Qed.

Lemma compileChain_refines g fuel fuel' id :
  fuel <= fuel' -> refines (compileChain fuel g id) (compileChain fuel' g id).
Proof.
  induction 1 as [| fuel' _ IH]; [apply refines_refl |].
  eapply refines_trans; [exact IH | apply compileChain_refines_S].
Qed.

Lemma compile_refines g fuel fuel' root :
  fuel <= fuel' -> refines (compile fuel g root) (compile fuel' g root).
Proof.
  intros Hle st. unfold compile.
  destruct (compileChain_refines g fuel fuel' root Hle fresh_context) as [-> | ->];
    [left | right]; reflexivity.
Qed.

(** ** Reading the shape of a graph *)

Lemma closed_value g a n slot c :
  closed g -> g !! a = Some n -> values n !! slot = Some (Ref c) -> is_value_node g c.
Proof.
  intros Hc Ha Hv. apply (map_Forall_lookup_1 _ _ _ _ Hc) in Ha as (H & _ & _).
  exact (map_Forall_lookup_1 _ _ _ _ H Hv).
Qed.

Lemma closed_statement g a n slot b :
  closed g -> g !! a = Some n -> statements n !! slot = Some b -> is_statement_node g b.
Proof.
  intros Hc Ha Hs. apply (map_Forall_lookup_1 _ _ _ _ Hc) in Ha as (_ & H & _).
  exact (map_Forall_lookup_1 _ _ _ _ H Hs).
Qed.

Lemma closed_next g a n b :
  closed g -> g !! a = Some n -> next n = Some b -> is_statement_node g b.
Proof.
  intros Hc Ha Hn. apply (map_Forall_lookup_1 _ _ _ _ Hc) in Ha as (_ & _ & H).
  rewrite Hn in H. exact H.
Qed.

Lemma ranked_statement g rank a n slot b :
  statements_ranked g rank -> g !! a = Some n -> statements n !! slot = Some b ->
  rank b < rank a.
Proof.
  intros Hr Ha Hs. apply (map_Forall_lookup_1 _ _ _ _ Hr) in Ha as (H & _).
  exact (map_Forall_lookup_1 _ _ _ _ H Hs).
Qed.

Lemma ranked_next g rank a n b :
  statements_ranked g rank -> g !! a = Some n -> next n = Some b -> rank b < rank a.
Proof.
  intros Hr Ha Hn. apply (map_Forall_lookup_1 _ _ _ _ Hr) in Ha as (_ & H).
  rewrite Hn in H. exact H.
Qed.

Lemma ranked_value_ref g rank a c :
  values_ranked g rank -> value_ref g a c -> rank c < rank a.
Proof.
  intros Hr (n & slot & Ha & Hv). apply (map_Forall_lookup_1 _ _ _ _ Hr) in Ha.
  exact (map_Forall_lookup_1 _ _ _ _ Ha Hv).
Qed.

Lemma ranked_value_path g rank a c :
  values_ranked g rank -> tc (value_ref g) a c -> rank c < rank a.
Proof.
  intros Hr. induction 1 as [a c H | a b c H _ IH].
  - exact (ranked_value_ref _ _ _ _ Hr H).
  - pose proof (ranked_value_ref _ _ _ _ Hr H). lia.
Qed.

Lemma value_edge_ref g a c : value_edge g a c -> value_ref g a c.
Proof. intros (n & slot & Ha & _ & Hv). exists n, slot. auto. Qed.

(** ** Budget: a bound under which the traversal never runs out *)

Lemma unvisited_elem (g : gmap nat Node) (stack : list nat) c child :
  g !! c = Some child -> c ∉ stack -> c ∈ dom g ∖ list_to_set (C:=gset nat) stack.
Proof.
  intros Hc Hn. apply elem_of_difference. split; [apply elem_of_dom; eauto |].
  rewrite elem_of_list_to_set. exact Hn.
Qed.

Lemma unvisited_shrinks (g : gmap nat Node) (stack : list nat) c child fuel :
  g !! c = Some child -> c ∉ stack ->
  size (dom g ∖ list_to_set (C:=gset nat) stack) <= S fuel ->
  size (dom g ∖ list_to_set (C:=gset nat) (c :: stack)) <= fuel.
Proof.
  intros Hc Hn Hsize. pose proof (unvisited_elem g stack c child Hc Hn) as Hin.
  assert (dom g ∖ list_to_set (C:=gset nat) (c :: stack)
            ⊂ dom g ∖ list_to_set (C:=gset nat) stack) as Hsub.
  { split.
    - intros x Hx. apply elem_of_difference in Hx as [Hd Hx].
      apply elem_of_difference. split; [exact Hd |].
      intros Hs. apply Hx. rewrite elem_of_list_to_set in *.
      apply elem_of_cons. right. exact Hs.
    - intros Hsup. apply Hsup in Hin. apply elem_of_difference in Hin as [_ Hin].
      apply Hin. rewrite elem_of_list_to_set. apply elem_of_cons. left. reflexivity. }
  apply subset_size in Hsub. lia.
Qed.

Lemma unvisited_positive (g : gmap nat Node) (stack : list nat) c child :
  g !! c = Some child -> c ∉ stack ->
  0 < size (dom g ∖ list_to_set (C:=gset nat) stack).
Proof.
  intros Hc Hn. pose proof (unvisited_elem g stack c child Hc Hn) as Hin.
  destruct (size (dom g ∖ list_to_set (C:=gset nat) stack)) eqn:E; [| lia].
  apply size_empty_inv in E. apply E in Hin. destruct (not_elem_of_empty (C:=gset nat) _ Hin).
Qed.

(** Resolution pushes each node at most once, so its depth is bounded by
    the number of nodes that are not on the stack. *)
Lemma resolveValue_live g fuel :
  forall stack node slotName consumerTier,
    size (dom g ∖ list_to_set (C:=gset nat) stack) <= fuel ->
    live (resolveValue fuel g stack node slotName consumerTier).
Proof.
  induction fuel as [| fuel IH]; intros stack node slotName consumerTier Hsize;
    rewrite resolveValue_unfold;
    destruct (values node !! slotName) as [[l | c] |]; simpl; try apply live_ret.
  all: destruct (bool_decide (c ∈ stack)) eqn:Hin; [apply live_throw |].
  all: apply bool_decide_eq_false in Hin.
  all: destruct (g !! c) as [child |] eqn:Hc; [| apply live_throw].
  all: destruct (lookup_value_kind (kind child)) as [generate |] eqn:Hk; [| apply live_throw].
  - pose proof (unvisited_positive _ _ _ _ Hc Hin). lia.
  - apply live_bind.
    + apply (table_lookup _ _ _ _ value_kinds_live Hk). intros. apply live_text_of, IH.
      eapply unvisited_shrinks; eauto.
    + intros r. apply live_if; apply live_ret.
Qed.

Lemma nested_live (chain : nat -> M string) block name :
  (forall first, statements block !! name = Some first -> live (chain first)) ->
  live (nested chain block name).
Proof.
  intros H. unfold nested. destruct (statements block !! name) as [first |]; [| apply live_ret].
  apply live_bind; [apply H; reflexivity | intros; apply live_ret].
Qed.

Lemma compileChain_live g rank :
  statements_ranked g rank ->
  forall fuel id, rank id + size g < fuel -> live (compileChain fuel g id).
Proof.
  intros Hr. induction fuel as [| fuel IH]; intros id Hfuel; [lia |].
  rewrite compileChain_unfold.
  destruct (g !! id) as [node |] eqn:Hid; [| apply live_throw].
  destruct (lookup_statement_kind (kind node)) as [generate |] eqn:Hk; [| apply live_throw].
  apply live_bind.
  - apply hoistingController_live, (table_lookup _ _ _ _ statement_kinds_live Hk).
    + intros. apply live_text_of, resolveValue_live.
      etrans; [apply subseteq_size; apply subseteq_difference_l; reflexivity |].
      rewrite size_dom. lia.
    + intros slot. apply nested_live. intros first Hs. apply IH.
      pose proof (ranked_statement _ _ _ _ _ _ Hr Hid Hs). lia.
  - intros text. destruct (next node) as [following |] eqn:Hn; [| apply live_ret].
    apply live_bind; [| intros; apply live_ret].
    apply IH. pose proof (ranked_next _ _ _ _ _ Hr Hid Hn). lia.
Qed.

(** ** Errors: in a closed graph only cycles are reported, and only real ones *)

Lemma resolveValue_fails g :
  closed g ->
  forall fuel stack a node slotName consumerTier,
    g !! a = Some node ->
    fails_within
      (fun e => exists x, e = CyclicValueInput x /\ tc (value_ref g) a x /\
                          (x ∈ stack \/ tc (value_ref g) x x))
      (resolveValue fuel g stack node slotName consumerTier).
Proof.
  intros Hclosed.
  induction fuel as [| fuel IH]; intros stack a node slotName consumerTier Ha;
    rewrite resolveValue_unfold;
    destruct (values node !! slotName) as [[l | c] |] eqn:Hv; simpl;
    try apply fails_within_ret.
  all: assert (value_ref g a c) as Hac by (exists node, slotName; auto).
  all: destruct (bool_decide (c ∈ stack)) eqn:Hin;
    [ apply bool_decide_eq_true in Hin; intros st e [= <-]; exists c;
      split; [reflexivity | split; [apply tc_once; exact Hac | left; exact Hin]] |].
  all: pose proof (closed_value _ _ _ _ _ Hclosed Ha Hv) as Hcv; unfold is_value_node in Hcv.
  all: destruct (g !! c) as [child |] eqn:Hc; [| contradiction].
  all: destruct (lookup_value_kind (kind child)) as [generate |] eqn:Hk;
    [| destruct Hcv; discriminate].
  - intros st e; discriminate.
  - apply fails_within_bind.
    + apply (table_lookup _ _ _ _ value_kinds_fails Hk). intros slot tier.
      apply fails_within_text_of.
      eapply fails_within_weaken; [| apply (IH (c :: stack) c child slot tier Hc)].
      intros e (x & -> & Hcx & Hx). exists x. split; [reflexivity |].
      split; [eapply tc_l; eauto |].
      destruct Hx as [Hx | Hx]; [| right; exact Hx].
      apply elem_of_cons in Hx as [-> | Hx]; [right; exact Hcx | left; exact Hx].
    + intros r. apply fails_within_if; apply fails_within_ret.
Qed.

Lemma nested_fails E (chain : nat -> M string) block name :
  (forall first, statements block !! name = Some first -> fails_within E (chain first)) ->
  fails_within E (nested chain block name).
Proof.
  intros H. unfold nested.
  destruct (statements block !! name) as [first |]; [| apply fails_within_ret].
  apply fails_within_bind; [apply H; reflexivity | intros; apply fails_within_ret].
Qed.

Lemma compileChain_fails g :
  closed g -> sample_free g ->
  forall fuel id, is_statement_node g id -> fails_within (on_cycle g) (compileChain fuel g id).
Proof.
  intros Hclosed Hfree.
  induction fuel as [| fuel IH]; intros id Hid; [intros st e; discriminate |].
  rewrite compileChain_unfold. unfold is_statement_node in Hid.
  destruct (g !! id) as [node |] eqn:Hg; [| contradiction].
  destruct (lookup_statement_kind (kind node)) as [generate |] eqn:Hk;
    [| destruct Hid; discriminate].
  apply fails_within_bind.
  - apply hoistingController_fails.
    apply (table_lookup _ _ _ _ statement_kinds_fails Hk);
      [exact (map_Forall_lookup_1 _ _ _ _ Hfree Hg) | |].
    + intros slot tier.
      apply fails_within_text_of.
      eapply fails_within_weaken;
        [| apply (resolveValue_fails g Hclosed fuel [id] id node slot tier Hg)].
      intros e (x & -> & Hpath & Hx). exists x. split; [reflexivity |].
      destruct Hx as [Hx | Hx]; [| exact Hx].
      apply list_elem_of_singleton in Hx as ->. exact Hpath.
    + intros slot. apply nested_fails. intros first Hs. apply IH.
      exact (closed_statement _ _ _ _ _ Hclosed Hg Hs).
  - intros text. destruct (next node) as [following |] eqn:Hn; [| apply fails_within_ret].
    apply fails_within_bind; [| intros; apply fails_within_ret].
    apply IH. exact (closed_next _ _ _ _ Hclosed Hg Hn).
Qed.

(** ** Cycles: a chain that reaches one never returns *)

(** A reference into a path that leads back onto the stack. *)
Lemma resolveValue_doomed_stack g t c :
  rtc (value_edge g) c t ->
  forall fuel stack node slotName consumerTier,
    t ∈ stack -> values node !! slotName = Some (Ref c) ->
    doomed (resolveValue fuel g stack node slotName consumerTier).
Proof.
  intros Hpath. revert c Hpath. apply (rtc_ind_l (fun c => forall fuel stack node slotName consumerTier,
    t ∈ stack -> values node !! slotName = Some (Ref c) ->
    doomed (resolveValue fuel g stack node slotName consumerTier))).
  - intros fuel stack node slotName consumerTier Hin Hv.
    rewrite resolveValue_unfold, Hv. rewrite bool_decide_eq_true_2 by exact Hin.
    apply doomed_throw.
  - intros c c' (cn & slot' & Hc & Hslot & Hv') _ IH fuel stack node slotName consumerTier Hin Hv.
    rewrite resolveValue_unfold, Hv.
    destruct (bool_decide (c ∈ stack)); [apply doomed_throw |].
    rewrite Hc.
    destruct (lookup_value_kind (kind cn)) as [generate |] eqn:Hk; [| apply doomed_throw].
    destruct fuel as [| fuel]; [apply doomed_timeout |].
    apply doomed_bind_l.
    apply (table_lookup _ _ _ _ value_kinds_doomed_value Hk slot' Hslot).
    intros tier. apply doomed_text_of, IH; [apply elem_of_cons; right; exact Hin | exact Hv'].
Qed.

(** A reference to a node that lies on a cycle. *)
Lemma resolveValue_doomed_cycle g c :
  tc (value_edge g) c c ->
  forall fuel stack node slotName consumerTier,
    values node !! slotName = Some (Ref c) ->
    doomed (resolveValue fuel g stack node slotName consumerTier).
Proof.
  intros Hcycle fuel stack node slotName consumerTier Hv.
  destruct (decide (c ∈ stack)) as [Hin | Hout].
  { apply (resolveValue_doomed_stack g c c); [apply rtc_refl | exact Hin | exact Hv]. }
  assert (exists c', value_edge g c c' /\ rtc (value_edge g) c' c) as (c' & Hstep & Hback).
  { inversion Hcycle as [? ? H | ? c' ? H Hrest]; subst.
    - exists c. split; [exact H | apply rtc_refl].
    - exists c'. split; [exact H | apply tc_rtc; exact Hrest]. }
  destruct Hstep as (cn & slot' & Hc & Hslot & Hv').
  rewrite resolveValue_unfold, Hv. rewrite bool_decide_eq_false_2 by exact Hout.
  rewrite Hc.
  destruct (lookup_value_kind (kind cn)) as [generate |] eqn:Hk; [| apply doomed_throw].
  destruct fuel as [| fuel]; [apply doomed_timeout |].
  apply doomed_bind_l.
  apply (table_lookup _ _ _ _ value_kinds_doomed_value Hk slot' Hslot).
  intros tier. apply doomed_text_of, (resolveValue_doomed_stack g c c' Hback);
    [apply elem_of_cons; left; reflexivity | exact Hv'].
Qed.

(** A reference to a node from which a cycle can be reached. *)
Lemma resolveValue_doomed_reach g d c :
  tc (value_edge g) d d ->
  rtc (value_edge g) c d ->
  forall fuel stack node slotName consumerTier,
    values node !! slotName = Some (Ref c) ->
    doomed (resolveValue fuel g stack node slotName consumerTier).
Proof.
  intros Hcycle Hpath. revert c Hpath.
  apply (rtc_ind_l (fun c => forall fuel stack node slotName consumerTier,
    values node !! slotName = Some (Ref c) ->
    doomed (resolveValue fuel g stack node slotName consumerTier))).
  - apply resolveValue_doomed_cycle. exact Hcycle.
  - intros c c' (cn & slot' & Hc & Hslot & Hv') _ IH fuel stack node slotName consumerTier Hv.
    rewrite resolveValue_unfold, Hv.
    destruct (bool_decide (c ∈ stack)); [apply doomed_throw |].
    rewrite Hc.
    destruct (lookup_value_kind (kind cn)) as [generate |] eqn:Hk; [| apply doomed_throw].
    destruct fuel as [| fuel]; [apply doomed_timeout |].
    apply doomed_bind_l.
    apply (table_lookup _ _ _ _ value_kinds_doomed_value Hk slot' Hslot).
    intros tier. apply doomed_text_of, IH. exact Hv'.
Qed.

(** The statement node [a] resolves a value input from which a cycle can
    be reached, or lies on a cycle itself. *)
Lemma compileChain_doomed_here g a d :
  rtc (value_edge g) a d -> tc (value_edge g) d d ->
  forall fuel, doomed (compileChain fuel g a).
Proof.
  intros Hpath Hcycle fuel.
  assert (exists c, value_edge g a c /\
            (rtc (value_edge g) c a \/ (rtc (value_edge g) c d))) as (c & Hstep & Hc).
  { apply rtc_inv in Hpath as [-> | (c & H & Hrest)].
    - inversion Hcycle as [? ? H | ? c ? H Hrest]; subst.
      + exists d. split; [exact H | left; apply rtc_refl].
      + exists c. split; [exact H | left; apply tc_rtc; exact Hrest].
    - exists c. split; [exact H | right; exact Hrest]. }
  destruct Hstep as (node & slot & Ha & Hslot & Hv).
  destruct fuel as [| fuel]; [apply doomed_timeout |].
  rewrite compileChain_unfold, Ha.
  destruct (lookup_statement_kind (kind node)) as [generate |] eqn:Hk; [| apply doomed_throw].
  apply doomed_bind_l, hoistingController_doomed.
  apply (table_lookup _ _ _ _ statement_kinds_doomed_value Hk slot Hslot).
  intros tier. apply doomed_text_of. destruct Hc as [Hback | Hreach].
  - apply (resolveValue_doomed_stack g a c Hback);
      [apply list_elem_of_singleton; reflexivity | exact Hv].
  - apply (resolveValue_doomed_reach g d c Hcycle Hreach). exact Hv.
Qed.

(** A chain that the traversal enters from [a] never returns: neither does
    the chain of [a]. *)
Lemma compileChain_doomed_step g a b :
  statement_edge g a b ->
  (forall fuel, doomed (compileChain fuel g b)) ->
  forall fuel, doomed (compileChain fuel g a).
Proof.
  intros (node & Ha & Hedge) Hb fuel.
  destruct fuel as [| fuel]; [apply doomed_timeout |].
  rewrite compileChain_unfold, Ha.
  destruct (lookup_statement_kind (kind node)) as [generate |] eqn:Hk; [| apply doomed_throw].
  destruct Hedge as [Hn | (slot & Hslot & Hs)].
  - apply doomed_bind_r. intros text. rewrite Hn. apply doomed_bind_l. apply Hb.
  - apply doomed_bind_l, hoistingController_doomed.
    apply (table_lookup _ _ _ _ statement_kinds_doomed_statement Hk slot Hslot).
    unfold nested. rewrite Hs. apply doomed_bind_l. apply Hb.
Qed.

Lemma compileChain_doomed g root a d :
  rtc (statement_edge g) root a ->
  rtc (value_edge g) a d -> tc (value_edge g) d d ->
  forall fuel, doomed (compileChain fuel g root).
Proof.
  intros Hvisit Hpath Hcycle. revert root Hvisit.
  apply (rtc_ind_l (fun r => forall fuel, doomed (compileChain fuel g r))).
  - exact (compileChain_doomed_here g a d Hpath Hcycle).
  - intros r b Hedge _ IH. exact (compileChain_doomed_step g r b Hedge IH).
Qed.

(** ** The macro accumulator only grows *)

Lemma valueToCode_keeps_context fuel g id block name order :
  keeps_context (valueToCode fuel g id block name order).
Proof. apply keeps_context_text_of, resolveValue_keeps_context. Qed.

Lemma nested_extends_macros (chain : nat -> M string) block name :
  (forall first, extends_macros (chain first)) -> extends_macros (nested chain block name).
Proof.
  intros H. unfold nested. destruct (statements block !! name); [| apply extends_macros_ret].
  apply extends_macros_bind; [apply H | intros; apply extends_macros_ret].
Qed.

Lemma compileChain_extends_macros g fuel :
  forall id, extends_macros (compileChain fuel g id).
Proof.
  induction fuel as [| fuel IH]; intros id; [intros st a st'; discriminate |].
  rewrite compileChain_unfold.
  destruct (g !! id) as [node |]; [| intros st a st'; discriminate].
  destruct (lookup_statement_kind (kind node)) as [generate |] eqn:Hk;
    [| intros st a st'; discriminate].
  apply extends_macros_bind.
  - apply hoistingController_extends, (table_lookup _ _ _ _ statement_kinds_extend_macros Hk).
    + intros. apply keeps_context_extends, valueToCode_keeps_context.
    + intros. apply nested_extends_macros, IH.
  - intros text. destruct (next node); [| apply extends_macros_ret].
    apply extends_macros_bind; [apply IH | intros; apply extends_macros_ret].
Qed.

(** ** Reading a finished run backwards *)

Lemma ret_Done {A : Type} (a b : A) st st' : ret a st = Done b st' -> b = a /\ st' = st.
Proof. intros [= -> ->]. auto. Qed.

Lemma set_context_Done tag st u st' :
  set_context tag st = Done u st' -> st' = {| context := tag; macros_ := macros_ st |}.
Proof. intros [= _ <-]. reflexivity. Qed.

Lemma push_macro_Done code st u st' :
  push_macro code st = Done u st' ->
  st' = {| context := context st; macros_ := macros_ st ++ [code] |}.
Proof. intros [= _ <-]. reflexivity. Qed.

Ltac invert_run :=
  repeat match goal with
         | H : bind _ _ _ = Done _ _ |- _ =>
             apply bind_Done in H; destruct H as (? & ? & ? & H)
         | H : ret _ _ = Done _ _ |- _ => apply ret_Done in H; destruct H as [? ?]; subst
         | H : set_context _ _ = Done _ _ |- _ => apply set_context_Done in H; subst
         | H : push_macro _ _ = Done _ _ |- _ => apply push_macro_Done in H; subst
         end.

Lemma macro_section_app l1 l2 :
  macro_section (l1 ++ l2) = macro_section l1 +:+ macro_section l2.
Proof.
  induction l1 as [| x l1 IH]; simpl; [reflexivity |].
  rewrite IH. symmetry. apply append_assoc.
Qed.

Lemma lookup_defmotif : lookup_statement_kind "defmotif" = Some defmotif.
Proof. reflexivity. Qed.

Lemma assemble_cons m macros body :
  assemble (m :: macros) body = macro_section (m :: macros) +:+ nl +:+ body.
Proof. reflexivity. Qed.

Lemma assemble_app_cons before m after body :
  assemble (before ++ m :: after) body =
  macro_section before +:+ m +:+ macro_section after +:+ nl +:+ body.
Proof.
  destruct before as [| b before]; simpl app.
  - rewrite assemble_cons. simpl. rewrite !append_assoc. reflexivity.
  - rewrite assemble_cons. change (b :: before ++ m :: after) with ((b :: before) ++ m :: after).
    rewrite macro_section_app. simpl. rewrite !append_assoc. reflexivity.
Qed.

(** ** Well-formed graphs compile *)

Lemma is_statement_node_lookup g id node generate :
  g !! id = Some node -> lookup_statement_kind (kind node) = Some generate ->
  is_statement_node g id.
Proof. intros Hg Hk. unfold is_statement_node. rewrite Hg, Hk. eauto. Qed.

(** A chain of a graph without dangling references, unknown kinds,
    cycles and [trigger_sample] nodes compiles to text from every context,
    whatever slots it leaves unbound. *)
Lemma compileChain_total g rank id :
  closed g -> sample_free g -> is_statement_node g id ->
  statements_ranked g rank -> values_ranked g rank ->
  forall fuel st, rank id + size g < fuel ->
                  exists body st', compileChain fuel g id st = Done body st'.
Proof.
  intros Hclosed Hfree Hid Hs Hv fuel st Hfuel.
  destruct (compileChain fuel g id st) as [body st' | e |] eqn:Hrun.
  - eauto.
  - apply (compileChain_fails g Hclosed Hfree fuel id Hid) in Hrun as (x & _ & Hcycle).
    pose proof (ranked_value_path _ _ _ _ Hv Hcycle). lia.
  - destruct (compileChain_live g rank Hs fuel id Hfuel _ Hrun).
Qed.

Lemma compile_total g rank root :
  closed g -> sample_free g -> is_statement_node g root ->
  statements_ranked g rank -> values_ranked g rank ->
  forall fuel st, rank root + size g < fuel ->
                  exists out st', compile fuel g root st = Done out st'.
Proof.
  intros Hclosed Hfree Hroot Hs Hv fuel st Hfuel. unfold compile.
  destruct (compileChain_total g rank root Hclosed Hfree Hroot Hs Hv fuel fresh_context Hfuel)
    as (body & st' & ->).
  eauto.
Qed.

(** * The claims *)

(** ** C1: motif definitions are hoisted *)

(** A generator that returns has run the chain of each statement input it
    compiles, from a context that holds the macros found on entry, and
    what that chain pushed is still there on return. *)
Lemma statement_kinds_run_statement :
  Forall (fun e : string * statement_generator =>
            forall slot, slot ∈ compiled_slots e.1 ->
            forall vtc stc n st text st',
              (forall name tier, extends_macros (vtc n name tier)) ->
              e.2 vtc stc n st = Done text st' ->
              exists entered code left,
                stc n slot entered = Done code left /\
                (exists earlier, macros_ entered = macros_ st ++ earlier) /\
                (exists later, macros_ st' = macros_ left ++ later)) statement_kinds.
Proof.
  table_cases; intros slot Hin vtc stc n st text st' Hv Hrun; slot_cases Hin;
    unfold_generators_in Hrun; invert_run;
    repeat match goal with
           | H : vtc _ _ _ _ = Done _ _ |- _ => apply Hv in H; destruct H as (? & H); simpl in H
           end;
    eexists _, _, _; (split; [eassumption |]); simpl; split; eauto;
    try (eexists; symmetry; apply app_nil_r).
Qed.

(** The traversal from [root] visits [id]: a run from [root] that returns
    holds a run of the chain of [id] that returns, and the macros at the
    end of that run are still there at the end of the whole. *)
Lemma compileChain_visits g id :
  forall root, rtc (statement_edge g) root id ->
  forall fuel st body st',
    compileChain fuel g root st = Done body st' ->
    exists budget entered tail left,
      compileChain (S budget) g id entered = Done tail left /\
      (exists earlier, macros_ entered = macros_ st ++ earlier) /\
      (exists later, macros_ st' = macros_ left ++ later).
Proof.
  apply (rtc_ind_l (fun root => forall fuel st body st',
    compileChain fuel g root st = Done body st' ->
    exists budget entered tail left,
      compileChain (S budget) g id entered = Done tail left /\
      (exists earlier, macros_ entered = macros_ st ++ earlier) /\
      (exists later, macros_ st' = macros_ left ++ later))).
  - intros [| fuel] st body st' Hrun; [discriminate |].
    exists fuel, st, body, st'. split; [exact Hrun |].
    split; exists []; symmetry; apply app_nil_r.
  - intros root b (node & Hroot & Hedge) _ IH [| fuel] st body st' Hrun; [discriminate |].
    rewrite compileChain_unfold, Hroot in Hrun.
    destruct (lookup_statement_kind (kind node)) as [generate |] eqn:Hk; [| discriminate].
    apply bind_Done in Hrun as (text & mid & Hgen & Hrest).
    apply hoistingController_Done in Hgen as (generated & Hgen & _).
    pose proof (table_lookup _ _ _ _ statement_kinds_extend_macros Hk
                  (valueToCode fuel g root) (nested (compileChain fuel g)) node
                  (fun _ _ => keeps_context_extends _ (valueToCode_keeps_context _ _ _ _ _ _))
                  (fun _ => nested_extends_macros _ _ _ (compileChain_extends_macros g fuel))
                  _ _ _ Hgen) as (pushed & Hpushed).
    destruct Hedge as [Hnext | (slot & Hslot & Hfirst)].
    + rewrite Hnext in Hrest. apply bind_Done in Hrest as (tail & s & Hchain & Hret).
      apply ret_Done in Hret as [_ ->].
      destruct (IH _ _ _ _ Hchain) as (budget & entered & t & left & Hsub & (earlier & He) & Hl).
      exists budget, entered, t, left. split; [exact Hsub |]. split; [| exact Hl].
      exists (pushed ++ earlier). rewrite He, Hpushed. symmetry. apply app_assoc.
    + destruct (table_lookup _ _ _ _ statement_kinds_run_statement Hk slot Hslot
                  _ _ _ _ _ _
                  (fun _ _ => keeps_context_extends _ (valueToCode_keeps_context _ _ _ _ _ _))
                  Hgen) as (s1 & code & s2 & Hnested & (e1 & He1) & (l1 & Hl1)).
      unfold nested in Hnested. rewrite Hfirst in Hnested.
      apply bind_Done in Hnested as (inner & s3 & Hchain & Hret).
      apply ret_Done in Hret as [_ ->].
      destruct (IH _ _ _ _ Hchain) as (budget & entered & t & left & Hsub & (earlier & He) & (later & Hl)).
      exists budget, entered, t, left. split; [exact Hsub |]. split.
      * exists (e1 ++ earlier). rewrite He, He1. symmetry. apply app_assoc.
      * assert (exists rest, macros_ st' = macros_ mid ++ rest) as (rest & Hfinal).
        { destruct (next node) as [following |].
          - apply bind_Done in Hrest as (tail & s & Hfollow & Hret).
            apply ret_Done in Hret as [_ ->].
            exact (compileChain_extends_macros g fuel _ _ _ _ Hfollow).
          - apply ret_Done in Hrest as [_ ->]. exists []. symmetry. apply app_nil_r. }
        exists (later ++ l1 ++ rest). rewrite Hfinal, Hl1, Hl, <- !app_assoc. reflexivity.
Qed.

(** The chain compiler at a [defmotif] node: the generator builds and
    pushes the definition, the controller hands empty text on, and the
    text of the chain is that of the node's [next]. *)
Lemma defmotif_run fuel g id node st tail left :
  g !! id = Some node -> kind node = "defmotif" ->
  compileChain (S fuel) g id st = Done tail left ->
  exists code mid earlier later,
    defmotif (valueToCode fuel g id) (nested (compileChain fuel g)) node st = Done code mid /\
    String.prefix "defmotif " code = true /\
    macros_ mid = macros_ st ++ earlier ++ [code] /\
    macros_ left = macros_ mid ++ later /\
    match next node with
    | None => tail = EmptyString /\ left = mid
    | Some following => compileChain fuel g following mid = Done tail left
    end.
Proof.
  intros Hg Hk Hrun.
  rewrite compileChain_unfold, Hg, Hk, lookup_defmotif in Hrun.
  apply bind_Done in Hrun as (text & mid & Hgen & Hrest).
  apply hoistingController_Done in Hgen as (code & Hgen & Htext). simpl in Htext. subst text.
  exists code, mid. pose proof Hgen as Hdef. unfold defmotif in Hgen.
  apply bind_Done in Hgen as (u1 & s1 & H1 & Hgen). apply set_context_Done in H1.
  apply bind_Done in Hgen as (name & s2 & H2 & Hgen).
  apply valueToCode_keeps_context in H2. subst s2.
  apply bind_Done in Hgen as (stmts & s3 & H3 & Hgen).
  pose proof (nested_extends_macros _ _ _ (compileChain_extends_macros g fuel) _ _ _ H3)
    as (earlier & Hearlier).
  apply bind_Done in Hgen as (u2 & s4 & H4 & Hgen). apply set_context_Done in H4.
  apply bind_Done in Hgen as (u3 & s5 & H5 & Hgen). apply push_macro_Done in H5.
  apply ret_Done in Hgen as [Hcode Hmid].
  assert (macros_ mid = macros_ st ++ earlier ++ [code]) as Hpushed.
  { rewrite Hmid, H5, H4. simpl. rewrite Hearlier, H1. simpl. rewrite Hcode.
    rewrite <- app_assoc. reflexivity. }
  assert (String.prefix "defmotif " code = true) as Hprefix.
  { rewrite Hcode. apply prefix_append. }
  destruct (next node) as [following |].
  - apply bind_Done in Hrest as (rest & s6 & Hchain & Hret).
    apply ret_Done in Hret as [Htail ->].
    change (EmptyString +:+ rest) with rest in Htail. subst tail.
    pose proof (compileChain_extends_macros g fuel _ _ _ _ Hchain) as (later & Hlater).
    exists earlier, later. auto 10.
  - apply ret_Done in Hrest as [-> ->]. exists earlier, [].
    split; [exact Hdef |]. split; [exact Hprefix |]. split; [exact Hpushed |].
    split; [symmetry; apply app_nil_r |]. auto.
Qed.


Lemma deep_motif_visited : rtc (statement_edge deep_motif_graph) 0 3.
Proof.
  apply (rtc_l _ _ 1%nat); [| apply (rtc_l _ _ 2%nat); [| apply rtc_once]].
  - eexists. split; [reflexivity |]. right. exists "COMMANDS".
    split; [compute_done | reflexivity].
  - eexists. split; [reflexivity |]. right. exists "DO".
    split; [compute_done | reflexivity].
  - eexists. split; [reflexivity |]. right. exists "COMMANDS".
    split; [compute_done | reflexivity].
Defined.


(** The motif three levels deep, compiled: the definition is printed
    before the blank line, and where the node stands in its chain the body
    holds only the line of the node's [next]. *)
Example deep_motif_compiles :
  compile 6 deep_motif_graph 0 fresh_context =
  Done (riff_definition +:+ nl +:+
        "with_fx(:echo)" +:+ nl +:+ "do" +:+ nl +:+
        "  play_in_key(" +:+ dq +:+ "C" +:+ dq +:+ "," +:+ dq +:+ "Major" +:+ dq +:+ ") do" +:+ nl +:+
        "    with_fx(:reverb)" +:+ nl +:+ "    do" +:+ nl +:+
        "      stop_sound()" +:+ nl +:+
        "    " +:+ nl +:+ "    end" +:+ nl +:+
        "  " +:+ nl +:+ "  end" +:+ nl +:+
        nl +:+ "end" +:+ nl)
       {| context := None; macros_ := [riff_definition] |}.
Proof. vm_compute. reflexivity. Qed.
(** ** C2: the tempo scenario *)

(** C2: the chain [set_tempo(120)] -> [play_synth(["C4","E4"], 2)] ->
    [stop_sound()] compiles, with any budget of three or more and from any
    context, to exactly the three lines [set_tempo(120)],
    [play_synth(["C4","E4"],2)] and [stop_sound()], in that order and each
    ended by a line feed; nothing is hoisted, so the output has no macro
    section. *)
Theorem tempo_chain_three_lines :
  forall fuel st,
    compile (3 + fuel) tempo_graph 0 st =
    Done ("set_tempo(120)" +:+ nl +:+
          "play_synth(" +:+ tempo_chord_text +:+ ",2)" +:+ nl +:+
          "stop_sound()" +:+ nl)
         {| context := None; macros_ := [] |}.
Proof.
  intros fuel st.
  apply (refines_Done (compile 3 tempo_graph 0)).
  - apply compile_refines. lia.
  - vm_compute. reflexivity.
Qed.

(** ** C3: unbound slots degrade to empty text *)

Lemma resolveValue_unbound fuel g stack node slotName consumerTier st :
  values node !! slotName = None ->
  resolveValue fuel g stack node slotName consumerTier st = Done (EmptyString, ORDER_ATOMIC) st.
Proof. intros H. rewrite resolveValue_unfold, H. reflexivity. Qed.

Lemma valueToCode_unbound fuel g id node slotName order st :
  values node !! slotName = None ->
  valueToCode fuel g id node slotName order st = Done EmptyString st.
Proof.
  intros H. unfold valueToCode, text_of, bind.
  rewrite (resolveValue_unbound _ _ _ _ _ _ _ H). reflexivity.
Qed.

(** The line of a statement generator, cut at a value input that its
    block declares: when that input resolves to empty text, the line is
    what stands before the input followed by what stands after it, and
    with any other text for the input the line has that text in
    between. *)
Ltac cut_line pre post H :=
  exists pre, post; split;
  [ repeat rewrite append_assoc; reflexivity
  | intros text; eexists; unfold_generators; unfold substitute, bind, set_context, push_macro, ret;
    simpl; repeat rewrite H; repeat rewrite append_assoc; reflexivity ].

Lemma statement_kinds_substitute :
  Forall (fun e : string * statement_generator =>
            forall def slot,
              assoc e.1 Blocks = Some def -> slot ∈ value_inputs def ->
              forall v s n st line st',
                (forall tier s0, v n slot tier s0 = Done EmptyString s0) ->
                e.2 v s n st = Done line st' ->
                exists pre post,
                  line = pre +:+ post /\
                  forall text, exists st_t,
                    e.2 (substitute v slot text) s n st = Done (pre +:+ text +:+ post) st_t)
         statement_kinds.
Proof.
  table_cases; intros def slot Hdef Hslot v s n st line st' Hunbound Hrun;
    vm_compute in Hdef; injection Hdef as <-; slot_cases Hslot; unfold_generators_in Hrun.
  - (* defmotif, NAME *)
    apply bind_Done in Hrun as (u & s1 & H1 & Hrun). apply set_context_Done in H1. subst s1.
    apply bind_Done in Hrun as (name & s2 & Hname & Hrun).
    rewrite Hunbound in Hname. injection Hname as <- <-.
    apply bind_Done in Hrun as (body & s3 & Hbody & Hrun). unfold bind in Hrun. simpl in Hrun.
    injection Hrun as <- <-.
    cut_line "defmotif " (" do" +:+ nl +:+ body +:+ nl +:+ "end" +:+ nl) Hbody.
  - (* play_synth, NOTES *)
    apply bind_Done in Hrun as (notes & s1 & Hnotes & Hrun).
    rewrite Hunbound in Hnotes. injection Hnotes as <- <-.
    apply bind_Done in Hrun as (beats & s2 & Hbeats & Hrun). injection Hrun as <- <-.
    cut_line "play_synth(" ("," +:+ beats +:+ ")" +:+ nl) Hbeats.
  - (* play_synth, BEATS *)
    apply bind_Done in Hrun as (notes & s1 & Hnotes & Hrun).
    apply bind_Done in Hrun as (beats & s2 & Hbeats & Hrun).
    rewrite Hunbound in Hbeats. injection Hbeats as <- <-. injection Hrun as <- <-.
    cut_line ("play_synth(" +:+ notes +:+ ",") (")" +:+ nl) Hnotes.
  - (* rest, AMOUNT *)
    apply bind_Done in Hrun as (amount & s1 & Hamount & Hrun).
    rewrite Hunbound in Hamount. injection Hamount as <- <-. injection Hrun as <- <-.
    cut_line "rest(" ("," +:+ getFieldValue n "UNITS" +:+ ")" +:+ nl) Hunbound.
  - (* set_volume, VOLUME *)
    apply bind_Done in Hrun as (volume & s1 & Hvolume & Hrun).
    rewrite Hunbound in Hvolume. injection Hvolume as <- <-. injection Hrun as <- <-.
    cut_line "set_volume(" (")" +:+ nl) Hunbound.
  - (* set_tempo, TEMPO *)
    apply bind_Done in Hrun as (tempo & s1 & Htempo & Hrun).
    rewrite Hunbound in Htempo. injection Htempo as <- <-. injection Hrun as <- <-.
    cut_line "set_tempo(" (")" +:+ nl) Hunbound.
  - (* cue, MOTIF *)
    apply bind_Done in Hrun as (motif & s1 & Hmotif & Hrun).
    rewrite Hunbound in Hmotif. injection Hmotif as <- <-. injection Hrun as <- <-.
    cut_line "cue(" (")" +:+ nl) Hunbound.
  - (* loop, MOTIF *)
    apply bind_Done in Hrun as (motif & s1 & Hmotif & Hrun).
    rewrite Hunbound in Hmotif. injection Hmotif as <- <-. injection Hrun as <- <-.
    cut_line "loop(" (")" +:+ nl) Hunbound.
  - (* sync_to_parent, PARENT *)
    apply bind_Done in Hrun as (parent & s1 & Hparent & Hrun).
    rewrite Hunbound in Hparent. injection Hparent as <- <-. injection Hrun as <- <-.
    cut_line "sync_to(" (")" +:+ nl) Hunbound.
Qed.



(** The incomplete graph compiles to the line with the empty substitution. *)
Example incomplete_graph_compiles :
  compile 2 incomplete_graph 0 fresh_context =
  Done ("play_synth(,2)" +:+ nl +:+ "wait_for(:beat1)" +:+ nl) fresh_context.
Proof. vm_compute. reflexivity. Qed.
(** ** C4: the scope tag *)

Lemma returning_scopes_statement k :
  k ∈ returning_scopes -> is_Some (lookup_statement_kind k).
Proof.
  intros H. unfold returning_scopes in H.
  repeat (apply elem_of_cons in H; destruct H as [-> | H]);
    [.. | apply elem_of_nil in H; destruct H]; eexists; reflexivity.
Qed.

Lemma tagged_music st :
  context st = Some ":music" -> {| context := Some ":music"; macros_ := macros_ st |} = st.
Proof. destruct st as [tag macros]. simpl. intros ->. reflexivity. Qed.

(** The three generators write the tag [:music] before they call the
    resolver and the chain compiler: whatever these do from a context with
    another tag makes no difference to the generator. *)
Lemma returning_scopes_enter :
  Forall (fun e : string * statement_generator =>
            e.1 ∈ returning_scopes ->
            forall v v' s s' n,
              (forall name tier, keeps_tag (v n name tier)) ->
              (forall name tier, agree_when_tagged ":music" (v n name tier) (v' n name tier)) ->
              (forall name, agree_when_tagged ":music" (s n name) (s' n name)) ->
              same (e.2 v s n) (e.2 v' s' n)) statement_kinds.
Proof.
  table_cases; intros Hk v v' s s' n Hkeep Hv Hs st;
    try (exfalso; revert Hk; compute_done); unfold_generators;
    unfold bind, set_context; simpl.
  - rewrite <- (Hv "NAME" ORDER_ATOMIC {| context := Some ":music"; macros_ := macros_ st |}
                  eq_refl).
    destruct (v n "NAME" ORDER_ATOMIC _) as [name entered | |] eqn:Hname; try reflexivity.
    apply Hkeep in Hname. simpl in Hname.
    rewrite <- (Hs "DO" entered Hname). reflexivity.
  - rewrite <- (Hv "NAME" ORDER_ATOMIC {| context := Some ":music"; macros_ := macros_ st |}
                  eq_refl).
    destruct (v n "NAME" ORDER_ATOMIC _) as [name entered | |] eqn:Hname; try reflexivity.
    apply Hkeep in Hname. simpl in Hname.
    rewrite <- (Hs "DO" entered Hname). reflexivity.
  - rewrite <- (Hs "DO" {| context := Some ":music"; macros_ := macros_ st |} eq_refl).
    reflexivity.
Qed.

(** The three generators write the tag null before they return. *)
Lemma returning_scopes_exit :
  Forall (fun e : string * statement_generator =>
            e.1 ∈ returning_scopes ->
            forall v s n st text exited,
              e.2 v s n st = Done text exited -> context exited = None) statement_kinds.
Proof.
  table_cases; intros Hk v s n st text exited Hrun;
    try (exfalso; revert Hk; compute_done); unfold_generators_in Hrun; invert_run; reflexivity.
Qed.

(** C4, as the code has it: each of [defmotif], [play_chord_progression]
    and [play_in_key] writes the tag [:music] before it resolves its value
    input and compiles its nested chain, so that whatever the resolver and
    the chain compiler would do under another tag makes no difference, and
    writes the tag null before it returns, whatever the tag was on entry;
    nothing restores the tag of an enclosing scope.  The chain compiler
    does compile such a node of a well-formed graph, and when the
    generator has returned, the chain of the node's [next] is compiled
    from a context whose tag is null. *)
Theorem scope_tag_set_on_entry_cleared_on_exit :
  forall fuel g rank id node generate st,
    g !! id = Some node -> kind node ∈ returning_scopes ->
    lookup_statement_kind (kind node) = Some generate ->
    (forall v v' s s',
        (forall name tier, keeps_tag (v node name tier)) ->
        (forall name tier, agree_when_tagged ":music" (v node name tier) (v' node name tier)) ->
        (forall name, agree_when_tagged ":music" (s node name) (s' node name)) ->
        same (generate v s node) (generate v' s' node)) /\
    (forall v s entered text exited,
        generate v s node entered = Done text exited -> context exited = None) /\
    (closed g -> sample_free g -> statements_ranked g rank -> values_ranked g rank ->
     rank id + size g <= fuel ->
     exists out st', compileChain (S fuel) g id st = Done out st') /\
    (forall out st',
        compileChain (S fuel) g id st = Done out st' ->
        exists text exited,
          generate (valueToCode fuel g id) (nested (compileChain fuel g)) node st
            = Done text exited /\
          context exited = None /\
          match next node with
          | None => st' = exited
          | Some following =>
              exists tail, compileChain fuel g following exited = Done tail st'
          end).
Proof.
  intros fuel g rank id node generate st Hg Hkind Hk.
  pose proof (table_lookup _ _ _ _ returning_scopes_enter Hk Hkind) as Henter.
  pose proof (table_lookup _ _ _ _ returning_scopes_exit Hk Hkind) as Hexit.
  simpl in Henter, Hexit.
  split; [intros v v' s s'; apply Henter |]. split; [intros v s; apply Hexit |]. split.
  - intros Hclosed Hfree Hs Hv Hfuel.
    apply (compileChain_total g rank id Hclosed Hfree); auto; [| lia].
    exact (is_statement_node_lookup g id node generate Hg Hk).
  - intros out st' Hrun. rewrite compileChain_unfold, Hg, Hk in Hrun.
    apply bind_Done in Hrun as (received & exited & Hgen & Hrest).
    apply hoistingController_Done in Hgen as (text & Hgen & _).
    exists text, exited. split; [exact Hgen |]. split; [exact (Hexit _ _ _ _ _ _ Hgen) |].
    destruct (next node) as [following |].
    + apply bind_Done in Hrest as (tail & s & Hchain & Hret).
      apply ret_Done in Hret as [_ ->]. eauto.
    + apply ret_Done in Hrest as [_ ->]. reflexivity.
Qed.

Lemma scope_tag_set_on_entry_cleared_on_exit_witness :
  (forall (v v' : Node -> string -> Z -> M string) s s',
      (forall name tier, keeps_tag (v scope_inner name tier)) ->
      (forall name tier,
          agree_when_tagged ":music" (v scope_inner name tier) (v' scope_inner name tier)) ->
      (forall name, agree_when_tagged ":music" (s scope_inner name) (s' scope_inner name)) ->
      same (play_in_key s scope_inner) (play_in_key s' scope_inner)) /\
  (forall (v : Node -> string -> Z -> M string) s entered text exited,
      play_in_key s scope_inner entered = Done text exited -> context exited = None) /\
  exists out st',
    compileChain 8 nested_scope_graph 1 in_music_scope = Done out st' /\
    exists text exited,
      play_in_key (nested (compileChain 7 nested_scope_graph)) scope_inner in_music_scope
        = Done text exited /\
      context exited = None /\
      exists tail, compileChain 7 nested_scope_graph 2 exited = Done tail st'.
Proof.
  assert (kind scope_inner ∈ returning_scopes) as Hkind by compute_done.
  destruct (scope_tag_set_on_entry_cleared_on_exit 7 nested_scope_graph (fun i => 4 - i) 1
              scope_inner (fun _ s => play_in_key s) in_music_scope eq_refl Hkind eq_refl)
    as (Henter & Hexit & Hreturns & Hshape).
  split; [exact Henter |]. split; [exact Hexit |].
  destruct Hreturns as (out & st' & Hrun);
    [compute_done | compute_done | compute_done | compute_done | vm_compute; lia |].
  exists out, st'. split; [exact Hrun |]. exact (Hshape out st' Hrun).
Defined.

(** C4, as stated, fails on [nested_scope_graph]: the inner [play_in_key]
    is entered under the tag of the outer one and returns with the tag
    null, and the [wait_for] after it, still inside the outer
    [play_in_key], is compiled from that context. *)
Lemma nested_scope_tag_lost :
  exists text after tail final,
    context in_music_scope = Some ":music" /\
    play_in_key (nested (compileChain 1 nested_scope_graph)) scope_inner in_music_scope
      = Done text after /\
    context after = None /\
    context after <> context in_music_scope /\
    compileChain 1 nested_scope_graph 2 after = Done tail final /\
    compileChain 2 nested_scope_graph 1 in_music_scope = Done (text +:+ tail) final /\
    nested (compileChain 2 nested_scope_graph) scope_outer "DO" in_music_scope
      = Done (prefixLines (text +:+ tail) INDENT) final.
Proof.
  exists ("play_in_key(" +:+ dq +:+ "D" +:+ dq +:+ "," +:+ dq +:+ "Minor" +:+ dq +:+ ") do"
            +:+ nl +:+ nl +:+ "end" +:+ nl),
         fresh_context, ("wait_for(:beat1)" +:+ nl), fresh_context.
  repeat split; try (vm_compute; reflexivity). vm_compute. discriminate.
Qed.

(** The fourth generator that writes the scope tag never returns. *)
Lemma trigger_sample_raises block st :
  trigger_sample block st = Fail (ReferenceError "code").
Proof. reflexivity. Qed.
(** ** C5: determinism *)

Section Oblivious.

Context {A B : Type}.

Lemma oblivious_ret (a : A) : oblivious (ret a).
Proof.
  intros s1 s2. simpl. split; [reflexivity |].
  exists []. split; symmetry; apply app_nil_r.
Qed.

Lemma oblivious_throw (e : error) : oblivious (@throw A e).
Proof. intros s1 s2. reflexivity. Qed.

Lemma oblivious_exhaust : oblivious (@exhaust A).
Proof. intros s1 s2. exact I. Qed.

Lemma oblivious_bind (m : M A) (f : A -> M B) :
  oblivious m -> (forall a, oblivious (f a)) -> oblivious (bind m f).
Proof.
  intros Hm Hf s1 s2. unfold bind. specialize (Hm s1 s2).
  destruct (m s1) as [a1 t1 | e1 |], (m s2) as [a2 t2 | e2 |]; simpl in Hm; try contradiction;
    try exact Hm.
  destruct Hm as (<- & pushed & H1 & H2). specialize (Hf a1 t1 t2).
  destruct (f a1 t1) as [b1 u1 | e1 |], (f a1 t2) as [b2 u2 | e2 |]; simpl in *;
    try contradiction; try exact Hf.
  destruct Hf as (<- & later & H3 & H4). split; [reflexivity |].
  exists (pushed ++ later). rewrite H3, H4, H1, H2, <- !app_assoc. auto.
Qed.

Lemma oblivious_if (b : bool) (m1 m2 : M A) :
  oblivious m1 -> oblivious m2 -> oblivious (if b then m1 else m2).
Proof. destruct b; auto. Qed.

End Oblivious.

Lemma oblivious_set_context tag : oblivious (set_context tag).
Proof.
  intros s1 s2. simpl. split; [reflexivity |].
  exists []. split; symmetry; apply app_nil_r.
Qed.

Lemma oblivious_push_macro code : oblivious (push_macro code).
Proof. intros s1 s2. simpl. split; [reflexivity |]. exists [code]. auto. Qed.

Lemma oblivious_text_of m : oblivious m -> oblivious (text_of m).
Proof. intros H. apply oblivious_bind; [exact H | intros; apply oblivious_ret]. Qed.

Ltac solve_oblivious :=
  repeat first [ apply oblivious_bind; [| intro] | apply oblivious_if
               | apply oblivious_ret | apply oblivious_throw
               | apply oblivious_set_context | apply oblivious_push_macro
               | solve [auto] ].

(** No generator of music.js reads the scope tag or the accumulator. *)
Lemma statement_kinds_oblivious :
  Forall (fun e : string * statement_generator =>
            forall vtc stc n,
              (forall slot tier, oblivious (vtc n slot tier)) ->
              (forall slot, oblivious (stc n slot)) ->
              oblivious (e.2 vtc stc n)) statement_kinds.
Proof. table_cases; intros vtc stc n Hv Hs; unfold_generators; solve_oblivious. Qed.

Lemma value_kinds_oblivious :
  Forall (fun e : string * value_generator =>
            forall vtc n,
              (forall slot tier, oblivious (vtc n slot tier)) ->
              oblivious (e.2 vtc n)) value_kinds.
Proof. table_cases; intros vtc n Hv; unfold_generators; solve_oblivious. Qed.

Lemma resolveValue_oblivious g fuel :
  forall stack node slotName consumerTier,
    oblivious (resolveValue fuel g stack node slotName consumerTier).
Proof.
  induction fuel as [| fuel IH]; intros stack node slotName consumerTier;
    rewrite resolveValue_unfold;
    destruct (values node !! slotName) as [[l | c] |]; simpl;
    try apply oblivious_ret.
  all: destruct (bool_decide (c ∈ stack)); [apply oblivious_throw |].
  all: destruct (g !! c) as [child |]; [| apply oblivious_throw].
  all: destruct (lookup_value_kind (kind child)) as [generate |] eqn:Hk;
    [| apply oblivious_throw].
  - apply oblivious_exhaust.
  - apply oblivious_bind.
    + apply (table_lookup _ _ _ _ value_kinds_oblivious Hk).
      intros; apply oblivious_text_of, IH.
    + intros r. apply oblivious_if; apply oblivious_ret.
Qed.

Lemma compileChain_oblivious g fuel : forall id, oblivious (compileChain fuel g id).
Proof.
  induction fuel as [| fuel IH]; intros id; [apply oblivious_exhaust |].
  rewrite compileChain_unfold.
  destruct (g !! id) as [node |]; [| apply oblivious_throw].
  destruct (lookup_statement_kind (kind node)) as [generate |] eqn:Hk;
    [| apply oblivious_throw].
  apply oblivious_bind.
  - unfold hoistingController.
    assert (oblivious (generate (valueToCode fuel g id) (nested (compileChain fuel g)) node))
      as Hgen.
    { apply (table_lookup _ _ _ _ statement_kinds_oblivious Hk).
      - intros. apply oblivious_text_of, resolveValue_oblivious.
      - intros slot. unfold nested. destruct (statements node !! slot); [| apply oblivious_ret].
        apply oblivious_bind; [apply IH | intros; apply oblivious_ret]. }
    destruct (String.eqb (kind node) "defmotif"); [| exact Hgen].
    apply oblivious_bind; [exact Hgen | intros; apply oblivious_ret].
  - intros text. destruct (next node); [| apply oblivious_ret].
    apply oblivious_bind; [apply IH | intros; apply oblivious_ret].
Qed.



(** Without the driver's reset the macros of an earlier run would be
    carried into the next: the chain compiler run twice in a row on the
    motif graph leaves the definition in the accumulator twice. *)
Example accumulator_carries_over :
  exists body left,
    compileChain 3 motif_graph 0 fresh_context = Done body left /\
    compileChain 3 motif_graph 0 left
    = Done body {| context := None; macros_ := [riff_definition; riff_definition] |}.
Proof. eexists _, _. split; vm_compute; reflexivity. Qed.
(** ** C6: parentheses *)

Lemma parenthesized_neq (text : string) : "(" +:+ text +:+ ")" <> text.
Proof.
  intros H. apply (f_equal String.length) in H.
  rewrite !length_append in H. simpl in H. lia.
Qed.

Lemma resolveValueIn_unfold registry fuel g stack node slotName consumerTier :
  resolveValueIn registry fuel g stack node slotName consumerTier =
  match values node !! slotName with
  | None =>
      match slot_default (kind node) slotName with
      | Some l => ret (render_literal l, ORDER_ATOMIC)
      | None => ret (EmptyString, ORDER_ATOMIC)
      end
  | Some (Lit l) => ret (render_literal l, ORDER_ATOMIC)
  | Some (Ref c) =>
      if bool_decide (c ∈ stack) then throw (CyclicValueInput c)
      else
        match g !! c with
        | None => throw (DanglingReference c)
        | Some child =>
            match registry (kind child) with
            | None => throw (UnknownKind c (kind child))
            | Some generate =>
                match fuel with
                | O => exhaust
                | S fuel' =>
                    r <- generate
                           (fun block name order =>
                              text_of (resolveValueIn registry fuel' g (c :: stack)
                                         block name order))
                           child ;;
                    if (consumerTier <? r.2)%Z
                    then ret ("(" +:+ r.1 +:+ ")", r.2)
                    else ret r
                end
            end
        end
  end.
Proof. destruct fuel; reflexivity. Qed.

(** Every value generator of music.js returns its text at the tightest
    tier. *)
Lemma value_kinds_atomic :
  Forall (fun e : string * value_generator =>
            forall vtc n st r st', e.2 vtc n st = Done r st' -> r.2 = ORDER_ATOMIC)
         value_kinds.
Proof.
  table_cases; intros vtc n st r st' Hrun; unfold chord, premade_chord in Hrun;
    apply bind_Done in Hrun as (code & s & _ & Hrun);
    apply ret_Done in Hrun as [-> _]; reflexivity.
Qed.

(** Every generator of music.js asks for its value inputs at the tightest
    tier. *)
Lemma statement_kinds_ask_atomic :
  Forall (fun e : string * statement_generator =>
            forall vtc stc n,
              e.2 vtc stc n = e.2 (fun block name _ => vtc block name ORDER_ATOMIC) stc n)
         statement_kinds.
Proof. table_cases; intros vtc stc n; reflexivity. Qed.

Lemma value_kinds_ask_atomic :
  Forall (fun e : string * value_generator =>
            forall vtc n, e.2 vtc n = e.2 (fun block name _ => vtc block name ORDER_ATOMIC) n)
         value_kinds.
Proof. table_cases; intros vtc n; reflexivity. Qed.

(** C6: over any registry of value kinds, when a value-input slot is bound
    to a child node, the resolver returns the child's generated text
    wrapped in parentheses if and only if the child's tier is strictly
    greater than the tier the consumer requires, and returns the text as
    it is if and only if the child's tier is at most the consumer's; a
    slot bound to a literal or left unbound gets no parentheses.  With the
    value generators of music.js the child's tier is always the tightest
    one. *)
Theorem parentheses_iff_child_looser :
  forall registry fuel g stack node slotName consumerTier,
    (forall c child generate st text tier st',
        values node !! slotName = Some (Ref c) ->
        c ∉ stack ->
        g !! c = Some child ->
        registry (kind child) = Some generate ->
        generate (fun block name order =>
                    text_of (resolveValueIn registry fuel g (c :: stack) block name order))
                 child st
          = Done (text, tier) st' ->
        (exists out,
            resolveValueIn registry (S fuel) g stack node slotName consumerTier st
              = Done (out, tier) st' /\
            (out = "(" +:+ text +:+ ")" <-> (consumerTier < tier)%Z) /\
            (out = text <-> (tier <= consumerTier)%Z)) /\
        (lookup_value_kind (kind child) = Some generate -> tier = ORDER_ATOMIC)) /\
    (forall l st,
        values node !! slotName = Some (Lit l) ->
        resolveValueIn registry fuel g stack node slotName consumerTier st
          = Done (render_literal l, ORDER_ATOMIC) st) /\
    (forall st,
        values node !! slotName = None ->
        resolveValueIn registry fuel g stack node slotName consumerTier st
          = Done (EmptyString, ORDER_ATOMIC) st).
Proof.
  intros registry fuel g stack node slotName consumerTier. split; [| split].
  - intros c child generate st text tier st' Hv Hstack Hc Hk Hgen. split.
    + rewrite resolveValueIn_unfold, Hv. rewrite bool_decide_eq_false_2 by exact Hstack.
      rewrite Hc, Hk. unfold bind at 1. rewrite Hgen. simpl.
      destruct (Z.ltb_spec consumerTier tier) as [Hlt | Hge].
      * exists ("(" +:+ text +:+ ")"). split; [reflexivity |]. split.
        -- split; auto.
        -- split; [intros H; destruct (parenthesized_neq _ H) | lia].
      * exists text. split; [reflexivity |]. split.
        -- split; [intros H; symmetry in H; destruct (parenthesized_neq _ H) | lia].
        -- split; auto.
    + intros Hmusic.
      exact (table_lookup _ _ _ _ value_kinds_atomic Hmusic _ _ _ _ _ Hgen).
  - intros l st Hv. rewrite resolveValueIn_unfold, Hv. reflexivity.
  - intros st Hv. rewrite resolveValueIn_unfold, Hv. reflexivity.
Qed.

Lemma parentheses_iff_child_looser_witness :
  exists out,
    resolveValueIn sum_registry 1 sum_graph [0%nat] sum_synth "NOTES" ORDER_ATOMIC fresh_context
      = Done (out, 6%Z) fresh_context /\
    (out = "(" +:+ "1 + 2" +:+ ")" <-> (ORDER_ATOMIC < 6)%Z) /\
    (out = "1 + 2" <-> (6 <= ORDER_ATOMIC)%Z).
Proof.
  apply (proj1 (parentheses_iff_child_looser sum_registry 0 sum_graph [0%nat] sum_synth
                  "NOTES" ORDER_ATOMIC)
           1%nat (bare "sum") sum_generator fresh_context "1 + 2" 6%Z fresh_context).
  - reflexivity.
  - apply not_elem_of_cons. split; [discriminate | apply not_elem_of_nil].
  - reflexivity.
  - reflexivity.
  - reflexivity.
Defined.

(** The same under a consumer that requires no more than the child's
    tier, and with a chord of music.js as the child. *)
Example loose_consumer_no_parentheses :
  resolveValueIn sum_registry 1 sum_graph [0%nat] sum_synth "NOTES" 6 fresh_context
  = Done ("1 + 2", 6%Z) fresh_context.
Proof. vm_compute. reflexivity. Qed.

Example chord_no_parentheses :
  resolveValue 1 tempo_graph [1%nat] tempo_synth "NOTES" ORDER_ATOMIC fresh_context
  = Done (tempo_chord_text, ORDER_ATOMIC) fresh_context.
Proof. vm_compute. reflexivity. Qed.
(** ** C7: cyclic value inputs *)

Lemma compile_doomed g root :
  (forall fuel, doomed (compileChain fuel g root)) -> forall fuel, doomed (compile fuel g root).
Proof.
  intros H fuel st out st'. unfold compile.
  destruct (compileChain fuel g root fresh_context) as [body s | e |] eqn:Hrun;
    try discriminate.
  destruct (H fuel _ _ _ Hrun).
Qed.

(** A reference to a node on the resolution stack is reported at once. *)
Lemma revisit_is_cyclic fuel g stack node slotName consumerTier c st :
  values node !! slotName = Some (Ref c) -> c ∈ stack ->
  resolveValue fuel g stack node slotName consumerTier st = Fail (CyclicValueInput c).
Proof.
  intros Hv Hin. rewrite resolveValue_unfold, Hv.
  rewrite bool_decide_eq_true_2 by exact Hin. reflexivity.
Qed.


Lemma mutual_cycle_reached :
  rtc (statement_edge mutual_cycle_graph) 0 1 /\
  rtc (value_edge mutual_cycle_graph) 1 2 /\
  tc (value_edge mutual_cycle_graph) 2 2.
Proof.
  split; [| split].
  - apply rtc_once. eexists. split; [reflexivity |]. left. reflexivity.
  - apply rtc_once. eexists _, "TEMPO". split; [reflexivity |].
    split; [compute_done | reflexivity].
  - apply (tc_l _ _ 3%nat); [| apply tc_once].
    + eexists _, "Note1". split; [reflexivity |]. split; [compute_done | reflexivity].
    + eexists _, "Note2". split; [reflexivity |]. split; [compute_done | reflexivity].
Defined.


(** A self-referential and a mutually-referential cycle, evaluated. *)
Example self_cycle_fails :
  compile 2 self_cycle_graph 0 fresh_context = Fail (CyclicValueInput 1).
Proof. vm_compute. reflexivity. Qed.

Example mutual_cycle_fails :
  compile 4 mutual_cycle_graph 0 fresh_context = Fail (CyclicValueInput 2).
Proof. vm_compute. reflexivity. Qed.
(** ** C8: numeric literals *)

(** *** Digits and their text *)

Lemma char_digit_char d : char_digit (digit_char d) = Some d.
Proof. destruct d; reflexivity. Qed.

Lemma digit_char_not_minus d : Ascii.eqb (digit_char d) "-" = false.
Proof. destruct d; reflexivity. Qed.

Lemma digit_char_not_point d : Ascii.eqb (digit_char d) "." = false.
Proof. destruct d; reflexivity. Qed.

Lemma char_digit_inv c d : char_digit c = Some d -> c = digit_char d.
Proof.
  unfold char_digit.
  repeat match goal with
         | |- context [Ascii.eqb c ?x] =>
             destruct (Ascii.eqb_spec c x) as [-> | _]; [intros H; injection H as <-; reflexivity |]
         end.
  discriminate.
Qed.

Lemma length_digits_text ds : String.length (digits_text ds) = length ds.
Proof. induction ds as [| d ds IH]; simpl; [reflexivity | rewrite IH; reflexivity]. Qed.

Lemma contains_char_append c s t :
  contains_char c (s +:+ t) = contains_char c s || contains_char c t.
Proof.
  induction s as [| c' s IH]; [reflexivity |].
  rewrite append_cons. simpl. rewrite IH. apply orb_assoc.
Qed.

Lemma digits_text_no_point ds : contains_char "." (digits_text ds) = false.
Proof.
  induction ds as [| d ds IH]; [reflexivity |].
  simpl. rewrite IH, digit_char_not_point. reflexivity.
Qed.

(** Reading the text of digits gives the digits back, up to the first
    character that is no digit. *)
Lemma read_digits_text ds tail :
  match tail with
  | EmptyString => True
  | String c _ => char_digit c = None
  end ->
  read_digits (digits_text ds +:+ tail) = (ds, tail).
Proof.
  intros Htail. induction ds as [| d ds IH].
  - change (digits_text [] +:+ tail) with tail.
    destruct tail as [| c tail]; [reflexivity |]. simpl. rewrite Htail. reflexivity.
  - simpl digits_text. rewrite append_cons. simpl. rewrite char_digit_char, IH. reflexivity.
Qed.

Lemma read_digits_inv s : forall ds tail,
  read_digits s = (ds, tail) -> s = digits_text ds +:+ tail.
Proof.
  induction s as [| c s IH]; intros ds tail; simpl.
  - intros [= <- <-]. reflexivity.
  - destruct (char_digit c) as [d |] eqn:Hc.
    + destruct (read_digits s) as [ds' tail'] eqn:Hs. intros [= <- <-].
      simpl. rewrite append_cons. rewrite (char_digit_inv _ _ Hc). f_equal. apply IH. reflexivity.
    + intros [= <- <-]. reflexivity.
Qed.

(** *** The number of a sequence of digits *)

Lemma digit_value_lt d : digit_value d < 10.
Proof. destruct d; simpl; lia. Qed.

Lemma digit_value_inj d d' : digit_value d = digit_value d' -> d = d'.
Proof. destruct d, d'; simpl; intros H; try reflexivity; discriminate. Qed.

Lemma pow10_pos n : 0 < 10 ^ n.
Proof. induction n as [| n IH]; simpl; lia. Qed.

Lemma number_of_lt ds : number_of ds < 10 ^ length ds.
Proof.
  induction ds as [| d ds IH]; simpl; [lia |].
  pose proof (digit_value_lt d). nia.
Qed.

Lemma number_of_app x y :
  number_of (x ++ y) = number_of x * 10 ^ length y + number_of y.
Proof.
  induction x as [| d x IH]; simpl; [lia |].
  rewrite IH, length_app, Nat.pow_add_r. lia.
Qed.

Lemma number_of_zeros k : number_of (replicate k digit0) = 0.
Proof. induction k as [| k IH]; simpl; [reflexivity | exact IH]. Qed.

Lemma number_of_zeros_l k x : number_of (replicate k digit0 ++ x) = number_of x.
Proof. rewrite number_of_app, number_of_zeros. reflexivity. Qed.

Lemma number_of_zeros_r k x : number_of (x ++ replicate k digit0) = number_of x * 10 ^ k.
Proof. rewrite number_of_app, number_of_zeros, length_replicate. lia. Qed.

Lemma split_number a b a' b' m :
  b < m -> b' < m -> a * m + b = a' * m + b' -> a = a' /\ b = b'.
Proof. intros Hb Hb' H. assert (a = a') by nia. subst. lia. Qed.

(** Two sequences of the same length that denote the same number are the
    same. *)
Lemma number_of_inj x : forall y,
  length x = length y -> number_of x = number_of y -> x = y.
Proof.
  induction x as [| d x IH]; intros [| d' y]; simpl; try discriminate; [reflexivity |].
  intros [= Hlen] Hnum. rewrite Hlen in Hnum.
  pose proof (number_of_lt x) as Hx. pose proof (number_of_lt y) as Hy. rewrite Hlen in Hx.
  destruct (split_number _ _ _ _ _ Hx Hy Hnum) as [Hd Hrest].
  f_equal; [apply digit_value_inj; exact Hd | apply IH; assumption].
Qed.

Lemma number_of_zero ds : number_of ds = 0 <-> forallb is_digit0 ds = true.
Proof.
  induction ds as [| d ds IH]; simpl; [tauto |]. split.
  - intros H. pose proof (pow10_pos (length ds)).
    assert (digit_value d = 0) as Hd by nia. assert (number_of ds = 0) as Hds by nia.
    destruct d; try discriminate. simpl. apply IH. exact Hds.
  - intros H. apply andb_true_iff in H as [Hd Hds]. destruct d; try discriminate.
    simpl. apply IH. exact Hds.
Qed.

(** *** Zeros in front and at the end *)

Lemma strip_leading_zeros ds :
  exists k, ds = replicate k digit0 ++ strip_leading ds.
Proof.
  induction ds as [| d ds (k & IH)]; [exists 0; reflexivity |].
  destruct d; try (exists 0; reflexivity).
  exists (S k). simpl. f_equal. exact IH.
Qed.

Lemma strip_leading_replicate k ds :
  strip_leading (replicate k digit0 ++ ds) = strip_leading ds.
Proof. induction k as [| k IH]; simpl; [reflexivity | exact IH]. Qed.

Lemma strip_leading_length ds : length (strip_leading ds) <= length ds.
Proof.
  destruct (strip_leading_zeros ds) as (k & H). rewrite H at 2.
  rewrite length_app. lia.
Qed.

Lemma number_of_strip_leading ds : number_of (strip_leading ds) = number_of ds.
Proof.
  destruct (strip_leading_zeros ds) as (k & H). rewrite H at 2.
  symmetry. apply number_of_zeros_l.
Qed.

(** Sequences that denote the same number differ in the zeros in front
    only. *)
Lemma strip_leading_eq x y : number_of x = number_of y -> strip_leading x = strip_leading y.
Proof.
  intros H.
  rewrite <- (strip_leading_replicate (length y) x), <- (strip_leading_replicate (length x) y).
  f_equal. apply number_of_inj.
  - rewrite !length_app, !length_replicate. lia.
  - rewrite !number_of_zeros_l. exact H.
Qed.

Lemma rev_replicate k (d : digit) : rev (replicate k d) = replicate k d.
Proof.
  induction k as [| k IH]; [reflexivity |].
  simpl. rewrite IH. symmetry. apply replicate_cons_app.
Qed.

Lemma strip_trailing_zeros ds :
  exists k, ds = strip_trailing ds ++ replicate k digit0.
Proof.
  destruct (strip_leading_zeros (rev ds)) as (k & H). exists k.
  apply (f_equal (@rev digit)) in H. rewrite rev_involutive, rev_app_distr, rev_replicate in H.
  exact H.
Qed.

Lemma strip_trailing_replicate k ds :
  strip_trailing (ds ++ replicate k digit0) = strip_trailing ds.
Proof.
  unfold strip_trailing. rewrite rev_app_distr, rev_replicate, strip_leading_replicate.
  reflexivity.
Qed.

Lemma strip_trailing_length ds : length (strip_trailing ds) <= length ds.
Proof.
  destruct (strip_trailing_zeros ds) as (k & H). rewrite H at 2.
  rewrite length_app. lia.
Qed.

Lemma at_least_zero_length ds : 0 < length (at_least_zero ds).
Proof. destruct ds; simpl; lia. Qed.

Lemma at_least_zero_le (ds ds' : list digit) :
  length ds <= length ds' -> ds' <> [] -> length (at_least_zero ds) <= length ds'.
Proof. destruct ds, ds'; simpl; try lia. contradiction. Qed.

Lemma number_of_at_least_zero ds : number_of (at_least_zero ds) = number_of ds.
Proof. destruct ds; reflexivity. Qed.

(** *** Floats *)

Lemma is_zero_magnitude f : is_zero f = true <-> magnitude f = 0.
Proof. unfold is_zero, magnitude. symmetry. apply number_of_zero. Qed.

(** Literals that denote the same number differ in the zeros in front of
    the whole part and at the end of the fraction, and in the sign of
    zero, only. *)
Lemma same_value_canonical f f' :
  same_value f f' ->
  strip_leading (whole f) = strip_leading (whole f') /\
  strip_trailing (fraction f) = strip_trailing (fraction f') /\
  is_zero f = is_zero f' /\
  (is_zero f = false -> negative f = negative f').
Proof.
  intros [Hmag Hsign]. unfold magnitude in *.
  set (p := length (fraction f)) in *. set (p' := length (fraction f')) in *.
  assert (number_of (whole f ++ fraction f ++ replicate p' digit0)
          = number_of (whole f' ++ fraction f' ++ replicate p digit0)) as Hpadded.
  { rewrite !app_assoc, !number_of_zeros_r. exact Hmag. }
  rewrite (number_of_app (whole f)), (number_of_app (whole f')) in Hpadded.
  assert (length (fraction f ++ replicate p' digit0)
          = length (fraction f' ++ replicate p digit0)) as Hlen.
  { rewrite !length_app, !length_replicate. unfold p, p'. lia. }
  rewrite Hlen in Hpadded.
  pose proof (number_of_lt (fraction f ++ replicate p' digit0)) as Hlt. rewrite Hlen in Hlt.
  pose proof (number_of_lt (fraction f' ++ replicate p digit0)) as Hlt'.
  destruct (split_number _ _ _ _ _ Hlt Hlt' Hpadded) as [Hwhole Hfraction].
  apply number_of_inj in Hfraction; [| exact Hlen].
  split; [apply strip_leading_eq; exact Hwhole |]. split.
  - rewrite <- (strip_trailing_replicate p' (fraction f)), Hfraction.
    apply strip_trailing_replicate.
  - assert (number_of (whole f ++ fraction f) = 0 <-> number_of (whole f' ++ fraction f') = 0)
      as Hzero.
    { pose proof (pow10_pos p) as Hp. pose proof (pow10_pos p') as Hp'.
      split; intros E; nia. }
    split.
    + destruct (is_zero f) eqn:E, (is_zero f') eqn:E'; try reflexivity.
      * apply is_zero_magnitude, Hzero, is_zero_magnitude in E. congruence.
      * apply is_zero_magnitude, Hzero, is_zero_magnitude in E'. congruence.
    + intros E. apply Hsign. intros H. apply is_zero_magnitude in H. congruence.
Qed.

Lemma read_unsigned_inv sign body f :
  read_unsigned sign body = Some f ->
  body = digits_text (whole f) +:+ "." +:+ digits_text (fraction f) /\
  negative f = sign /\ whole f <> [] /\ fraction f <> [].
Proof.
  unfold read_unsigned. destruct (read_digits body) as [before tail] eqn:Hbefore.
  destruct tail as [| c tail']; [discriminate |].
  destruct (Ascii.eqb_spec c ".") as [-> | _]; [| discriminate].
  destruct (read_digits tail') as [after rest] eqn:Hafter.
  destruct before as [| b before]; [discriminate |].
  destruct after as [| a after]; [discriminate |].
  destruct rest; [| discriminate]. intros [= <-]. simpl.
  apply read_digits_inv in Hbefore, Hafter. rewrite append_empty_r in Hafter.
  subst tail'. split; [exact Hbefore |]. repeat split; discriminate.
Qed.

(** What a text that reads as a float looks like. *)
Lemma read_float_inv text f :
  read_float text = Some f ->
  text = (if negative f then "-" else EmptyString)
           +:+ digits_text (whole f) +:+ "." +:+ digits_text (fraction f) /\
  whole f <> [] /\ fraction f <> [].
Proof.
  unfold read_float, read_sign. destruct text as [| c text'].
  - intros H. apply read_unsigned_inv in H as (H & _). destruct (whole f); discriminate.
  - destruct (Ascii.eqb_spec c "-") as [-> | Hc]; intros H;
      apply read_unsigned_inv in H as (-> & -> & Hw & Hf); auto.
Qed.

Lemma read_unsigned_text sign (W F : list digit) :
  W <> [] -> F <> [] ->
  read_unsigned sign (digits_text W +:+ "." +:+ digits_text F) = Some (mkFloat sign W F).
Proof.
  intros HW HF. unfold read_unsigned.
  rewrite (read_digits_text W ("." +:+ digits_text F)) by reflexivity.
  rewrite append_cons, append_empty_l, Ascii.eqb_refl.
  rewrite <- (append_empty_r (digits_text F)), (read_digits_text F EmptyString) by exact I.
  destruct W; [contradiction |]. destruct F; [contradiction |]. reflexivity.
Qed.

Lemma read_sign_digits (W : list digit) tail :
  W <> [] -> read_sign (digits_text W +:+ tail) = (false, digits_text W +:+ tail).
Proof.
  destruct W as [| w W]; [contradiction |]. intros _.
  simpl digits_text. rewrite append_cons. unfold read_sign.
  rewrite digit_char_not_minus. reflexivity.
Qed.

Lemma at_least_zero_nonempty ds : at_least_zero ds <> [].
Proof. destruct ds; discriminate. Qed.

(** The float that a rendering reads back as. *)
Lemma read_render_float f :
  read_float (render_float f)
  = Some (mkFloat (negative f && negb (is_zero f))
                  (at_least_zero (strip_leading (whole f)))
                  (at_least_zero (strip_trailing (fraction f)))).
Proof.
  unfold render_float, read_float. destruct (negative f && negb (is_zero f)).
  - rewrite append_cons, append_empty_l. unfold read_sign. rewrite Ascii.eqb_refl.
    apply read_unsigned_text; apply at_least_zero_nonempty.
  - rewrite append_empty_l, read_sign_digits by apply at_least_zero_nonempty.
    apply read_unsigned_text; apply at_least_zero_nonempty.
Qed.

Lemma render_normal_same_value f :
  same_value f (mkFloat (negative f && negb (is_zero f))
                        (at_least_zero (strip_leading (whole f)))
                        (at_least_zero (strip_trailing (fraction f)))).
Proof.
  split.
  - unfold magnitude. destruct f as [sign w fr]. simpl.
    destruct (strip_trailing_zeros fr) as (k & Hk).
    remember (strip_trailing fr) as S eqn:HS. clear HS. subst fr.
    rewrite app_assoc, number_of_zeros_r, !number_of_app, number_of_at_least_zero,
      number_of_strip_leading, length_app, length_replicate, Nat.pow_add_r.
    destruct S as [| d S]; simpl; lia.
  - intros Hmag. simpl. destruct (is_zero f) eqn:E.
    + apply is_zero_magnitude in E. congruence.
    + rewrite andb_true_r. reflexivity.
Qed.

Lemma length_render_float f :
  String.length (render_float f)
  = (if negative f && negb (is_zero f) then 1 else 0)
    + length (at_least_zero (strip_leading (whole f))) + 1
    + length (at_least_zero (strip_trailing (fraction f))).
Proof.
  unfold render_float. rewrite !length_append, !length_digits_text.
  destruct (negative f && negb (is_zero f)); simpl; lia.
Qed.

Lemma render_float_point f : contains_char "." (render_float f) = true.
Proof.
  unfold render_float. rewrite !contains_char_append. simpl.
  rewrite !orb_true_r. reflexivity.
Qed.

(** The rendering of a float is no longer than any text that reads as the
    same number. *)
Lemma render_float_shortest f text f' :
  read_float text = Some f' -> same_value f f' ->
  String.length (render_float f) <= String.length text.
Proof.
  intros Hread Hsame. apply read_float_inv in Hread as (-> & Hw & Hf).
  destruct (same_value_canonical f f' Hsame) as (Hwhole & Hfraction & Hzero & Hsign).
  rewrite length_render_float, !length_append, !length_digits_text, Hwhole, Hfraction.
  pose proof (at_least_zero_le _ _ (strip_leading_length (whole f')) Hw).
  pose proof (at_least_zero_le _ _ (strip_trailing_length (fraction f')) Hf).
  assert ((if negative f && negb (is_zero f) then 1 else 0)
          <= String.length (if negative f' then "-" else EmptyString)) as Hs.
  { destruct (is_zero f) eqn:E; [rewrite andb_false_r; lia |].
    rewrite <- (Hsign eq_refl), andb_true_r. destruct (negative f); simpl; lia. }
  simpl String.length at 2. lia.
Qed.

(** *** Integers *)

Lemma string_of_uint_no_point u : contains_char "." (NilEmpty.string_of_uint u) = false.
Proof. induction u; simpl; try reflexivity; exact IHu. Qed.

Lemma js_of_Z_no_point z : contains_char "." (js_of_Z z) = false.
Proof.
  unfold js_of_Z. destruct (Z.to_int z) as [u | u]; simpl;
    destruct u; simpl; try reflexivity; apply string_of_uint_no_point.
Qed.

Lemma read_integer_js_of_Z z : read_integer (js_of_Z z) = Some z.
Proof.
  unfold read_integer, js_of_Z. rewrite NilZero.isi.
  - simpl. rewrite DecimalZ.of_to. reflexivity.
  - destruct z; simpl; try discriminate. intros [= H].
    exact (DecimalPos.Unsigned.to_uint_nonnil _ H).
  - destruct z; simpl; try discriminate. intros [= H].
    exact (DecimalPos.Unsigned.to_uint_nonnil _ H).
Qed.

Lemma length_string_of_uint u :
  String.length (NilEmpty.string_of_uint u) = Decimal.nb_digits u.
Proof. induction u; simpl; try reflexivity; rewrite IHu; reflexivity. Qed.

Lemma length_string_of_uint_zero u :
  u <> Decimal.Nil ->
  String.length (NilZero.string_of_uint u) = Decimal.nb_digits u.
Proof. destruct u; [contradiction | ..]; intros _; apply length_string_of_uint. Qed.

(** The rendering of an integer is no longer than any text that reads as
    the same integer. *)
Lemma js_of_Z_shortest z text :
  read_integer text = Some z -> String.length (js_of_Z z) <= String.length text.
Proof.
  unfold read_integer, js_of_Z. destruct (NilZero.int_of_string text) as [d |] eqn:Hd;
    [| discriminate].
  intros [= <-]. rewrite DecimalZ.to_of.
  pose proof (NilZero.sis _ _ Hd) as Htext. subst text.
  assert (forall u, NilZero.int_of_string (NilZero.string_of_int d) = Some d ->
                    (d = Decimal.Pos u \/ d = Decimal.Neg u) -> u <> Decimal.Nil) as Hnonnil.
  { intros u H [-> | ->] ->; vm_compute in H; discriminate. }
  destruct d as [u | u]; simpl.
  - rewrite !length_string_of_uint_zero.
    + apply DecimalFacts.nb_digits_unorm. exact (Hnonnil u Hd (or_introl eq_refl)).
    + exact (Hnonnil u Hd (or_introl eq_refl)).
    + apply DecimalFacts.unorm_nonnil.
  - pose proof (Hnonnil u Hd (or_intror eq_refl)) as Hu.
    rewrite (length_string_of_uint_zero u Hu).
    pose proof (DecimalFacts.nb_digits_nzhead u) as Hle.
    destruct (Decimal.nzhead u) eqn:E; simpl; try lia;
      rewrite <- ?E; rewrite length_string_of_uint; simpl in Hle; lia.
Qed.

(** C8: an integer literal is rendered without a decimal point, a float
    literal with one; either rendering reads back as the literal's number
    and is no longer than any text that does; the float literal [2.0] is
    rendered as [2.0], not as [2], which is the rendering of the integer
    [2]. *)
Theorem numeric_literals_shortest_round_trip :
  (forall z,
      contains_char "." (render_literal (LNumber z)) = false /\
      read_integer (render_literal (LNumber z)) = Some z /\
      forall text,
        read_integer text = Some z ->
        String.length (render_literal (LNumber z)) <= String.length text) /\
  (forall f,
      contains_char "." (render_literal (LFloat f)) = true /\
      (exists f', read_float (render_literal (LFloat f)) = Some f' /\ same_value f f') /\
      forall text f',
        read_float text = Some f' -> same_value f f' ->
        String.length (render_literal (LFloat f)) <= String.length text) /\
  render_literal (LFloat two_point_zero) = "2.0" /\
  render_literal (LFloat two_point_zero) <> "2" /\
  render_literal (LNumber 2) = "2".
Proof.
  split; [| split; [| split; [| split]]].
  - intros z. split; [apply js_of_Z_no_point |]. split; [apply read_integer_js_of_Z |].
    intros text. apply js_of_Z_shortest.
  - intros f. split; [apply render_float_point |]. split.
    + eexists. split; [apply read_render_float | apply render_normal_same_value].
    + intros text f'. apply render_float_shortest.
  - reflexivity.
  - discriminate.
  - reflexivity.
Qed.

Lemma numeric_literals_shortest_round_trip_witness :
  String.length (render_literal (LFloat two_point_zero)) <= String.length "2.00" /\
  String.length (render_literal (LNumber 7)) <= String.length "007".
Proof.
  split.
  - apply (proj2 (proj2 (proj1 (proj2 numeric_literals_shortest_round_trip) two_point_zero))
             "2.00" (mkFloat false [digit2] [digit0; digit0])).
    + reflexivity.
    + split; [reflexivity | reflexivity].
  - apply (proj2 (proj2 (proj1 numeric_literals_shortest_round_trip 7%Z)) "007").
    reflexivity.
Defined.
(** ** C9: the commas of a chord *)

Lemma chord_note_piece (vtc : Node -> string -> Z -> M string) block code i note st st' :
  vtc block ("Note" +:+ js_of_nat i) ORDER_ATOMIC st = Done note st' ->
  chord_note vtc block code i st = Done (code +:+ chord_piece i note) st'.
Proof.
  intros H. unfold chord_note, bind. rewrite H. unfold chord_piece.
  destruct (String.eqb note EmptyString); simpl.
  - rewrite append_empty_r. reflexivity.
  - destruct (1 <? i)%nat; reflexivity.
Qed.

Lemma chord_loop_text (vtc : Node -> string -> Z -> M string) block st n1 s1 n2 s2 n3 s3 n4 s4 :
  vtc block "Note1" ORDER_ATOMIC st = Done n1 s1 ->
  vtc block "Note2" ORDER_ATOMIC s1 = Done n2 s2 ->
  vtc block "Note3" ORDER_ATOMIC s2 = Done n3 s3 ->
  vtc block "Note4" ORDER_ATOMIC s3 = Done n4 s4 ->
  chord_loop vtc block "[" [1; 2; 3; 4]%nat st =
  Done ("[" +:+ chord_piece 1 n1 +:+ chord_piece 2 n2 +:+ chord_piece 3 n3 +:+ chord_piece 4 n4)
       s4.
Proof.
  intros H1 H2 H3 H4. simpl. unfold bind.
  rewrite (chord_note_piece vtc block _ 1 n1 st s1 H1).
  rewrite (chord_note_piece vtc block _ 2 n2 s1 s2 H2).
  rewrite (chord_note_piece vtc block _ 3 n3 s2 s3 H3).
  rewrite (chord_note_piece vtc block _ 4 n4 s3 s4 H4).
  rewrite !append_assoc. reflexivity.
Qed.

Lemma chord_piece_comma i note :
  1 < i -> note <> EmptyString -> chord_piece i note = "," +:+ note.
Proof.
  intros Hi Hnote. unfold chord_piece.
  destruct (String.eqb_spec note EmptyString) as [E | _]; [contradiction |].
  destruct (Nat.ltb_spec 1 i); [reflexivity | lia].
Qed.

Lemma chord_piece_empty i : chord_piece i EmptyString = EmptyString.
Proof. reflexivity. Qed.

Lemma js_of_Z_not_empty z : js_of_Z z <> EmptyString.
Proof.
  unfold js_of_Z. destruct (Z.to_int z) as [d | d]; simpl; [| discriminate].
  destruct d; simpl; discriminate.
Qed.

Lemma append_not_empty_r s c t : s +:+ String c t <> EmptyString.
Proof. destruct s; discriminate. Qed.

(** A note slot bound to a string literal, to a numeric literal or to
    another chord resolves to text that is not empty. *)
Lemma bound_note_text_not_empty fuel g stack node slotName consumerTier b st text tier st' :
  values node !! slotName = Some b ->
  (forall token, b <> Lit (LAtom token)) ->
  resolveValue fuel g stack node slotName consumerTier st = Done (text, tier) st' ->
  text <> EmptyString.
Proof.
  intros Hv Hb Hrun. rewrite resolveValue_unfold, Hv in Hrun.
  destruct b as [[s | z | f | token] | c].
  - apply ret_Done in Hrun as [[= -> _] _]. simpl. unfold dq. discriminate.
  - apply ret_Done in Hrun as [[= -> _] _]. apply js_of_Z_not_empty.
  - apply ret_Done in Hrun as [[= -> _] _]. simpl. intros H.
    pose proof (render_float_point f) as Hpoint. rewrite H in Hpoint. discriminate.
  - destruct (Hb token eq_refl).
  - destruct (bool_decide (c ∈ stack)); [discriminate |].
    destruct (g !! c) as [child |]; [| discriminate].
    destruct (lookup_value_kind (kind child)) as [generate |] eqn:Hk; [| discriminate].
    destruct fuel as [| fuel]; [discriminate |].
    apply bind_Done in Hrun as (r & s1 & Hgen & Hret).
    assert (r.1 <> EmptyString) as Hr.
    { unfold lookup_value_kind, value_kinds in Hk. simpl in Hk.
      destruct (String.eqb (kind child) "chord");
        [| destruct (String.eqb (kind child) "premade_chord"); [| discriminate]];
        injection Hk as <-; unfold chord, premade_chord in Hgen;
        apply bind_Done in Hgen as (code & s2 & _ & Hgen);
        apply ret_Done in Hgen as [-> _]; apply append_not_empty_r. }
    destruct r as [inner innerTier]. simpl in Hr, Hret.
    destruct (consumerTier <? innerTier)%Z; apply ret_Done in Hret as [[= -> _] _].
    + discriminate.
    + exact Hr.
Qed.

(** C9: the text of a [chord], and of a [premade_chord], is an opening
    bracket, then for each of Note1 .. Note4 in this order nothing when the
    note's text is empty and else the note's text, after a comma exactly
    when the note is not the first slot, then a closing bracket; earlier
    notes play no part in the comma.  So when Note1 resolves to empty text
    and a later note does not, the text begins with an opening bracket and
    a comma. *)
Theorem chord_comma_before_every_later_note :
  forall (vtc : Node -> string -> Z -> M string) block st n1 s1 n2 s2 n3 s3 n4 s4,
    vtc block "Note1" ORDER_ATOMIC st = Done n1 s1 ->
    vtc block "Note2" ORDER_ATOMIC s1 = Done n2 s2 ->
    vtc block "Note3" ORDER_ATOMIC s2 = Done n3 s3 ->
    vtc block "Note4" ORDER_ATOMIC s3 = Done n4 s4 ->
    chord vtc block st = Done (chord_text n1 n2 n3 n4, ORDER_ATOMIC) s4 /\
    premade_chord vtc block st = Done (chord_text n1 n2 n3 n4, ORDER_ATOMIC) s4 /\
    (n1 = EmptyString ->
     n2 <> EmptyString \/ n3 <> EmptyString \/ n4 <> EmptyString ->
     String.prefix "[," (chord_text n1 n2 n3 n4) = true).
Proof.
  intros vtc block st n1 s1 n2 s2 n3 s3 n4 s4 H1 H2 H3 H4.
  pose proof (chord_loop_text vtc block st n1 s1 n2 s2 n3 s3 n4 s4 H1 H2 H3 H4) as Hloop.
  split; [| split].
  - unfold chord, bind. rewrite Hloop. unfold chord_text. rewrite !append_assoc. reflexivity.
  - unfold premade_chord, bind. rewrite Hloop. unfold chord_text. rewrite !append_assoc.
    reflexivity.
  - intros -> Hlater. unfold chord_text. rewrite chord_piece_empty, append_empty_l.
    destruct (String.eqb_spec n2 EmptyString) as [-> | Hn2].
    + rewrite chord_piece_empty, append_empty_l.
      destruct (String.eqb_spec n3 EmptyString) as [-> | Hn3].
      * rewrite chord_piece_empty, append_empty_l.
        destruct Hlater as [H | [H | H]]; try (destruct H; reflexivity).
        rewrite (chord_piece_comma 4 n4) by (lia || exact H).
        apply (prefix_append "[,").
      * rewrite (chord_piece_comma 3 n3) by (lia || exact Hn3).
        rewrite append_assoc. apply (prefix_append "[,").
    + rewrite (chord_piece_comma 2 n2) by (lia || exact Hn2).
      rewrite append_assoc. apply (prefix_append "[,").
Qed.

(** A chord whose Note1 is unbound and whose Note3 is the note G4. *)
Lemma chord_comma_before_every_later_note_witness :
  chord (valueToCode 0 ∅ 0)
        {| kind := "chord"; values := {[ "Note3" := Lit (LString "G4") ]};
           statements := ∅; next := None; fields := ∅ |} fresh_context
    = Done (chord_text EmptyString EmptyString (dq +:+ "G4" +:+ dq) EmptyString, ORDER_ATOMIC)
           fresh_context /\
  premade_chord (valueToCode 0 ∅ 0)
        {| kind := "chord"; values := {[ "Note3" := Lit (LString "G4") ]};
           statements := ∅; next := None; fields := ∅ |} fresh_context
    = Done (chord_text EmptyString EmptyString (dq +:+ "G4" +:+ dq) EmptyString, ORDER_ATOMIC)
           fresh_context /\
  String.prefix "[," (chord_text EmptyString EmptyString (dq +:+ "G4" +:+ dq) EmptyString)
    = true.
Proof.
  destruct (chord_comma_before_every_later_note (valueToCode 0 ∅ 0)
              {| kind := "chord"; values := {[ "Note3" := Lit (LString "G4") ]};
                 statements := ∅; next := None; fields := ∅ |}
              fresh_context
              EmptyString fresh_context EmptyString fresh_context
              (dq +:+ "G4" +:+ dq) fresh_context EmptyString fresh_context)
    as (Hchord & Hpremade & Hcomma); try (vm_compute; reflexivity).
  split; [exact Hchord |]. split; [exact Hpremade |].
  apply (Hcomma eq_refl). right. left. vm_compute. discriminate.
Defined.

(** The text of that chord begins with a bracket and a comma. *)
Example chord_leading_comma :
  chord_text EmptyString EmptyString (dq +:+ "G4" +:+ dq) EmptyString
  = "[," +:+ dq +:+ "G4" +:+ dq +:+ "]".
Proof. vm_compute. reflexivity. Qed.

(** ** C10: the style of a drum sample *)

Lemma prefix_true pat s : String.prefix pat s = true -> exists post, s = pat +:+ post.
Proof.
  revert s. induction pat as [| c pat IH]; intros s H.
  - exists s. reflexivity.
  - destruct s as [| c' s]; simpl in H; [discriminate |].
    destruct (ascii_dec c c') as [<- | _]; [| discriminate].
    apply IH in H as (post & ->). exists post. reflexivity.
Qed.

Lemma string_drop_append pat post : string_drop (String.length pat) (pat +:+ post) = post.
Proof. induction pat as [| c pat IH]; [reflexivity | exact IH]. Qed.

Lemma js_replace_unfold s pat rep :
  js_replace s pat rep =
  if String.prefix pat s then rep +:+ string_drop (String.length pat) s
  else match s with
       | EmptyString => EmptyString
       | String c s' => String c (js_replace s' pat rep)
       end.
Proof. destruct s; reflexivity. Qed.

Lemma js_replace_cons c s pat rep :
  String.prefix pat (String c s) = false ->
  js_replace (String c s) pat rep = String c (js_replace s pat rep).
Proof. intros H. rewrite js_replace_unfold, H. reflexivity. Qed.

Lemma occurs_at_cons pat c s n : occurs_at pat s n -> occurs_at pat (String c s) (S n).
Proof.
  intros (pre & post & -> & <-). exists (String c pre), post. split; reflexivity.
Qed.

Lemma prefix_occurs pat s : String.prefix pat s = true -> occurs_at pat s 0.
Proof.
  intros H. apply prefix_true in H as (post & ->). exists EmptyString, post.
  split; reflexivity.
Qed.

(** The first occurrence of the pattern is the one replaced. *)
Lemma js_replace_first pat rep pre post :
  (forall m, occurs_at pat (pre +:+ pat +:+ post) m -> String.length pre <= m) ->
  js_replace (pre +:+ pat +:+ post) pat rep = pre +:+ rep +:+ post.
Proof.
  induction pre as [| c pre IH]; intros Hfirst.
  - rewrite !append_empty_l.
    assert (js_replace (pat +:+ post) pat rep
            = rep +:+ string_drop (String.length pat) (pat +:+ post)) as ->.
    { rewrite js_replace_unfold, prefix_append. reflexivity. }
    rewrite string_drop_append. reflexivity.
  - rewrite !append_cons.
    destruct (String.prefix pat (String c (pre +:+ pat +:+ post))) eqn:Hp.
    + apply prefix_occurs in Hp. rewrite <- append_cons in Hp.
      apply Hfirst in Hp. simpl in Hp. lia.
    + rewrite (js_replace_cons _ _ _ _ Hp). f_equal. apply IH.
      intros m Hm. apply (occurs_at_cons _ c) in Hm. rewrite <- append_cons in Hm.
      apply Hfirst in Hm. simpl in Hm. lia.
Qed.

(** Without an occurrence of the pattern nothing is replaced. *)
Lemma js_replace_absent pat rep s :
  (forall n, ~ occurs_at pat s n) -> js_replace s pat rep = s.
Proof.
  induction s as [| c s IH]; intros Habsent.
  - rewrite js_replace_unfold. destruct (String.prefix pat EmptyString) eqn:Hp; [| reflexivity].
    destruct (Habsent 0 (prefix_occurs _ _ Hp)).
  - destruct (String.prefix pat (String c s)) eqn:Hp.
    + destruct (Habsent 0 (prefix_occurs _ _ Hp)).
    + rewrite (js_replace_cons _ _ _ _ Hp). f_equal. apply IH.
      intros n Hn. exact (Habsent (S n) (occurs_at_cons _ c _ _ Hn)).
Qed.

(** C10: the line of a [trigger_drum] is [trigger_sample(S)] and a line
    feed, where [S] is the SAMPLE value with its first occurrence of the
    text soft replaced by the STYLE value; a SAMPLE value in which soft
    does not occur, as in the two hi-hat samples, is printed unchanged
    whatever the style. *)
Theorem trigger_drum_replaces_first_soft :
  forall block sample style st,
    fields block !! "SAMPLE" = Some sample ->
    fields block !! "STYLE" = Some style ->
    style ∈ drum_styles ->
    trigger_drum block st
      = Done ("trigger_sample(" +:+ js_replace sample "soft" style +:+ ")" +:+ nl) st /\
    (forall pre post,
        sample = pre +:+ "soft" +:+ post ->
        first_occurrence "soft" sample (String.length pre) ->
        js_replace sample "soft" style = pre +:+ style +:+ post) /\
    ((forall n, ~ occurs_at "soft" sample n) -> js_replace sample "soft" style = sample) /\
    (sample = ":drum_cymbal_open" \/ sample = ":drum_cymbal_closed" ->
     js_replace sample "soft" style = sample).
Proof.
  intros block sample style st Hsample Hstyle _.
  split; [| split; [| split]].
  - unfold trigger_drum, getFieldValue. rewrite Hsample, Hstyle. reflexivity.
  - intros pre post -> [_ Hfirst]. apply js_replace_first. exact Hfirst.
  - apply js_replace_absent.
  - intros [-> | ->]; vm_compute; reflexivity.
Qed.

(** In the snare sample the text soft first occurs at offset 12. *)
Lemma snare_first_soft : first_occurrence "soft" ":drum_snare_soft" 12.
Proof.
  split.
  - exists ":drum_snare_", EmptyString. split; reflexivity.
  - intros m (pre & post & E & <-).
    do 12 (destruct pre as [| ? pre];
           [vm_compute in E; discriminate E | rewrite append_cons in E; injection E as _ E]).
    simpl. lia.
Defined.

Lemma trigger_drum_replaces_first_soft_witness :
  trigger_drum {| kind := "trigger_drum"; values := ∅; statements := ∅; next := None;
                  fields := <[ "SAMPLE" := ":drum_snare_soft" ]> {[ "STYLE" := "hard" ]} |}
               fresh_context
    = Done ("trigger_sample(" +:+ js_replace ":drum_snare_soft" "soft" "hard" +:+ ")" +:+ nl)
           fresh_context /\
  js_replace ":drum_snare_soft" "soft" "hard" = ":drum_snare_" +:+ "hard" +:+ EmptyString.
Proof.
  destruct (trigger_drum_replaces_first_soft
              {| kind := "trigger_drum"; values := ∅; statements := ∅; next := None;
                 fields := <[ "SAMPLE" := ":drum_snare_soft" ]> {[ "STYLE" := "hard" ]} |}
              ":drum_snare_soft" "hard" fresh_context) as (Hline & Hfirst & _).
  - reflexivity.
  - reflexivity.
  - compute_done.
  - split; [exact Hline |].
    apply (Hfirst ":drum_snare_" EmptyString eq_refl). exact snare_first_soft.
Defined.

(** The eight samples of the dropdown under either style. *)
Example drum_samples_hard :
  map (fun sample => js_replace sample "soft" "hard") drum_samples =
  [ ":drum_bass_hard"; ":drum_snare_hard"; ":drum_tom_lo_hard"; ":drum_tom_hi_hard";
    ":drum_splash_hard"; ":drum_cymbal_hard"; ":drum_cymbal_open"; ":drum_cymbal_closed" ].
Proof. vm_compute. reflexivity. Qed.

Example drum_samples_soft :
  map (fun sample => js_replace sample "soft" "soft") drum_samples = drum_samples.
Proof. vm_compute. reflexivity. Qed.

(** * Further properties of music.js *)

(** ** Line feeds *)

Lemma ends_with_nl_nl : ends_with_nl nl.
Proof. exists EmptyString. reflexivity. Qed.

Lemma ends_with_nl_append s t : ends_with_nl t -> ends_with_nl (s +:+ t).
Proof. intros (line & ->). exists (s +:+ line). symmetry. apply append_assoc. Qed.

Lemma ends_with_nl_not_empty s : ends_with_nl s -> s <> EmptyString.
Proof. intros (line & ->). unfold nl. apply append_not_empty_r. Qed.

Lemma returns_line_ret s : ends_with_nl s -> returns_line (ret s).
Proof. intros H st text st' E. apply ret_Done in E as [-> _]. exact H. Qed.

Lemma returns_line_bind {A : Type} (m : M A) (f : A -> M string) :
  (forall a, returns_line (f a)) -> returns_line (bind m f).
Proof.
  intros Hf st text st' E. apply bind_Done in E as (a & s1 & _ & E). exact (Hf a _ _ _ E).
Qed.

Lemma returns_line_throw e : returns_line (throw e).
Proof. intros st text st'. discriminate. Qed.

Ltac solve_line :=
  repeat first [ apply returns_line_bind; intro
               | apply returns_line_throw
               | apply returns_line_ret
               | apply ends_with_nl_nl
               | apply ends_with_nl_append ].

Lemma statement_kinds_return_lines :
  Forall (fun e : string * statement_generator =>
            e.1 <> "play_chord_progression" ->
            forall vtc stc n, returns_line (e.2 vtc stc n)) statement_kinds.
Proof.
  table_cases; intros Hk vtc stc n; unfold_generators;
    try (destruct Hk; reflexivity); solve_line.
Qed.

(** X1: whatever its value inputs and nested chains give, the text that a
    statement generator of music.js returns is not empty and ends with a
    line feed, so that the texts of a chain can be put one after the
    other; the one exception is [play_chord_progression]. *)
Theorem statement_text_ends_with_line_feed :
  forall k generate vtc stc block st text st',
    lookup_statement_kind k = Some generate ->
    k <> "play_chord_progression" ->
    generate vtc stc block st = Done text st' ->
    text <> EmptyString /\ exists line, text = line +:+ nl.
Proof.
  intros k generate vtc stc block st text st' Hk Hne Hrun.
  pose proof (table_lookup _ _ _ _ statement_kinds_return_lines Hk Hne vtc stc block
                _ _ _ Hrun) as Hline.
  split; [apply ends_with_nl_not_empty |]; exact Hline.
Qed.

Lemma statement_text_ends_with_line_feed_witness :
  "with_fx(:echo)" +:+ nl +:+ "do" +:+ nl +:+ "BODY" +:+ nl +:+ "end" +:+ nl <> EmptyString /\
  exists line,
    "with_fx(:echo)" +:+ nl +:+ "do" +:+ nl +:+ "BODY" +:+ nl +:+ "end" +:+ nl = line +:+ nl.
Proof.
  apply (statement_text_ends_with_line_feed "with_fx" (fun _ s => with_fx s)
           (fun _ _ _ => ret EmptyString) (fun _ _ => ret "BODY")
           {| kind := "with_fx"; values := ∅; statements := ∅; next := None;
              fields := {[ "EFFECT" := ":echo" ]} |}
           fresh_context _ fresh_context).
  - reflexivity.
  - discriminate.
  - vm_compute. reflexivity.
Defined.

(** The exception: a [play_chord_progression] with an empty body returns
    empty text. *)
Example play_chord_progression_empty :
  play_chord_progression (fun _ _ _ => ret EmptyString) (fun _ _ => ret EmptyString)
    (bare "play_chord_progression") fresh_context
  = Done EmptyString fresh_context.
Proof. reflexivity. Qed.

(** ** Who writes the generation context *)

Section Preserves.

Context {A B : Type} (P : GenCtx -> Prop).

Lemma preserves_ret (a : A) : preserves P (ret a).
Proof. intros st a' st' HP E. apply ret_Done in E as [_ ->]. exact HP. Qed.

Lemma preserves_bind (m : M A) (f : A -> M B) :
  preserves P m -> (forall a, preserves P (f a)) -> preserves P (bind m f).
Proof.
  intros Hm Hf st b st' HP E. apply bind_Done in E as (a & s1 & E1 & E2).
  exact (Hf a _ _ _ (Hm _ _ _ HP E1) E2).
Qed.

Lemma preserves_throw (e : error) : preserves P (@throw A e).
Proof. intros st a st' HP E. discriminate. Qed.

Lemma preserves_if (b : bool) (m1 m2 : M A) :
  preserves P m1 -> preserves P m2 -> preserves P (if b then m1 else m2).
Proof. destruct b; auto. Qed.

End Preserves.

Lemma preserves_macros_set_context (Q : list string -> Prop) tag :
  preserves (fun st => Q (macros_ st)) (set_context tag).
Proof. intros st u st' HQ E. apply set_context_Done in E as ->. exact HQ. Qed.

Ltac solve_preserves :=
  repeat first [ apply preserves_bind; [| intro] | apply preserves_if
               | apply preserves_ret | apply preserves_throw
               | apply preserves_macros_set_context
               | solve [auto] ].

Lemma statement_kinds_write_nothing :
  Forall (fun e : string * statement_generator =>
            e.1 ∉ scope_defining ->
            forall P vtc stc n,
              (forall slot tier, preserves P (vtc n slot tier)) ->
              (forall slot, preserves P (stc n slot)) ->
              preserves P (e.2 vtc stc n)) statement_kinds.
Proof.
  table_cases; intros Hk P vtc stc n Hv Hs; unfold_generators;
    try (destruct Hk; compute_done); solve_preserves.
Qed.

Lemma value_kinds_write_nothing :
  Forall (fun e : string * value_generator =>
            forall P vtc n,
              (forall slot tier, preserves P (vtc n slot tier)) ->
              preserves P (e.2 vtc n)) value_kinds.
Proof. table_cases; intros P vtc n Hv; unfold_generators; solve_preserves. Qed.

Lemma statement_kinds_hoist_nothing :
  Forall (fun e : string * statement_generator =>
            e.1 <> "defmotif" ->
            forall (Q : list string -> Prop) vtc stc n,
              (forall slot tier, preserves (fun st => Q (macros_ st)) (vtc n slot tier)) ->
              (forall slot, preserves (fun st => Q (macros_ st)) (stc n slot)) ->
              preserves (fun st => Q (macros_ st)) (e.2 vtc stc n)) statement_kinds.
Proof.
  table_cases; intros Hk Q vtc stc n Hv Hs; unfold_generators;
    try (destruct Hk; reflexivity); solve_preserves.
Qed.

(** X2: the generators of music.js other than the four scope-setting ones
    ([defmotif], [play_chord_progression], [play_in_key],
    [trigger_sample]) never write the generation context themselves:
    whatever holds of the context before the run and is kept by the value
    inputs and nested chains still holds after it.  So a [with_fx], unlike
    a [play_in_key], compiles its body under the scope tag it finds and
    hands that tag on. *)
Theorem plain_generators_write_no_context :
  forall k generate (P : GenCtx -> Prop) vtc stc block st text st',
    lookup_statement_kind k = Some generate ->
    k ∉ scope_defining ->
    (forall slot tier, preserves P (vtc block slot tier)) ->
    (forall slot, preserves P (stc block slot)) ->
    P st ->
    generate vtc stc block st = Done text st' ->
    P st'.
Proof.
  intros k generate P vtc stc block st text st' Hk Hplain Hv Hs HP Hrun.
  exact (table_lookup _ _ _ _ statement_kinds_write_nothing Hk Hplain P vtc stc block Hv Hs
           _ _ _ HP Hrun).
Qed.

Lemma plain_generators_write_no_context_witness :
  context in_music_scope = Some ":music".
Proof.
  apply (plain_generators_write_no_context "with_fx" (fun _ s => with_fx s)
           (fun st => context st = Some ":music")
           (fun _ _ _ => ret EmptyString) (fun _ _ => ret "BODY")
           {| kind := "with_fx"; values := ∅; statements := ∅; next := None;
              fields := {[ "EFFECT" := ":echo" ]} |}
           in_music_scope
           ("with_fx(:echo)" +:+ nl +:+ "do" +:+ nl +:+ "BODY" +:+ nl +:+ "end" +:+ nl)
           in_music_scope).
  - reflexivity.
  - compute_done.
  - intros slot tier. apply preserves_ret.
  - intros slot. apply preserves_ret.
  - reflexivity.
  - vm_compute. reflexivity.
Defined.

(** X3: [defmotif] is the only generator of music.js that adds to the
    macro accumulator: for every other statement generator, whatever
    holds of the accumulated macros before the run and is kept by the
    value inputs and nested chains still holds after it, although three
    of them reset the scope tag. *)
Theorem only_defmotif_hoists :
  forall k generate (Q : list string -> Prop) vtc stc block st text st',
    lookup_statement_kind k = Some generate ->
    k <> "defmotif" ->
    (forall slot tier, preserves (fun s => Q (macros_ s)) (vtc block slot tier)) ->
    (forall slot, preserves (fun s => Q (macros_ s)) (stc block slot)) ->
    Q (macros_ st) ->
    generate vtc stc block st = Done text st' ->
    Q (macros_ st').
Proof.
  intros k generate Q vtc stc block st text st' Hk Hne Hv Hs HQ Hrun.
  exact (table_lookup _ _ _ _ statement_kinds_hoist_nothing Hk Hne Q vtc stc block Hv Hs
           _ _ _ HQ Hrun).
Qed.

Lemma only_defmotif_hoists_witness :
  macros_ fresh_context = [].
Proof.
  apply (only_defmotif_hoists "play_in_key" (fun _ s => play_in_key s)
           (fun macros => macros = [])
           (fun _ _ _ => ret EmptyString) (fun _ _ => ret "BODY")
           scope_outer in_music_scope
           ("play_in_key(" +:+ dq +:+ "C" +:+ dq +:+ "," +:+ dq +:+ "Major" +:+ dq +:+ ") do"
              +:+ nl +:+ "BODY" +:+ nl +:+ "end" +:+ nl)
           fresh_context).
  - reflexivity.
  - discriminate.
  - intros slot tier. apply preserves_ret.
  - intros slot. apply (preserves_ret (fun s => macros_ s = [])).
  - reflexivity.
  - vm_compute. reflexivity.
Defined.

(** ** When a chord is a well-formed list *)

Lemma chord_text_cases n1 n2 n3 n4 :
  (chord_text n1 n2 n3 n4 = "[" +:+ js_join "," (non_empty [n1; n2; n3; n4]) +:+ "]") <->
  (n1 <> EmptyString \/ (n2 = EmptyString /\ n3 = EmptyString /\ n4 = EmptyString)).
Proof.
  unfold chord_text, chord_piece, non_empty.
  destruct n1 as [| c1 n1], n2 as [| c2 n2], n3 as [| c3 n3], n4 as [| c4 n4];
    cbn [List.filter String.eqb negb Nat.ltb Nat.leb js_join];
    repeat first [ rewrite append_empty_l | rewrite append_cons | rewrite append_assoc ].
  all: split;
    [ intros E;
      first [ left; discriminate
            | right; repeat split; reflexivity
            | exfalso; apply (f_equal String.length) in E;
              repeat (rewrite ?length_append in E; cbn [String.length] in E); lia ]
    | intros [H | (H2 & H3 & H4)];
      first [ reflexivity
            | destruct H; reflexivity
            | discriminate ] ].
Qed.

(** X4: the text of a [chord] (and of a [premade_chord]) is the bracketed,
    comma-separated list of its non-empty note texts, as an array join
    would print it, exactly when Note1 is not empty or every later note is
    empty; in particular four empty notes give the empty list. *)
Theorem chord_is_joined_list_iff_first_note :
  forall (vtc : Node -> string -> Z -> M string) block st n1 s1 n2 s2 n3 s3 n4 s4,
    vtc block "Note1" ORDER_ATOMIC st = Done n1 s1 ->
    vtc block "Note2" ORDER_ATOMIC s1 = Done n2 s2 ->
    vtc block "Note3" ORDER_ATOMIC s2 = Done n3 s3 ->
    vtc block "Note4" ORDER_ATOMIC s3 = Done n4 s4 ->
    exists text,
      chord vtc block st = Done (text, ORDER_ATOMIC) s4 /\
      premade_chord vtc block st = Done (text, ORDER_ATOMIC) s4 /\
      (text = "[" +:+ js_join "," (non_empty [n1; n2; n3; n4]) +:+ "]" <->
       (n1 <> EmptyString \/ (n2 = EmptyString /\ n3 = EmptyString /\ n4 = EmptyString))) /\
      (n1 = EmptyString -> n2 = EmptyString -> n3 = EmptyString -> n4 = EmptyString ->
       text = "[]").
Proof.
  intros vtc block st n1 s1 n2 s2 n3 s3 n4 s4 H1 H2 H3 H4.
  pose proof (chord_loop_text vtc block st n1 s1 n2 s2 n3 s3 n4 s4 H1 H2 H3 H4) as Hloop.
  exists (chord_text n1 n2 n3 n4). split; [| split; [| split]].
  - unfold chord, bind. rewrite Hloop. unfold chord_text. rewrite !append_assoc. reflexivity.
  - unfold premade_chord, bind. rewrite Hloop. unfold chord_text. rewrite !append_assoc.
    reflexivity.
  - apply chord_text_cases.
  - intros -> -> -> ->. reflexivity.
Qed.

Lemma chord_is_joined_list_iff_first_note_witness :
  exists text,
    chord (valueToCode 0 ∅ 0) tempo_chord fresh_context = Done (text, ORDER_ATOMIC) fresh_context /\
    text = "[" +:+ js_join "," [dq +:+ "C4" +:+ dq; dq +:+ "E4" +:+ dq] +:+ "]".
Proof.
  destruct (chord_is_joined_list_iff_first_note (valueToCode 0 ∅ 0) tempo_chord fresh_context
              (dq +:+ "C4" +:+ dq) fresh_context (dq +:+ "E4" +:+ dq) fresh_context
              EmptyString fresh_context EmptyString fresh_context)
    as (text & Hchord & _ & Hjoin & _); try (vm_compute; reflexivity).
  exists text. split; [exact Hchord |].
  apply Hjoin. left. vm_compute. discriminate.
Defined.

(** ** The soft style *)

Lemma js_replace_same s pat : js_replace s pat pat = s.
Proof.
  induction s as [| c s IH]; rewrite js_replace_unfold.
  - destruct (String.prefix pat EmptyString) eqn:Hp; [| reflexivity].
    apply prefix_true in Hp as (post & Hp). rewrite Hp at 2.
    rewrite Hp, string_drop_append. reflexivity.
  - destruct (String.prefix pat (String c s)) eqn:Hp.
    + apply prefix_true in Hp as (post & Hp). rewrite Hp, string_drop_append. reflexivity.
    + rewrite IH. reflexivity.
Qed.

(** X5: with the STYLE soft, a [trigger_drum] prints its SAMPLE value as
    it is, whatever that value is. *)
Theorem trigger_drum_soft_prints_sample :
  forall block sample st,
    fields block !! "SAMPLE" = Some sample ->
    fields block !! "STYLE" = Some "soft" ->
    trigger_drum block st = Done ("trigger_sample(" +:+ sample +:+ ")" +:+ nl) st.
Proof.
  intros block sample st Hsample Hstyle.
  unfold trigger_drum, getFieldValue. rewrite Hsample, Hstyle. simpl.
  rewrite js_replace_same. reflexivity.
Qed.

Lemma trigger_drum_soft_prints_sample_witness :
  trigger_drum {| kind := "trigger_drum"; values := ∅; statements := ∅; next := None;
                  fields := <[ "SAMPLE" := ":drum_tom_lo_soft" ]> {[ "STYLE" := "soft" ]} |}
               fresh_context
  = Done ("trigger_sample(" +:+ ":drum_tom_lo_soft" +:+ ")" +:+ nl) fresh_context.
Proof.
  apply trigger_drum_soft_prints_sample; reflexivity.
Defined.

(** * Properties of field_image.js *)

(** ** Finding and splitting *)

Lemma find_first_unfold pat s :
  find_first pat s =
  if String.prefix pat s then Some 0%nat
  else match s with
       | EmptyString => None
       | String _ s' => option_map S (find_first pat s')
       end.
Proof. destruct s; reflexivity. Qed.

Lemma occurs_at_0_prefix pat s : occurs_at pat s 0 -> String.prefix pat s = true.
Proof.
  intros (pre & post & -> & Hlen). destruct pre; [| discriminate].
  rewrite append_empty_l. apply prefix_append.
Qed.

Lemma occurs_at_S pat c s n : occurs_at pat (String c s) (S n) -> occurs_at pat s n.
Proof.
  intros (pre & post & E & Hlen). destruct pre as [| c' pre]; [discriminate |].
  rewrite append_cons in E. injection E as _ ->. simpl in Hlen. injection Hlen as <-.
  exists pre, post. split; reflexivity.
Qed.

Lemma find_first_none pat s : find_first pat s = None -> forall n, ~ occurs_at pat s n.
Proof.
  induction s as [| c s IH]; rewrite find_first_unfold;
    destruct (String.prefix pat _) eqn:Hp; try discriminate; intros Hf n Hocc.
  - destruct Hocc as (pre & post & E & _).
    destruct pre; [| discriminate]. rewrite append_empty_l in E.
    rewrite E, prefix_append in Hp. discriminate.
  - destruct n as [| n].
    + apply occurs_at_0_prefix in Hocc. congruence.
    + destruct (find_first pat s); [discriminate |].
      exact (IH eq_refl n (occurs_at_S _ _ _ _ Hocc)).
Qed.

Lemma find_first_some pat s n : find_first pat s = Some n -> first_occurrence pat s n.
Proof.
  revert n. induction s as [| c s IH]; intros n; rewrite find_first_unfold;
    destruct (String.prefix pat _) eqn:Hp; try discriminate.
  - intros [= <-]. split; [apply prefix_occurs; exact Hp | intros; lia].
  - intros [= <-]. split; [apply prefix_occurs; exact Hp | intros; lia].
  - destruct (find_first pat s) as [k |] eqn:Hk; [| discriminate].
    intros [= <-]. destruct (IH k eq_refl) as [Hocc Hmin]. split.
    + apply occurs_at_cons. exact Hocc.
    + intros m Hm. destruct m as [| m].
      * apply occurs_at_0_prefix in Hm. congruence.
      * apply occurs_at_S in Hm. apply Hmin in Hm. lia.
Qed.

Lemma js_split_from_unfold fuel sep s piece :
  js_split_from (S fuel) sep s piece =
  match s with
  | EmptyString => [piece]
  | String c s' =>
      if String.prefix sep s
      then piece :: js_split_from fuel sep (string_drop (String.length sep) s) EmptyString
      else js_split_from fuel sep s' (piece +:+ String c EmptyString)
  end.
Proof. reflexivity. Qed.

(** A text without the separator is one piece. *)
Lemma js_split_from_absent sep s :
  (forall n, ~ occurs_at sep s n) ->
  forall fuel piece, String.length s <= fuel -> js_split_from fuel sep s piece = [piece +:+ s].
Proof.
  induction s as [| c s IH]; intros Habsent fuel piece Hfuel.
  - destruct fuel; [reflexivity |]. rewrite js_split_from_unfold, append_empty_r. reflexivity.
  - destruct fuel as [| fuel]; [simpl in Hfuel; lia |]. rewrite js_split_from_unfold.
    destruct (String.prefix sep (String c s)) eqn:Hp.
    + destruct (Habsent 0%nat (prefix_occurs _ _ Hp)).
    + rewrite IH.
      * rewrite append_assoc. reflexivity.
      * intros n Hn. exact (Habsent (S n) (occurs_at_cons _ c _ _ Hn)).
      * simpl in Hfuel. lia.
Qed.

(** The text before the first separator is the first piece. *)
Lemma js_split_from_first sep pre post :
  sep <> EmptyString ->
  (forall m, occurs_at sep (pre +:+ sep +:+ post) m -> String.length pre <= m) ->
  forall fuel piece,
    String.length (pre +:+ sep +:+ post) <= fuel ->
    js_split_from fuel sep (pre +:+ sep +:+ post) piece =
    (piece +:+ pre) :: js_split_from (fuel - String.length pre - 1) sep post EmptyString.
Proof.
  intros Hsep. induction pre as [| c pre IH]; intros Hfirst fuel piece Hfuel.
  - rewrite append_empty_l in *. rewrite append_empty_r.
    destruct sep as [| c sep]; [contradiction |]. rewrite append_cons in *.
    destruct fuel as [| fuel]; [simpl in Hfuel; lia |].
    rewrite js_split_from_unfold. rewrite <- append_cons.
    rewrite prefix_append, string_drop_append. simpl. rewrite Nat.sub_0_r. reflexivity.
  - rewrite !append_cons in *.
    destruct fuel as [| fuel]; [simpl in Hfuel; lia |].
    rewrite js_split_from_unfold.
    destruct (String.prefix sep (String c (pre +:+ sep +:+ post))) eqn:Hp.
    + apply prefix_occurs, Hfirst in Hp. simpl in Hp. lia.
    + rewrite IH.
      * rewrite append_assoc. reflexivity.
      * intros m Hm. apply (occurs_at_cons _ c) in Hm. apply Hfirst in Hm. simpl in Hm. lia.
      * simpl in Hfuel. lia.
Qed.

Lemma picked_file_name_found pre name :
  first_occurrence FieldImage.fakepath (pre +:+ FieldImage.fakepath +:+ name)
    (String.length pre) ->
  (forall n, ~ occurs_at FieldImage.fakepath name n) ->
  js_split (pre +:+ FieldImage.fakepath +:+ name) FieldImage.fakepath = [pre; name].
Proof.
  intros [_ Hfirst] Habsent.
  assert (FieldImage.fakepath <> EmptyString) as Hsep by discriminate.
  unfold js_split. rewrite (js_split_from_first _ _ _ Hsep Hfirst) by lia.
  rewrite append_empty_l. f_equal.
  rewrite (js_split_from_absent _ _ Habsent); [reflexivity |].
  rewrite !length_append. unfold FieldImage.fakepath. simpl String.length. lia.
Qed.

(** X6: the file name that [updateSampleBlock] takes from the value of the
    file picker is what follows the first [C:\fakepath\] when the rest
    holds no further one, whatever comes before it, and it is [undefined]
    when the value holds no [C:\fakepath\] at all, as for a value that is
    empty or a plain name. *)
Theorem picked_file_name_after_fakepath :
  forall value,
    ((forall n, ~ occurs_at FieldImage.fakepath value n) ->
     FieldImage.picked_file_name value = None) /\
    (forall pre name,
        value = pre +:+ FieldImage.fakepath +:+ name ->
        first_occurrence FieldImage.fakepath value (String.length pre) ->
        (forall n, ~ occurs_at FieldImage.fakepath name n) ->
        js_split value FieldImage.fakepath = [pre; name] /\
        FieldImage.picked_file_name value = Some name).
Proof.
  intros value. split.
  - intros Habsent. unfold FieldImage.picked_file_name, js_split.
    rewrite (js_split_from_absent _ _ Habsent) by lia. reflexivity.
  - intros pre name -> Hfirst Habsent.
    pose proof (picked_file_name_found pre name Hfirst Habsent) as Hsplit.
    split; [exact Hsplit |]. unfold FieldImage.picked_file_name. rewrite Hsplit. reflexivity.
Qed.

Lemma picked_file_name_after_fakepath_witness :
  FieldImage.picked_file_name "kick.wav" = None /\
  js_split "C:\fakepath\kick.wav" FieldImage.fakepath = [EmptyString; "kick.wav"] /\
  FieldImage.picked_file_name "C:\fakepath\kick.wav" = Some "kick.wav".
Proof.
  split.
  - apply (proj1 (picked_file_name_after_fakepath "kick.wav")).
    apply find_first_none. vm_compute. reflexivity.
  - apply (proj2 (picked_file_name_after_fakepath "C:\fakepath\kick.wav")
             EmptyString "kick.wav").
    + reflexivity.
    + apply find_first_some. vm_compute. reflexivity.
    + apply find_first_none. vm_compute. reflexivity.
Defined.

(** ** The image field *)

Section ImageField.

Import FieldImage.

Variable createSvgElement : string -> gmap string string -> Element.
Variable GECKO : bool.
Variable INLINE_PADDING_Y : Z.
Variable visible_ : bool.

Local Abbreviation my_init := (FieldImage.my_init createSvgElement GECKO visible_).
Local Abbreviation init := (FieldImage.init createSvgElement GECKO visible_).
Local Abbreviation step := (FieldImage.step createSvgElement GECKO visible_).
Local Abbreviation run := (FieldImage.run createSvgElement GECKO visible_).

Lemma href_if src : (if isString src then href_of src else EmptyString) = href_of src.
Proof. destruct src; reflexivity. Qed.

Lemma setValue_src src f :
  src_ (setValue src f) = match src with JNull => src_ f | _ => src end.
Proof. destruct src; simpl; try reflexivity; destruct (imageElement_ f); reflexivity. Qed.

Lemma setValue_synced src f : synced f -> synced (setValue src f).
Proof.
  intros [Hsrc Hhref]. destruct f as [sb h w sz txt cur grp [image |] rect click parent];
    destruct src as [| | s]; split; simpl in *; try assumption; try discriminate;
      intros image' [= <-]; simpl; apply lookup_insert_eq.
Qed.

Lemma setValue_static src f :
  sourceBlock_ (setValue src f) = sourceBlock_ f /\
  clickEventListener (setValue src f) = clickEventListener f /\
  parentBlock (setValue src f) = parentBlock f /\
  rectElement_ (setValue src f) = rectElement_ f /\
  fieldGroup_ (setValue src f) = fieldGroup_ f /\
  (is_Some (imageElement_ (setValue src f)) <-> is_Some (imageElement_ f)).
Proof.
  destruct src; simpl; repeat split; try reflexivity; try (intros H; exact H);
    destruct (imageElement_ f) eqn:E; simpl; try reflexivity; try rewrite E; eauto.
Qed.

Lemma init_fresh block f events :
  sourceBlock_ f = None ->
  exists group image rect,
    init block (f, events) =
      (mkField (Some block) (height_ f) (width_ f) (size_ f) (text_ f) (src_ f)
               (Some group) (Some image) rect (clickEventListener f) (parentBlock f),
       events ++ [AppendedToBlock block; MouseEventsBound]) /\
    (src_ f <> JNull -> attributes image !! "xlink:href" = Some (href_of (src_ f))) /\
    (is_Some rect <-> GECKO = true \/ is_Some (rectElement_ f)).
Proof.
  intros Hfresh. unfold FieldImage.init. rewrite Hfresh.
  destruct f as [sb h w sz txt src grp img rect click parent]. simpl in *.
  destruct src as [| | s]; simpl; rewrite <- app_assoc; simpl;
    destruct GECKO; simpl; try (destruct rect as [r |]; simpl);
      eexists _, _, _; (split; [reflexivity |]);
        (split; [first [ intros H; contradiction | intros _; apply lookup_insert_eq ] |]);
        split; intros H; eauto; try (destruct H as [H | H]; [discriminate | destruct H; discriminate]).
Qed.

Lemma my_init_fresh block f events :
  sourceBlock_ f = None ->
  exists group image rect,
    my_init block (f, events) =
      (mkField (Some block) (height_ f) (width_ f) (size_ f) (text_ f) (src_ f)
               (Some group) (Some image) rect (clickEventListener f) (parentBlock f),
       events ++ [AppendedToBlock block; MouseEventsBound]
              ++ (if clickEventListener f then [ClickListenerAdded (parentBlock f)] else [])) /\
    (src_ f <> JNull -> attributes image !! "xlink:href" = Some (href_of (src_ f))) /\
    (is_Some rect <-> GECKO = true \/ is_Some (rectElement_ f)).
Proof.
  intros Hfresh. destruct (init_fresh block f events Hfresh) as (group & image & rect & E & H).
  exists group, image, rect. split; [| exact H].
  unfold FieldImage.my_init. cbn [fst]. rewrite Hfresh, E. cbn [clickEventListener parentBlock].
  destruct (clickEventListener f).
  - rewrite <- app_assoc. reflexivity.
  - rewrite app_nil_r. reflexivity.
Qed.

Lemma my_init_again block f events :
  sourceBlock_ f <> None -> my_init block (f, events) = (f, events).
Proof.
  intros H. unfold FieldImage.my_init. cbn [fst]. destruct (sourceBlock_ f); [reflexivity | contradiction].
Qed.

(** One call keeps the source and the link of the image in step. *)
Lemma step_synced w c :
  synced w.1 ->
  synced (step w c).1 /\ src_ (step w c).1 = last_value (src_ w.1) [c].
Proof.
  destruct w as [f events]. cbn [fst]. intros Hs. pose proof Hs as [Hsrc Hhref].
  destruct c as [block | | src | alt | newTip |]; cbn [FieldImage.step fst snd last_value].
  - destruct (sourceBlock_ f) eqn:Hsb.
    + rewrite my_init_again by (rewrite Hsb; discriminate). split; auto.
    + destruct (my_init_fresh block f events Hsb) as (group & image & rect & -> & Hlink & _).
      simpl. split; [| reflexivity]. split; [exact Hsrc |].
      intros image' [= <-]. exact (Hlink Hsrc).
  - simpl. split; [split; [exact Hsrc | discriminate] | reflexivity].
  - split; [apply setValue_synced; exact Hs |]. rewrite setValue_src. destruct src; reflexivity.
  - split; [| destruct alt; reflexivity]. destruct alt; simpl; auto; split; auto.
  - split; [| unfold setTooltip; destruct (rectElement_ f), (imageElement_ f); reflexivity].
    unfold setTooltip. destruct (rectElement_ f) as [rect |]; simpl.
    + split; [exact Hsrc | exact Hhref].
    + destruct (imageElement_ f) as [image |] eqn:Himg; simpl; [| exact Hs].
      split; [exact Hsrc |]. intros image' [= <-]. simpl. apply Hhref. reflexivity.
  - split; auto.
Qed.

Lemma last_value_cons current c calls :
  last_value current (c :: calls) = last_value (last_value current [c]) calls.
Proof. destruct c as [| | [| |] | | |]; reflexivity. Qed.

Lemma run_synced calls :
  forall w, synced w.1 ->
            synced (run calls w).1 /\ src_ (run calls w).1 = last_value (src_ w.1) calls.
Proof.
  induction calls as [| c calls IH]; intros w Hs; [split; auto |].
  destruct (step_synced w c Hs) as [Hs' Hsrc].
  destruct (IH (step w c) Hs') as [Hs'' Hsrc''].
  change (run (c :: calls) w) with (run calls (step w c)).
  split; [exact Hs'' |]. rewrite Hsrc'', Hsrc.
  symmetry. apply last_value_cons.
Qed.

Lemma MyFieldImage_fresh src width height opt_alt isClickListener parent :
  let f := MyFieldImage INLINE_PADDING_Y src width height opt_alt isClickListener parent in
  sourceBlock_ f = None /\ imageElement_ f = None /\ rectElement_ f = None /\
  clickEventListener f = isClickListener /\ parentBlock f = parent /\
  src_ f = match src with JNull => JUndefined | _ => src end.
Proof. destruct src; repeat split. Qed.

(** X7: whatever methods are called on a [MyFieldImage] after its
    construction, and in whatever order, [getValue] returns the source
    given to the last [setValue] whose argument was not [null] (that of the
    constructor if there was none, [undefined] if that was [null] too),
    never [null]; and the link of the image element, whenever the field
    has one, is that source if it is a string and the empty text
    otherwise. *)
Theorem getValue_is_last_source_and_link_follows :
  forall src width height opt_alt isClickListener parent calls,
    let f := (run calls (MyFieldImage INLINE_PADDING_Y src width height opt_alt
                           isClickListener parent, [])).1 in
    getValue f = last_value (match src with JNull => JUndefined | _ => src end) calls /\
    getValue f <> JNull /\
    forall image, imageElement_ f = Some image ->
                  attributes image !! "xlink:href" = Some (href_of (getValue f)).
Proof.
  intros src width height opt_alt isClickListener parent calls f.
  destruct (MyFieldImage_fresh src width height opt_alt isClickListener parent)
    as (_ & Himg & _ & _ & _ & Hsrc).
  destruct (run_synced calls
              (MyFieldImage INLINE_PADDING_Y src width height opt_alt isClickListener parent, []))
    as [[Hnotnull Hlink] Hlast].
  - cbn [fst]. split; [rewrite Hsrc; destruct src; discriminate |].
    rewrite Himg. discriminate.
  - cbn [fst] in Hlast. rewrite Hsrc in Hlast. fold f in Hnotnull, Hlink, Hlast.
    unfold getValue. split; [exact Hlast |]. split; [exact Hnotnull | exact Hlink].
Qed.

(** *** Attaching *)

Lemma filter_snoc_false {A} (p : A -> bool) l x :
  p x = false -> List.filter p (l ++ [x]) = List.filter p l.
Proof. intros H. rewrite List.filter_app. simpl. rewrite H. apply app_nil_r. Qed.

(** A call other than a first [init] leaves the block, the listener flag
    and the parent as they are, and adds neither an attachment nor a
    listener. *)
Lemma step_unattached w c :
  (sourceBlock_ w.1 <> None \/ first_init [c] = None) ->
  sourceBlock_ (step w c).1 = sourceBlock_ w.1 /\
  clickEventListener (step w c).1 = clickEventListener w.1 /\
  parentBlock (step w c).1 = parentBlock w.1 /\
  List.filter is_append (step w c).2 = List.filter is_append w.2 /\
  List.filter is_click_listener (step w c).2 = List.filter is_click_listener w.2.
Proof.
  destruct w as [f events]. cbn [fst snd]. intros H.
  destruct c as [block | | src | alt | newTip |]; cbn [FieldImage.step fst snd].
  - destruct H as [H | H]; [| discriminate]. rewrite my_init_again by exact H. repeat split.
  - simpl. rewrite !filter_snoc_false by reflexivity. repeat split.
  - destruct (setValue_static src f) as (-> & -> & -> & _). repeat split.
  - destruct alt; repeat split.
  - unfold setTooltip. destruct (rectElement_ f), (imageElement_ f); repeat split.
  - repeat split.
Qed.

Lemma run_attached calls :
  forall w, sourceBlock_ w.1 <> None ->
            sourceBlock_ (run calls w).1 = sourceBlock_ w.1 /\
            List.filter is_append (run calls w).2 = List.filter is_append w.2 /\
            List.filter is_click_listener (run calls w).2 = List.filter is_click_listener w.2.
Proof.
  induction calls as [| c calls IH]; intros w Hw; [repeat split |].
  change (run (c :: calls) w) with (run calls (step w c)).
  destruct (step_unattached w c (or_introl Hw)) as (Hsb & _ & _ & Ha & Hc).
  destruct (IH (step w c)) as (-> & -> & ->); [rewrite Hsb; exact Hw |].
  rewrite Hsb, Ha, Hc. repeat split.
Qed.

Lemma run_fresh calls :
  forall w, sourceBlock_ w.1 = None ->
            sourceBlock_ (run calls w).1 = first_init calls /\
            List.filter is_append (run calls w).2 =
              List.filter is_append w.2 ++
                match first_init calls with
                | Some block => [AppendedToBlock block]
                | None => []
                end /\
            List.filter is_click_listener (run calls w).2 =
              List.filter is_click_listener w.2 ++
                match first_init calls with
                | Some _ => if clickEventListener w.1
                            then [ClickListenerAdded (parentBlock w.1)] else []
                | None => []
                end.
Proof.
  induction calls as [| c calls IH]; intros w Hw.
  - cbn [first_init]. rewrite !app_nil_r. repeat split. exact Hw.
  - change (run (c :: calls) w) with (run calls (step w c)).
    destruct (first_init [c]) as [block |] eqn:Hc.
    + destruct c as [block' | | | | |]; try discriminate. injection Hc as ->.
      destruct w as [f events]. cbn [fst snd] in *. cbn [FieldImage.step first_init].
      destruct (my_init_fresh block f events Hw) as (group & image & rect & -> & _).
      destruct (run_attached calls
                  (mkField (Some block) (height_ f) (width_ f) (size_ f) (text_ f) (src_ f)
                     (Some group) (Some image) rect (clickEventListener f) (parentBlock f),
                   events ++ [AppendedToBlock block; MouseEventsBound]
                     ++ (if clickEventListener f then [ClickListenerAdded (parentBlock f)] else [])))
        as (-> & -> & ->); [discriminate |].
      cbn [fst snd sourceBlock_]. rewrite !List.filter_app.
      destruct (clickEventListener f); repeat split.
    + destruct (step_unattached w c (or_intror Hc)) as (Hsb & Hclick & Hparent & Ha & Hl).
      destruct (IH (step w c)) as (-> & -> & ->); [rewrite Hsb; exact Hw |].
      rewrite Ha, Hl, Hclick, Hparent.
      replace (first_init (c :: calls)) with (first_init calls)
        by (destruct c; [discriminate | reflexivity ..]).
      repeat split.
Qed.

(** X8: whatever methods are called on a [MyFieldImage] after its
    construction, the field belongs to the block of the first [init] (to
    none if there was no [init]); it has been appended to the picture of
    that block once and to no other, every later [init] doing nothing,
    also after a [dispose]; and the click listener has been added once if
    the field was built with one, for the parent given to the constructor,
    and never otherwise. *)
Theorem attached_once_to_first_block :
  forall src width height opt_alt isClickListener parent calls,
    let r := run calls (MyFieldImage INLINE_PADDING_Y src width height opt_alt
                          isClickListener parent, []) in
    sourceBlock_ r.1 = first_init calls /\
    List.filter is_append r.2 =
      match first_init calls with
      | Some block => [AppendedToBlock block]
      | None => []
      end /\
    List.filter is_click_listener r.2 =
      match first_init calls with
      | Some _ => if isClickListener then [ClickListenerAdded parent] else []
      | None => []
      end.
Proof.
  intros src width height opt_alt isClickListener parent calls r.
  destruct (MyFieldImage_fresh src width height opt_alt isClickListener parent)
    as (Hsb & _ & _ & Hclick & Hparent & _).
  destruct (run_fresh calls
              (MyFieldImage INLINE_PADDING_Y src width height opt_alt isClickListener parent, [])
              Hsb) as (H1 & H2 & H3).
  cbn [fst snd] in H2, H3. rewrite Hclick, Hparent in H3.
  repeat split; assumption.
Qed.

(** *** Elements *)

Lemma step_gone w c :
  sourceBlock_ w.1 <> None -> absent w.1 ->
  sourceBlock_ (step w c).1 <> None /\ absent (step w c).1.
Proof.
  intros Hsb Habs. destruct (step_unattached w c (or_introl Hsb)) as (E & _).
  split; [rewrite E; exact Hsb |]. clear E.
  destruct w as [f events]. cbn [fst snd] in *. destruct Habs as [Himg Hrect].
  destruct c as [block | | src | alt | newTip |]; cbn [FieldImage.step fst snd].
  - rewrite my_init_again by exact Hsb. split; assumption.
  - split; reflexivity.
  - destruct f as [sb h w sz txt cur grp img rect click parent]. simpl in *. subst.
    destruct src; split; reflexivity.
  - destruct alt; split; assumption.
  - unfold setTooltip. rewrite Himg, Hrect. split; assumption.
  - split; assumption.
Qed.

Lemma run_gone calls :
  forall w, sourceBlock_ w.1 <> None -> absent w.1 -> absent (run calls w).1.
Proof.
  induction calls as [| c calls IH]; intros w Hsb Habs; [exact Habs |].
  change (run (c :: calls) w) with (run calls (step w c)).
  destruct (step_gone w c Hsb Habs) as [Hsb' Habs']. exact (IH _ Hsb' Habs').
Qed.

Lemma step_built w c :
  sourceBlock_ w.1 <> None -> is_Some (imageElement_ w.1) ->
  sourceBlock_ (step w c).1 <> None /\
  if is_dispose c then absent (step w c).1 else is_Some (imageElement_ (step w c).1).
Proof.
  intros Hsb Himg. destruct (step_unattached w c (or_introl Hsb)) as (E & _).
  split; [rewrite E; exact Hsb |]. clear E.
  destruct w as [f events]. cbn [fst snd] in *.
  destruct c as [block | | src | alt | newTip |]; cbn [FieldImage.step fst snd is_dispose].
  - rewrite my_init_again by exact Hsb. exact Himg.
  - split; reflexivity.
  - apply (setValue_static src f). exact Himg.
  - destruct alt; exact Himg.
  - unfold setTooltip. destruct Himg as [image Himg].
    destruct (rectElement_ f); simpl; rewrite ?Himg; simpl; eauto.
  - exact Himg.
Qed.

Lemma run_built calls :
  forall w, sourceBlock_ w.1 <> None -> is_Some (imageElement_ w.1) ->
            if existsb is_dispose calls
            then absent (run calls w).1
            else is_Some (imageElement_ (run calls w).1).
Proof.
  induction calls as [| c calls IH]; intros w Hsb Himg; [exact Himg |].
  change (run (c :: calls) w) with (run calls (step w c)).
  destruct (step_built w c Hsb Himg) as [Hsb' H]. cbn [existsb].
  destruct (is_dispose c); cbn [orb].
  - exact (run_gone calls _ Hsb' H).
  - exact (IH _ Hsb' H).
Qed.

Lemma step_unbuilt w c :
  sourceBlock_ w.1 = None -> absent w.1 -> first_init [c] = None ->
  sourceBlock_ (step w c).1 = None /\ absent (step w c).1.
Proof.
  intros Hsb Habs Hc. destruct (step_unattached w c (or_intror Hc)) as (E & _).
  split; [rewrite E; exact Hsb |]. clear E.
  destruct w as [f events]. cbn [fst snd] in *. destruct Habs as [Himg Hrect].
  destruct c as [block | | src | alt | newTip |]; cbn [FieldImage.step fst snd];
    try discriminate.
  - split; reflexivity.
  - destruct f as [sb h w sz txt cur grp img rect click parent]. simpl in *. subst.
    destruct src; split; reflexivity.
  - destruct alt; split; assumption.
  - unfold setTooltip. rewrite Himg, Hrect. split; assumption.
  - split; assumption.
Qed.

Lemma run_unbuilt calls :
  forall w, sourceBlock_ w.1 = None -> absent w.1 ->
            if shown calls
            then is_Some (imageElement_ (run calls w).1)
            else absent (run calls w).1.
Proof.
  induction calls as [| c calls IH]; intros w Hsb Habs; [exact Habs |].
  change (run (c :: calls) w) with (run calls (step w c)).
  destruct (first_init [c]) as [block |] eqn:Hc.
  - destruct c as [block' | | | | |]; try discriminate.
    destruct w as [f events]. cbn [fst snd] in *. cbn [FieldImage.step].
    destruct (my_init_fresh block' f events Hsb) as (group & image & rect & -> & _).
    unfold shown. cbn [after_first_init].
    pose proof (run_built calls
                  (mkField (Some block') (height_ f) (width_ f) (size_ f) (text_ f) (src_ f)
                     (Some group) (Some image) rect (clickEventListener f) (parentBlock f),
                   events ++ [AppendedToBlock block'; MouseEventsBound]
                     ++ (if clickEventListener f then [ClickListenerAdded (parentBlock f)] else [])))
      as H.
    destruct (existsb is_dispose calls); cbn [negb]; apply H; simpl; eauto; discriminate.
  - destruct (step_unbuilt w c Hsb Habs Hc) as [Hsb' Habs'].
    replace (shown (c :: calls)) with (shown calls)
      by (destruct c; [discriminate | reflexivity ..]).
    exact (IH _ Hsb' Habs').
Qed.

(** X9: a [MyFieldImage] has an image element exactly when [init] has
    been called and [dispose] has not been called since the first [init]:
    no later [init] builds the elements again. Exactly then [setTooltip]
    has an element to write to; in every other state it raises a
    [TypeError]. *)
Theorem elements_iff_initialised_and_not_disposed :
  forall src width height opt_alt isClickListener parent calls newTip,
    let f := (run calls (MyFieldImage INLINE_PADDING_Y src width height opt_alt
                           isClickListener parent, [])).1 in
    (is_Some (imageElement_ f) <-> shown calls = true) /\
    (is_Some (setTooltip newTip f) <-> shown calls = true).
Proof.
  intros src width height opt_alt isClickListener parent calls newTip f.
  destruct (MyFieldImage_fresh src width height opt_alt isClickListener parent)
    as (Hsb & Himg & Hrect & _).
  pose proof (run_unbuilt calls
                (MyFieldImage INLINE_PADDING_Y src width height opt_alt isClickListener parent, [])
                Hsb (conj Himg Hrect)) as H.
  fold f in H. unfold setTooltip. destruct (shown calls).
  - destruct H as [image ->]. split; split; intros _; eauto.
    destruct (rectElement_ f); eauto.
  - destruct H as [-> ->]. split; split; intros H; try discriminate;
      destruct H; discriminate.
Qed.

End ImageField.

(** ** From the file picker to the field of the block *)

Section SampleBlock.

Import FieldImage.

(** X10: when the image of a sample block of the workspace is clicked and
    a file is then confirmed in the dialog, the dialog is hidden, no other
    block changes, and, provided the block stores a field value that it is
    given, its NAME field reads as the name that follows [C:\fakepath\] in
    the value of the file picker.  When the clicked block is not in the
    workspace any more, the confirmation raises a [TypeError] instead. *)
Theorem picked_sample_is_stored :
  forall (setFieldValue : Node -> option string -> string -> Node) p id,
    (workspace p !! id = None ->
     updateSampleBlock setFieldValue (playSampleClicked id p) = None) /\
    (forall block pre name,
        (forall b v n, getFieldValue (setFieldValue b (Some v) n) n = v) ->
        workspace p !! id = Some block ->
        picker_value p = pre +:+ fakepath +:+ name ->
        first_occurrence fakepath (picker_value p) (String.length pre) ->
        (forall n, ~ occurs_at fakepath name n) ->
        exists p' block',
          updateSampleBlock setFieldValue (playSampleClicked id p) = Some p' /\
          modal_display p' = "none" /\
          workspace p' !! id = Some block' /\
          (forall other, other <> id -> workspace p' !! other = workspace p !! other) /\
          getFieldValue block' "NAME" = name).
Proof.
  intros setFieldValue p id. split.
  - intros Hid. unfold updateSampleBlock, playSampleClicked. simpl. rewrite Hid. reflexivity.
  - intros block pre name Hset Hid Hvalue Hfirst Habsent.
    rewrite Hvalue in Hfirst.
    pose proof (picked_file_name_found pre name Hfirst Habsent) as Hsplit.
    unfold updateSampleBlock, playSampleClicked. simpl. rewrite Hid.
    unfold picked_file_name. rewrite Hvalue, Hsplit. simpl.
    eexists _, (setFieldValue block (Some name) "NAME").
    split; [reflexivity |]. simpl. split; [reflexivity |].
    split; [rewrite lookup_alter_eq, Hid; reflexivity |].
    split; [intros other Hother; apply lookup_alter_ne; congruence |].
    apply Hset.
Qed.

(** A block that stores the field value it is given, and prints
    [undefined] as JavaScript does. *)
Lemma stored_field_is_read b v n :
  getFieldValue
    (mkNode (kind b) (values b) (statements b) (next b)
            (<[ n := default "undefined" v ]> (fields b))) n
  = default "undefined" v.
Proof. unfold getFieldValue. simpl. rewrite lookup_insert_eq. reflexivity. Qed.

Lemma picked_sample_is_stored_witness :
  exists p' block',
    updateSampleBlock
      (fun b v n => mkNode (kind b) (values b) (statements b) (next b)
                           (<[ n := default "undefined" v ]> (fields b)))
      (playSampleClicked 7
         (mkPage {[ 7 := mkNode "trigger_sample" ∅ ∅ None {[ "NAME" := "no file selected" ]} ]}
                 None "none" "C:\fakepath\kick.wav")) = Some p' /\
    modal_display p' = "none" /\
    workspace p' !! 7 = Some block' /\
    (forall other, other <> 7 ->
       workspace p' !! other
       = workspace (mkPage {[ 7 := mkNode "trigger_sample" ∅ ∅ None
                                     {[ "NAME" := "no file selected" ]} ]}
                           None "none" "C:\fakepath\kick.wav") !! other) /\
    getFieldValue block' "NAME" = "kick.wav".
Proof.
  apply (proj2 (picked_sample_is_stored
                  (fun b v n => mkNode (kind b) (values b) (statements b) (next b)
                                       (<[ n := default "undefined" v ]> (fields b)))
                  (mkPage {[ 7 := mkNode "trigger_sample" ∅ ∅ None
                                    {[ "NAME" := "no file selected" ]} ]}
                          None "none" "C:\fakepath\kick.wav") 7)
               (mkNode "trigger_sample" ∅ ∅ None {[ "NAME" := "no file selected" ]})
               EmptyString "kick.wav").
  - intros b v n. apply (stored_field_is_read b (Some v) n).
  - reflexivity.
  - reflexivity.
  - apply find_first_some. vm_compute. reflexivity.
  - apply find_first_none. vm_compute. reflexivity.
Defined.

End SampleBlock.

(** ** Sending OSC messages *)

Section Osc.

Import Processing.

Variable to_char_list : string -> option (list Z).
Variable packet : Type.
Variable encode : string -> list term -> option packet.
Variable opens : Z -> bool.
Variable send_returns : packet -> string -> Z -> bool.

Lemma term_nested_ind (P : term -> Prop) :
  (forall z, P (TInteger z)) ->
  (forall name, P (TAtom name)) ->
  (forall bytes, P (TBinary bytes)) ->
  (forall items, Forall P items -> P (TList items)) ->
  forall x, P x.
Proof.
  intros Hint Hatom Hbin Hlist. fix IH 1. intros [z | name | bytes | items].
  - apply Hint.
  - apply Hatom.
  - apply Hbin.
  - apply Hlist. induction items as [| x items IHitems].
    + apply Forall_nil. exact I.
    + apply Forall_cons. split; [apply IH | exact IHitems].
Qed.

(** [List.flatten] leaves no list among the elements. *)
Lemma flatten_term_leaves x : Forall (fun leaf => is_list leaf = false) (flatten_term x).
Proof.
  induction x as [z | name | bytes | items IH] using term_nested_ind;
    try (apply Forall_cons; split; [reflexivity | apply Forall_nil; exact I]).
  cbn [flatten_term]. induction items as [| x items IHitems]; [apply Forall_nil; exact I |].
  apply Forall_cons in IH as [Hx Hitems]. cbn [flat_map].
  apply Forall_app. split; [exact Hx | exact (IHitems Hitems)].
Qed.

Lemma flatten_leaves items : Forall (fun leaf => is_list leaf = false) (flatten items).
Proof. exact (flatten_term_leaves (TList items)). Qed.

Lemma convert_Some leaf arg :
  is_list leaf = false ->
  convert to_char_list leaf = Some arg ->
  match leaf with
  | TBinary bytes => exists codes, to_char_list bytes = Some codes /\ arg = char_list codes
  | _ => arg = leaf
  end /\ is_bitstring arg = false.
Proof.
  destruct leaf as [z | name | bytes | items]; simpl; try discriminate.
  - intros _ [= <-]. split; reflexivity.
  - intros _ [= <-]. split; reflexivity.
  - intros _. destruct (to_char_list bytes) as [codes |]; [| discriminate].
    intros [= <-]. split; [exists codes; split; reflexivity | reflexivity].
Qed.

Lemma flatten_char_list codes : flatten_term (char_list codes) = map TInteger codes.
Proof.
  unfold char_list. cbn [flatten_term].
  induction codes as [| z codes IH]; [reflexivity |]. simpl. rewrite IH. reflexivity.
Qed.

Lemma mapM_convert_integers codes :
  mapM (convert to_char_list) (map TInteger codes) = Some (map TInteger codes).
Proof.
  apply mapM_Some. induction codes as [| z codes IH]; simpl.
  - apply Forall2_nil. exact I.
  - apply Forall2_cons. split; [reflexivity | exact IH].
Qed.


(** X12: a binary among the parameters arrives as one argument, its
    character list, whereas the same character list given as a parameter
    is taken apart into one integer argument for each character. *)
Theorem char_list_parameter_is_taken_apart :
  forall bytes codes,
    to_char_list bytes = Some codes ->
    prepare to_char_list (TList [TBinary bytes]) = Some [char_list codes] /\
    prepare to_char_list (TList [char_list codes]) = Some (map TInteger codes).
Proof.
  intros bytes codes Hcodes. split.
  - simpl. rewrite Hcodes. reflexivity.
  - cbn [prepare flatten flat_map]. rewrite app_nil_r, flatten_char_list.
    apply mapM_convert_integers.
Qed.

(** The preparation of the arguments raises exactly when [params] is not
    a list or holds, at any depth, a binary that [String.to_char_list]
    rejects. *)
Lemma prepare_None_iff params :
  prepare to_char_list params = None <->
  is_list params = false \/
  exists bytes, In (TBinary bytes) (flatten_term params) /\ to_char_list bytes = None.
Proof.
  split.
  - intros Hprepare.
    destruct params as [z | atom | bytes' | items]; try (left; reflexivity).
    right. cbn [prepare] in Hprepare. apply mapM_None in Hprepare.
    apply Exists_exists in Hprepare as (leaf & Hin & Hconvert).
    destruct leaf as [z | atom | bytes | items']; try discriminate.
    exists bytes. split; [apply list_elem_of_In; exact Hin |].
    simpl in Hconvert. destruct (to_char_list bytes); [discriminate | reflexivity].
  - intros [Hlist | (bytes & Hin & Hbytes)].
    + destruct params; try discriminate; reflexivity.
    + destruct params as [z | atom | bytes' | items];
        try (simpl in Hin; destruct Hin as [[=] | []]; fail); try reflexivity.
      cbn [prepare]. apply mapM_None, Exists_exists.
      exists (TBinary bytes). split; [apply list_elem_of_In; exact Hin |].
      simpl. rewrite Hbytes. reflexivity.
Qed.

(** X13: [send_osc_message] raises instead of returning exactly when the
    socket cannot be opened, or [params] is not a list or holds, at any
    depth, a binary that [String.to_char_list] rejects, or the encoder or
    the sending of the packet raises.  Whenever it raises it has sent
    nothing and has not closed the socket, which stays open if it was
    opened; when it returns it has opened and closed the socket once. *)
Theorem send_raises_and_leaves_socket_open :
  forall ip to_port name params,
    let r := send_osc_message to_char_list encode opens send_returns ip to_port name params in
    (r.2 = false <->
     opens 9999 = false \/
     is_list params = false \/
     (exists bytes, In (TBinary bytes) (flatten_term params) /\ to_char_list bytes = None) \/
     (exists args,
         prepare to_char_list params = Some args /\
         match encode name args with
         | None => True
         | Some message => send_returns message ip to_port = false
         end)) /\
    (r.2 = false ->
     List.filter is_sent r.1 = [] /\ List.filter is_closed r.1 = [] /\
     (opens 9999 = true -> List.filter is_opened r.1 = [Opened 9999 true])) /\
    (r.2 = true ->
     List.filter is_opened r.1 = [Opened 9999 true] /\ List.filter is_closed r.1 = [Closed]).
Proof.
  intros ip to_port name params r. subst r. unfold send_osc_message.
  pose proof (prepare_None_iff params) as Hnone.
  destruct (opens 9999) eqn:Hopens; cbn [negb fst snd];
    [| split; [split; auto | split; [intros _; repeat split; discriminate | discriminate]]].
  destruct (prepare to_char_list params) as [args |] eqn:Hprepare; cbn [fst snd].
  - assert (~ (is_list params = false \/
               exists bytes, In (TBinary bytes) (flatten_term params) /\
                             to_char_list bytes = None)) as Hgood.
    { intros H. apply Hnone in H. discriminate. }
    destruct (encode name args) as [message |] eqn:Hencode; cbn [fst snd];
      [destruct (send_returns message ip to_port) eqn:Hsend; cbn [fst snd] |].
    + split; [| split; [discriminate | intros _; split; reflexivity]].
      split; [discriminate |].
      intros [H | [H | [H | (args' & [= <-] & H)]]]; try discriminate;
        try (destruct Hgood; auto; fail).
      rewrite Hencode in H. congruence.
    + split; [| split; [intros _; repeat split; reflexivity | discriminate]].
      split; [| reflexivity]. intros _. right. right. right.
      exists args. split; [reflexivity |]. rewrite Hencode. exact Hsend.
    + split; [| split; [intros _; repeat split; reflexivity | discriminate]].
      split; [| reflexivity]. intros _. right. right. right.
      exists args. split; [reflexivity |]. rewrite Hencode. exact I.
  - split; [| split; [intros _; repeat split; reflexivity | discriminate]].
    split; [| reflexivity]. intros _.
    destruct (proj1 Hnone eq_refl) as [H | H]; auto.
Qed.

End Osc.

Section OscExamples.

Import Processing.


Lemma char_list_parameter_is_taken_apart_witness :
  prepare (fun _ : string => Some [104; 105]%Z) (TList [TBinary "hi"])
  = Some [char_list [104; 105]%Z] /\
  prepare (fun _ : string => Some [104; 105]%Z) (TList [char_list [104; 105]%Z])
  = Some [TInteger 104; TInteger 105].
Proof.
  apply (char_list_parameter_is_taken_apart (fun _ : string => Some [104; 105]%Z)
           "hi" [104; 105]%Z).
  reflexivity.
Defined.

Lemma send_raises_and_leaves_socket_open_witness :
  List.filter is_sent
    (send_osc_message (fun _ : string => None)
       (fun name args => Some (name, args) : option (string * list term))
       (fun _ => true) (fun _ _ _ => true)
       "10.0.0.2" 9090%Z "/note" (TList [TInteger 1; TList [TBinary "hi"]])).1 = [] /\
  List.filter is_closed
    (send_osc_message (fun _ : string => None)
       (fun name args => Some (name, args) : option (string * list term))
       (fun _ => true) (fun _ _ _ => true)
       "10.0.0.2" 9090%Z "/note" (TList [TInteger 1; TList [TBinary "hi"]])).1 = [] /\
  ((fun _ : Z => true) 9999%Z = true ->
   List.filter is_opened
     (send_osc_message (fun _ : string => None)
        (fun name args => Some (name, args) : option (string * list term))
        (fun _ => true) (fun _ _ _ => true)
        "10.0.0.2" 9090%Z "/note" (TList [TInteger 1; TList [TBinary "hi"]])).1
   = [Opened 9999 true]).
Proof.
  apply (proj1 (proj2 (send_raises_and_leaves_socket_open (fun _ : string => None)
                         (string * list term) (fun name args => Some (name, args))
                         (fun _ => true) (fun _ _ _ => true)
                         "10.0.0.2" 9090%Z "/note"
                         (TList [TInteger 1; TList [TBinary "hi"]])))).
  apply (proj1 (send_raises_and_leaves_socket_open (fun _ : string => None)
                  (string * list term) (fun name args => Some (name, args))
                  (fun _ => true) (fun _ _ _ => true)
                  "10.0.0.2" 9090%Z "/note" (TList [TInteger 1; TList [TBinary "hi"]]))).
  right. right. left. exists "hi". split; [simpl; tauto | reflexivity].
Defined.

End OscExamples.

(** ** Blocks and their generators *)

Lemma same_bind {A B : Type} (m m' : M A) (f f' : A -> M B) :
  same m m' -> (forall a, same (f a) (f' a)) -> same (bind m f) (bind m' f').
Proof.
  intros Hm Hf st. unfold bind. rewrite (Hm st). destruct (m' st); [apply Hf | reflexivity ..].
Qed.

Lemma same_refl {A : Type} (m : M A) : same m m.
Proof. intros st. reflexivity. Qed.

Ltac solve_same Hv Hs :=
  repeat first [ apply same_refl
               | apply same_bind; [| intro]
               | apply Hv; compute_done
               | apply Hs; compute_done ].

Ltac rewrite_fields Hf :=
  repeat match goal with
         | |- context [getFieldValue ?b ?name] =>
             lazymatch goal with
             | H : agree_fields _ b _ |- _ => rewrite (H name) by compute_done
             end
         end.

Lemma statement_kinds_read_declared :
  Forall (fun e : string * statement_generator =>
            e.1 <> "play_chord_progression" ->
            exists def,
              assoc e.1 Blocks = Some def /\
              has_output def = false /\
              forall v v' s s' b b',
                agree_values def v v' b b' ->
                agree_statements def s s' b b' ->
                agree_fields def b b' ->
                same (e.2 v s b) (e.2 v' s' b')) statement_kinds.
Proof.
  table_cases; intros Hk; try (destruct Hk; reflexivity);
    (eexists; split; [reflexivity |]; split; [reflexivity |]);
    intros v v' s s' b b' Hv Hs Hf; unfold_generators;
    rewrite_fields Hf; solve_same Hv Hs.
Qed.

Lemma value_kinds_read_declared :
  Forall (fun e : string * value_generator =>
            exists def,
              assoc e.1 Blocks = Some def /\
              has_output def = true /\
              forall v v' b b',
                agree_values def v v' b b' ->
                same (e.2 v b) (e.2 v' b')) value_kinds.
Proof.
  table_cases; (eexists; split; [reflexivity |]; split; [reflexivity |]);
    intros v v' b b' Hv; unfold_generators; solve_same Hv Hv.
Qed.

(** X14: every generator but that of [play_chord_progression] belongs to
    a block that [Blockly.Blocks] defines, with an output connection
    exactly when the generator returns a pair of text and tier, and reads
    nothing of its block but the value inputs, statement inputs and fields
    that the definition declares: on two blocks that agree on these it
    returns the same, from every context. *)
Theorem generators_read_what_blocks_declare :
  forall k,
    k <> "play_chord_progression" ->
    (forall gen,
        assoc k statement_kinds = Some gen ->
        exists def,
          assoc k Blocks = Some def /\
          has_output def = false /\
          forall v v' s s' b b',
            agree_values def v v' b b' ->
            agree_statements def s s' b b' ->
            agree_fields def b b' ->
            same (gen v s b) (gen v' s' b')) /\
    (forall gen,
        assoc k value_kinds = Some gen ->
        exists def,
          assoc k Blocks = Some def /\
          has_output def = true /\
          forall v v' b b',
            agree_values def v v' b b' ->
            same (gen v b) (gen v' b')).
Proof.
  intros k Hk. split; intros gen Hgen.
  - exact (table_lookup _ _ _ _ statement_kinds_read_declared Hgen Hk).
  - exact (table_lookup _ _ _ _ value_kinds_read_declared Hgen).
Qed.

Lemma generators_read_what_blocks_declare_witness :
  same (rest (fun _ _ _ => ret "2")
             (mkNode "rest" ∅ ∅ None {[ "UNITS" := ":beats" ]}))
       (rest (fun _ _ _ => ret "2")
             (mkNode "rest" ∅ ∅ (Some 4%nat) (<[ "COLOUR" := "275" ]> {[ "UNITS" := ":beats" ]}))).
Proof.
  destruct (proj1 (generators_read_what_blocks_declare "rest" ltac:(discriminate))
              (fun v _ => rest v) eq_refl) as (def & Hdef & _ & Hsame).
  injection Hdef as <-.
  apply (Hsame (fun _ _ _ => ret "2") (fun _ _ _ => ret "2")
               (fun _ _ => ret EmptyString) (fun _ _ => ret EmptyString)).
  - intros name tier _ st. reflexivity.
  - intros name _ st. reflexivity.
  - intros name Hname. simpl in Hname.
    apply elem_of_cons in Hname as [-> | Hname]; [reflexivity |].
    apply elem_of_nil in Hname. destruct Hname.
Defined.

(** X15: the block of [play_chord_progression] declares NAME as a field
    and declares no value input, yet its generator resolves a value input
    NAME and reads no field: its result is fixed by that resolution and by
    the text of the DO input, whatever the fields hold, and it fails with
    the error of that resolution when that fails. *)
Theorem chord_progression_resolves_undeclared_input :
  exists def,
    assoc "play_chord_progression" Blocks = Some def /\
    value_inputs def = [] /\
    "NAME" ∈ field_names def /\
    (forall v v' s s' b b',
        same (v b "NAME" ORDER_ATOMIC) (v' b' "NAME" ORDER_ATOMIC) ->
        agree_statements def s s' b b' ->
        same (play_chord_progression v s b) (play_chord_progression v' s' b')) /\
    (forall v s b st e,
        v b "NAME" ORDER_ATOMIC {| context := Some ":music"; macros_ := macros_ st |} = Fail e ->
        play_chord_progression v s b st = Fail e).
Proof.
  eexists. split; [reflexivity |]. split; [reflexivity |]. split; [compute_done |]. split.
  - intros v v' s s' b b' Hv Hs. unfold_generators.
    apply same_bind; [apply same_refl | intros _].
    apply same_bind; [exact Hv | intros _].
    apply same_bind; [apply Hs; compute_done | intros text]. apply same_refl.
  - intros v s b st e Hfail. unfold play_chord_progression, bind, set_context.
    rewrite Hfail. reflexivity.
Qed.

Lemma chord_progression_resolves_undeclared_input_witness :
  play_chord_progression (fun _ _ _ => throw (UnknownKind 3 "note")) (fun _ _ => ret "play" )
    (bare "play_chord_progression") fresh_context
  = Fail (UnknownKind 3 "note").
Proof.
  destruct chord_progression_resolves_undeclared_input as (def & _ & _ & _ & _ & Hfail).
  apply Hfail. reflexivity.
Defined.
